(** * Verification of the YouTube transcript indexer and hybrid search

    A shallow embedding of the segmenter, the keyword extractor adapter,
    the index writer, the indexing orchestrator
    ([YouTubeChannelIndexer], [extractKeywordsFromTranscript]) and of the
    hybrid search engine ([SemanticSearchService]), with the properties of
    the specification stated and settled on it.

    Conventions of the embedding.
    - A JavaScript string is a [string] whose characters are the code
      units U+0000..U+00FF (Latin-1); [length] is the number of code units.
    - JavaScript numbers holding integers are [Z]; the scores of the
      pipeline and the quotients are exact rationals [Q]; the distances,
      similarities and relevance scores, which may be [NaN], are of
      [Number.t].
    - An [async] method is a computation in the monad [M]: it reads and
      changes a [World] (the database, the indexer instance, the clock)
      and either returns or throws. *)

From Stdlib Require Import List String Ascii ZArith QArith Qround Bool Lia Arith.
From Stdlib Require Import Sorting.Sorted Sorting.Permutation.
Import ListNotations.

Local Close Scope Q_scope.
Local Open Scope string_scope.
Local Open Scope list_scope.
Local Open Scope nat_scope.

(** ** JavaScript string primitives *)

Module JS.

(** The characters matched by the regular-expression class [\s] and removed by
    [String.prototype.trim], among the code units below U+0100:
    TAB, LF, VT, FF, CR, SPACE and NO-BREAK SPACE. *)
Definition isSpace (c : ascii) : bool :=
  let n := nat_of_ascii c in
  ((9 <=? n) && (n <=? 13)) || (n =? 32) || (n =? 160).

(** [String.prototype.toLowerCase] on one code unit: A-Z, and the Latin-1
    capitals U+00C0..U+00DE except the multiplication sign U+00D7. *)
Definition lowerChar (c : ascii) : ascii :=
  let n := nat_of_ascii c in
  if ((65 <=? n) && (n <=? 90))
     || ((192 <=? n) && (n <=? 222) && negb (n =? 215))
  then ascii_of_nat (n + 32) else c.

Fixpoint toLowerCase (s : string) : string :=
  match s with
  | EmptyString => EmptyString
  | String c s' => String (lowerChar c) (toLowerCase s')
  end.

(** [s.split(re)] for a regular expression [re] of the form [[class]+]:
    the string is cut at every maximal run of separator characters, so a
    leading or trailing run yields an empty first or last piece, and the
    empty string yields one empty piece.  [cur] is the piece being read. *)
Fixpoint splitRuns (sep : ascii -> bool) (s : string) (cur : string) : list string :=
  match s with
  | EmptyString => [cur]
  | String c s' =>
      if sep c then
        match s' with
        | String c' _ =>
            if sep c' then splitRuns sep s' cur
            else cur :: splitRuns sep s' EmptyString
        | EmptyString => cur :: splitRuns sep s' EmptyString
        end
      else splitRuns sep s' (cur ++ String c EmptyString)%string
  end.

(** [s.split(/\s+/)] *)
Definition splitWhitespace (s : string) : list string := splitRuns isSpace s "".

(** [s.split(" ")]: cut at every single space. *)
Fixpoint splitOn (d : ascii) (s : string) (cur : string) : list string :=
  match s with
  | EmptyString => [cur]
  | String c s' =>
      if Ascii.eqb c d then cur :: splitOn d s' EmptyString
      else splitOn d s' (cur ++ String c EmptyString)%string
  end.

Definition splitSpace (s : string) : list string := splitOn " "%char s "".

(** [words.join(" ")] *)
Fixpoint join (d : string) (l : list string) : string :=
  match l with
  | [] => ""
  | [x] => x
  | x :: rest => (x ++ d ++ join d rest)%string
  end.

Fixpoint trimStart (s : string) : string :=
  match s with
  | EmptyString => EmptyString
  | String c s' => if isSpace c then trimStart s' else s
  end.

(** Removes the trailing white space: a character is kept when it is not a
    space or when something is kept after it. *)
Fixpoint trimEnd (s : string) : string :=
  match s with
  | EmptyString => EmptyString
  | String c s' =>
      match trimEnd s' with
      | EmptyString => if isSpace c then EmptyString else String c EmptyString
      | t => String c t
      end
  end.

Definition trim (s : string) : string := trimEnd (trimStart s).

(** [s.includes(sub)] *)
Fixpoint includes (s sub : string) : bool :=
  if String.prefix sub s then true
  else match s with
       | EmptyString => false
       | String _ s' => includes s' sub
       end.

(** A string is truthy when it is not empty. *)
Definition truthy (s : string) : bool :=
  match s with EmptyString => false | _ => true end.

(** [l.slice(a, b)] for [0 <= a], and [l.slice(-k)]: the last [k] elements,
    all of them for [k = 0] since [-0] is [0]. *)
Definition slice {A} (a b : nat) (l : list A) : list A := firstn (b - a) (skipn a l).
Definition sliceLast {A} (k : nat) (l : list A) : list A :=
  if k =? 0 then l else skipn (List.length l - k) l.

(** [Math.round]: the nearest integer, a half rounded up. *)
Definition Math_round (x : Q) : Z := Qfloor (x + (1 # 2))%Q.

(** [Math.min] *)
Definition Math_min (x y : Q) : Q := if Qle_bool x y then x else y.

(** *** Doubles

    A number is the rational value of a double.  The arithmetic of the
    program is exact in the model but for the product [score * 100] that
    [Math.round] cuts, which is rounded to a double as the processor does. *)

(** [2^e * x] *)
Definition scale (x : Q) (e : Z) : Q :=
  if (0 <=? e)%Z then (x * inject_Z (2 ^ e))%Q else (x / inject_Z (2 ^ (- e)))%Q.

(** The integer nearest to [y], a half to the even one. *)
Definition roundHalfEven (y : Q) : Z :=
  let f := Qfloor y in
  match ((y - inject_Z f) ?= (1 # 2))%Q with
  | Lt => f
  | Gt => (f + 1)%Z
  | Eq => if Z.even f then f else (f + 1)%Z
  end.

(** The exponent [e] with [2^e <= x < 2^(e+1)], for [0 < x]. *)
Definition floorLog2 (x : Q) : Z :=
  let k := (Z.log2 (Qnum x) - Z.log2 (Zpos (Qden x)))%Z in
  if Qle_bool (scale 1 k) x then k else (k - 1)%Z.

(** The double nearest to [x], a tie to the even mantissa: a mantissa of 53
    bits.  The range of the exponent is left out: a double is never so large
    as to be [Infinity] nor so small as to be subnormal here. *)
Definition double (x : Q) : Q :=
  match (x ?= 0)%Q with
  | Eq => 0%Q
  | Gt =>
      let e := (floorLog2 x - 52)%Z in
      scale (inject_Z (roundHalfEven (scale x (- e)))) e
  | Lt =>
      let e := (floorLog2 (- x) - 52)%Z in
      (- scale (inject_Z (roundHalfEven (scale (- x) (- e)))) e)%Q
  end.

(** [x * y] on doubles. *)
Definition times (x y : Q) : Q := double (x * y).

(** [l.some(p)] and [l.filter(p)] are [existsb] and [filter]. *)

End JS.

(** ** Query keywords ([SemanticSearchService]) *)

Module Query.

Definition stopWords : list string :=
  [ "the"; "a"; "an"; "and"; "or"; "but"; "in"; "on"; "at"; "to"; "for"; "of";
    "with"; "by"; "is"; "are"; "was"; "were"; "be"; "been"; "being"; "have";
    "has"; "had"; "do"; "does"; "did"; "will"; "would"; "could"; "should";
    "may"; "might"; "must"; "can"; "this"; "that"; "these"; "those"; "i";
    "you"; "he"; "she"; "it"; "we"; "they"; "me"; "him"; "her"; "us"; "them";
    "my"; "your"; "his"; "her"; "its"; "our"; "their" ].

(** [isStopWord]: membership in the set built from [stopWords]. *)
Definition isStopWord (word : string) : bool :=
  existsb (String.eqb word) stopWords.

(** [extractKeywordsFromQuery] *)
Definition extractKeywordsFromQuery (query : string) : list string :=
  filter (fun word => negb (isStopWord word))
    (filter (fun word => 2 <? String.length word)
       (JS.splitWhitespace (JS.toLowerCase query))).

End Query.


(** ** The persisted schema ([youtube-schema.ts]) *)

(** A [uuid] drawn by the database. *)
Definition Id := nat.
(** A [timestamp]. *)
Definition Timestamp := Z.
(** A [vector] column. *)
Definition Embedding := list Q.

(** The nullable columns that no modelled statement reads or writes
    ([description], [subscriberCount], [videoCount] and [thumbnailUrl] of a
    channel, [embedding] of a keyword, [totalChunks] and [processedChunks] of
    an index status) are left out of the rows. *)

Module Channel.
Record t := mk {
  id : Id;
  channelId : string;
  channelName : string;
  channelUrl : string;
  createdAt : Timestamp;
  updatedAt : Timestamp;
  isIndexed : bool;
  lastIndexedAt : option Timestamp
}.
End Channel.

Module Video.
Record t := mk {
  id : Id;
  videoId : string;
  channelId : Id;
  title : string;
  description : string;
  publishedAt : Timestamp;
  duration : Z;
  viewCount : Z;
  likeCount : Z;
  thumbnailUrl : string;
  videoUrl : string;
  transcript : option string;
  transcriptLength : option Z;
  isTranscriptAvailable : bool;
  createdAt : Timestamp;
  updatedAt : Timestamp
}.
End Video.

Module Chunk.
Record t := mk {
  id : Id;
  videoId : Id;
  chunkIndex : Z;
  content : string;
  startTime : Z;
  endTime : Z;
  tokenCount : Z;
  embedding : option Embedding;
  createdAt : Timestamp
}.
Definition set_embedding (e : option Embedding) (c : t) : t :=
  mk (id c) (videoId c) (chunkIndex c) (content c) (startTime c) (endTime c)
     (tokenCount c) e (createdAt c).
End Chunk.

Module Keyword.
Record t := mk {
  id : Id;
  videoId : Id;
  chunkId : option Id;
  keyword : string;
  entityType : option string;
  confidence : Z;
  frequency : Z;
  relevance : Z;
  createdAt : Timestamp
}.
End Keyword.

Inductive Status : Type :=
  | pending | indexing_videos | extracting_transcripts | processing_chunks
  | generating_embeddings | completed | failed.

Definition Status_eqb (a b : Status) : bool :=
  match a, b with
  | pending, pending | indexing_videos, indexing_videos
  | extracting_transcripts, extracting_transcripts
  | processing_chunks, processing_chunks
  | generating_embeddings, generating_embeddings
  | completed, completed | failed, failed => true
  | _, _ => false
  end.

Module IndexStatus.
Record t := mk {
  id : Id;
  channelId : Id;
  status : Status;
  progress : Z;
  totalVideos : Z;
  processedVideos : Z;
  errorMessage : option string;
  startedAt : Timestamp;
  completedAt : option Timestamp;
  createdAt : Timestamp
}.
End IndexStatus.

Module SearchQuery.
Record t := mk {
  id : Id;
  channelId : Id;
  query : string;
  queryEmbedding : option Embedding;
  resultsCount : Z;
  executionTime : option Z;
  createdAt : Timestamp
}.
End SearchQuery.

(** The tables, each in the order its rows were inserted. *)
Record Database := mkDatabase {
  youtubeChannel : list Channel.t;
  youtubeVideo : list Video.t;
  transcriptChunk : list Chunk.t;
  videoKeyword : list Keyword.t;
  channelIndexStatus : list IndexStatus.t;
  searchQuery : list SearchQuery.t
}.

Definition emptyDatabase : Database := mkDatabase [] [] [] [] [] [].

Definition set_youtubeChannel (x : list Channel.t) (d : Database) : Database :=
  mkDatabase x (youtubeVideo d) (transcriptChunk d) (videoKeyword d)
    (channelIndexStatus d) (searchQuery d).
Definition set_youtubeVideo (x : list Video.t) (d : Database) : Database :=
  mkDatabase (youtubeChannel d) x (transcriptChunk d) (videoKeyword d)
    (channelIndexStatus d) (searchQuery d).
Definition set_transcriptChunk (x : list Chunk.t) (d : Database) : Database :=
  mkDatabase (youtubeChannel d) (youtubeVideo d) x (videoKeyword d)
    (channelIndexStatus d) (searchQuery d).
Definition set_videoKeyword (x : list Keyword.t) (d : Database) : Database :=
  mkDatabase (youtubeChannel d) (youtubeVideo d) (transcriptChunk d) x
    (channelIndexStatus d) (searchQuery d).
Definition set_channelIndexStatus (x : list IndexStatus.t) (d : Database) : Database :=
  mkDatabase (youtubeChannel d) (youtubeVideo d) (transcriptChunk d)
    (videoKeyword d) x (searchQuery d).
Definition set_searchQuery (x : list SearchQuery.t) (d : Database) : Database :=
  mkDatabase (youtubeChannel d) (youtubeVideo d) (transcriptChunk d)
    (videoKeyword d) (channelIndexStatus d) x.

(** ** The world of an asynchronous call *)

(** Every awaited operation on the database or on an outside service takes
    one tick.  [faults k] tells whether the database statement issued at
    tick [k] is rejected (connection lost, constraint violated by another
    writer, ...); the outside services answer as a function of the tick too,
    see [Env].  [channelDbId] is the field of the indexer instance,
    [cachedNer] tells whether the module variable of that name is set, [now]
    is the value of [new Date()], [nextId] the next identifier the database
    draws and [progressLog] the trace of the progress values carried by the
    statements executed on [ChannelIndexStatus], oldest first. *)
Record World := mkWorld {
  db : Database;
  nextId : Id;
  ticks : nat;
  faults : nat -> bool;
  now : Timestamp;
  channelDbId : option Id;
  cachedNer : bool;
  progressLog : list Z
}.

Definition set_db (d : Database) (w : World) : World :=
  mkWorld d (nextId w) (ticks w) (faults w) (now w) (channelDbId w) (cachedNer w) (progressLog w).
Definition set_faults (f : nat -> bool) (w : World) : World :=
  mkWorld (db w) (nextId w) (ticks w) f (now w) (channelDbId w) (cachedNer w) (progressLog w).
Definition set_now (t : Timestamp) (w : World) : World :=
  mkWorld (db w) (nextId w) (ticks w) (faults w) t (channelDbId w) (cachedNer w) (progressLog w).
Definition set_channelDbId (c : option Id) (w : World) : World :=
  mkWorld (db w) (nextId w) (ticks w) (faults w) (now w) c (cachedNer w) (progressLog w).
Definition tick (w : World) : World :=
  mkWorld (db w) (nextId w) (S (ticks w)) (faults w) (now w) (channelDbId w)
    (cachedNer w) (progressLog w).
Definition bumpId (w : World) : World :=
  mkWorld (db w) (S (nextId w)) (ticks w) (faults w) (now w) (channelDbId w)
    (cachedNer w) (progressLog w).
Definition set_cachedNer (b : bool) (w : World) : World :=
  mkWorld (db w) (nextId w) (ticks w) (faults w) (now w) (channelDbId w) b
    (progressLog w).
Definition logProgress (p : Z) (w : World) : World :=
  mkWorld (db w) (nextId w) (ticks w) (faults w) (now w) (channelDbId w)
    (cachedNer w) (progressLog w ++ [p]).

Definition initialWorld (f : nat -> bool) (t : Timestamp) : World :=
  mkWorld emptyDatabase 0 0 f t None false [].

(** The value of an awaited promise: fulfilled, or rejected with an error,
    which is represented by its message. *)
Inductive outcome (A : Type) : Type :=
  | Ret (a : A)
  | Throw (message : string).
Arguments Ret {A} a.
Arguments Throw {A} message.

Definition M (A : Type) : Type := World -> outcome A * World.

Definition ret {A} (a : A) : M A := fun w => (Ret a, w).
Definition throw {A} (message : string) : M A := fun w => (Throw message, w).
Definition bind {A B} (m : M A) (k : A -> M B) : M B :=
  fun w =>
    match m w with
    | (Ret a, w') => k a w'
    | (Throw e, w') => (Throw e, w')
    end.
(** [try { m } catch (error) { handler error }] *)
Definition tryCatch {A} (m : M A) (handler : string -> M A) : M A :=
  fun w =>
    match m w with
    | (Ret a, w') => (Ret a, w')
    | (Throw e, w') => handler e w'
    end.

Declare Scope monad_scope.
Delimit Scope monad_scope with monad.
Notation "x <- m ;; k" := (bind m (fun x => k))
  (at level 61, m at next level, right associativity) : monad_scope.
Notation "m ;;; k" := (bind m (fun _ => k))
  (at level 61, right associativity) : monad_scope.
Local Open Scope monad_scope.

(** A statement sent to the database: it takes a tick and is rejected when
    the fault oracle says so, leaving the tables as they are. *)
Definition statement {A} (run : World -> outcome A * World) : M A :=
  fun w =>
    if faults w (ticks w) then (Throw "database error", tick w)
    else run (tick w).

(** A statement that only reads. *)
Definition select {A} (read : Database -> A) : M A :=
  statement (fun w => (Ret (read (db w)), w)).

(** A statement that changes the tables. *)
Definition modify (change : Database -> Database) : M unit :=
  statement (fun w => (Ret tt, set_db (change (db w)) w)).

(** [for (const x of l) { body x }] where the body returns nothing. *)
Fixpoint forEach {A} (l : list A) (body : A -> M unit) : M unit :=
  match l with
  | [] => ret tt
  | x :: rest => body x ;;; forEach rest body
  end.

(** A stable sort by insertion, as [Array.prototype.sort] and as a model of
    [ORDER BY]: [before a b] tells that [a] must come strictly before [b];
    elements that compare equal keep their order. *)
Fixpoint insertBy {A} (before : A -> A -> bool) (x : A) (l : list A) : list A :=
  match l with
  | [] => [x]
  | y :: l' => if before x y then x :: l else y :: insertBy before x l'
  end.
Definition sortBy {A} (before : A -> A -> bool) (l : list A) : list A :=
  fold_left (fun acc x => insertBy before x acc) l [].

Definition Qlt_bool (x y : Q) : bool := negb (Qle_bool y x).

(** ** Numbers that may be NaN *)

Module Number.

(** A [number] of JavaScript, which is also a [float8] of the database:
    [NaN], or a number, kept as an exact rational. *)
Inductive t := NaN | num (q : Q).

(** [x + y] and [x - y]: [NaN] when an operand is. *)
Definition add (x y : t) : t :=
  match x, y with
  | num a, num b => num (a + b)%Q
  | _, _ => NaN
  end.
Definition sub (x y : t) : t :=
  match x, y with
  | num a, num b => num (a - b)%Q
  | _, _ => NaN
  end.

(** [Math.min(x, y)]: [NaN] when an argument is. *)
Definition min (x y : t) : t :=
  match x, y with
  | num a, num b => num (JS.Math_min a b)
  | _, _ => NaN
  end.

(** [x < y] in JavaScript: false when an operand is [NaN].  So is the test
    [c(a, b) < 0] of a sort on the comparator [c(a, b) = y - x], which
    [sort] reads as [+0] when it is [NaN]. *)
Definition lt (x y : t) : bool :=
  match x, y with
  | num a, num b => Qlt_bool a b
  | _, _ => false
  end.

(** [x < y] in the database, which orders [NaN] above every number and
    equal to itself, in comparisons and in [ORDER BY]. *)
Definition sql_lt (x y : t) : bool :=
  match x, y with
  | num a, num b => Qlt_bool a b
  | num _, NaN => true
  | NaN, _ => false
  end.

End Number.

(** ** Outside services *)

(** One hit of the named-entity pipeline. *)
Record NerHit := mkNerHit {
  word : string;
  entity : string;
  score : Q
}.

(** A video as the channel listing describes it (the untyped [video] objects
    of [fetchChannelVideosWithYtdlp]). *)
Record VideoInfo := mkVideoInfo {
  vi_videoId : string;
  vi_title : string;
  vi_duration : Z;
  vi_viewCount : Z;
  vi_likeCount : Z;
  vi_publishedAt : option Timestamp
}.

(** What the subtitle download of [processVideoWithYtdlp] leaves in its local
    variables [title], [description], [duration], [viewCount], [likeCount],
    [uploadDate] and [transcript]; a number is [None] when it is [NaN] or
    [undefined]. *)
Record Fetched := mkFetched {
  f_title : string;
  f_description : string;
  f_duration : option Z;
  f_viewCount : option Z;
  f_likeCount : option Z;
  f_uploadDate : option Timestamp;
  f_transcript : string
}.

(** The collaborators that are not code of this repository.  Each call that
    goes over the network or to a subprocess is a function of the tick at
    which it is made, so two calls with the same arguments may differ.
    - [embeddings k key text]: the embeddings endpoint; [Throw] when the
      response is not ok or the request fails;
    - [cosine_distance]: the operator [<=>] of pgvector, which is [NaN] when
      one of the vectors has norm zero;
    - [sql_lower], [sql_like text pattern]: [LOWER] and [LIKE] of the database;
    - [loadNer k], [nerPipeline k text]: the loading of the named-entity
      pipeline and one call to it;
    - [listVideos k url]: the channel listing, already caught: the empty list
      when the subprocess fails;
    - [download k video]: the subtitle download; [Throw] when the temporary
      directory cannot be made, [Ret None] when the download fails or times
      out (the inner [catch], which returns);
    - [OPENAI_API_KEY]: the variable of the process environment. *)
Record Env := mkEnv {
  embeddings : nat -> string -> string -> outcome Embedding;
  cosine_distance : Embedding -> Embedding -> Number.t;
  sql_lower : string -> string;
  sql_like : string -> string -> bool;
  loadNer : nat -> outcome unit;
  nerPipeline : nat -> string -> outcome (list NerHit);
  listVideos : nat -> string -> list VideoInfo;
  download : nat -> VideoInfo -> outcome (option Fetched);
  OPENAI_API_KEY : option string
}.

(** One call to the named-entity pipeline.  The scores it returns are
    doubles: a rational of the environment stands for the double nearest to
    it. *)
Definition ner (env : Env) (k : nat) (text : string) : outcome (list NerHit) :=
  match nerPipeline env k text with
  | Ret hits =>
      Ret (map (fun h => mkNerHit (word h) (entity h) (JS.double (score h))) hits)
  | Throw e => Throw e
  end.

(** An awaited call to an outside service. *)
Definition external {A} (call : nat -> outcome A) : M A :=
  fun w => (call (ticks w), tick w).

(** ** The hybrid search engine ([semantic-search.ts]) *)

Module Search.

Record SearchOptions := mkOptions {
  channelId : option string;
  limit : option nat;
  similarityThreshold : option Q;
  includeKeywords : option bool
}.

Record ChannelInfo := mkChannelInfo {
  channelName : string;
  channelUrl : string
}.

Record SearchResult := mkResult {
  chunk : Chunk.t;
  video : Video.t;
  channel : ChannelInfo;
  relevanceScore : Number.t;
  matchedKeywords : list string;
  startTime : Z;
  endTime : Z
}.

(** A destructuring default: [{ x = d } = options]. *)
Definition orDefault {A} (d : A) (o : option A) : A :=
  match o with Some x => x | None => d end.

(** [if (channelId)]: a handle that is absent or empty is no handle. *)
Definition givenHandle (o : option string) : option string :=
  match o with
  | Some h => if JS.truthy h then Some h else None
  | None => None
  end.

(** [calculateRelevanceScore].  [queryWords] is never empty: [split] gives
    one piece at least. *)
Definition calculateRelevanceScore (chunk : Chunk.t) (query : string)
    (matchedKeywords : list string) (similarity : Number.t) : Number.t :=
  let score := similarity in
  let score :=
    Number.add score
      (Number.num (inject_Z (Z.of_nat (List.length matchedKeywords)) * (5 # 100))%Q) in
  let score :=
    if JS.includes (JS.toLowerCase (Chunk.content chunk)) (JS.toLowerCase query)
    then Number.add score (Number.num (1 # 10)%Q) else score in
  let queryWords := JS.splitWhitespace (JS.toLowerCase query) in
  let contentWords := JS.splitWhitespace (JS.toLowerCase (Chunk.content chunk)) in
  let matchingWords :=
    filter (fun word => existsb (fun contentWord => JS.includes contentWord word)
                          contentWords) queryWords in
  let score :=
    Number.add score
      (Number.num ((inject_Z (Z.of_nat (List.length matchingWords))
                    / inject_Z (Z.of_nat (List.length queryWords))) * (5 # 100))%Q) in
  Number.min score (Number.num 1%Q).

(** [calculateKeywordRelevanceScore].  [intersection] is a part of
    [queryKeywords]: when [queryKeywords] is empty the quotient is [0 / 0],
    which is [NaN]. *)
Definition calculateKeywordRelevanceScore (matchedKeywords queryKeywords : list string)
    : Number.t :=
  match matchedKeywords with
  | [] => Number.num 0%Q
  | _ =>
      let intersection :=
        filter (fun qk => existsb (fun mk => JS.includes (JS.toLowerCase mk)
                                               (JS.toLowerCase qk)) matchedKeywords)
               queryKeywords in
      match queryKeywords with
      | [] => Number.NaN
      | _ =>
          Number.num (inject_Z (Z.of_nat (List.length intersection))
                      / inject_Z (Z.of_nat (List.length queryKeywords)))%Q
      end
  end.

(** The grouping [Map] of [keywordSearch], in the order the keys were first
    set: [groupPush m chunk keyword] is the [has]/[set]/[get]/[push] of one
    iteration. *)
Fixpoint groupPush (m : list (Id * (Chunk.t * list string))) (c : Chunk.t)
    (keyword : string) : list (Id * (Chunk.t * list string)) :=
  match m with
  | [] => [(Chunk.id c, (c, [keyword]))]
  | (k, (c0, kws)) :: rest =>
      if k =? Chunk.id c then (k, (c0, kws ++ [keyword])) :: rest
      else (k, (c0, kws)) :: groupPush rest c keyword
  end.

Section Service.

Variable env : Env.
(** The field [openaiApiKey] of the service. *)
Variable openaiApiKey : string.

Local Open Scope monad_scope.

(** [generateEmbedding] *)
Definition generateEmbedding (text : string) : M Embedding :=
  external (fun k => embeddings env k openaiApiKey text).

(** [getVideoById] *)
Definition getVideoById (videoId : Id) : M (option Video.t) :=
  select (fun d => hd_error (filter (fun v => Video.id v =? videoId) (youtubeVideo d))).

(** [getChannelById] *)
Definition getChannelById (channelId : Id) : M (option ChannelInfo) :=
  select (fun d =>
    option_map (fun c => mkChannelInfo (Channel.channelName c) (Channel.channelUrl c))
      (hd_error (filter (fun c => Channel.id c =? channelId) (youtubeChannel d)))).

(** [getChannelDbIdByHandle] *)
Definition getChannelDbIdByHandle (channelHandle : string) : M (option Id) :=
  select (fun d =>
    option_map Channel.id
      (hd_error (filter (fun c => String.eqb (Channel.channelId c) channelHandle)
                   (youtubeChannel d)))).

(** [logSearchQuery] *)
Definition logSearchQuery (query : string) (queryEmbedding : Embedding)
    (channelId : option Id) : M unit :=
  tryCatch
    (match channelId with
     | Some cid =>
         statement (fun w =>
           let row := SearchQuery.mk (nextId w) cid query (Some queryEmbedding) 0
                        (Some 0%Z) (now w) in
           (Ret tt,
            bumpId (set_db (set_searchQuery (searchQuery (db w) ++ [row]) (db w)) w)))
     | None => ret tt
     end)
    (fun _ => ret tt).

(** The rows of [TranscriptChunk INNER JOIN YouTubeVideo ON videoId = id]. *)
Definition chunksWithVideo (d : Database) : list (Chunk.t * Video.t) :=
  flat_map (fun c =>
      map (fun v => (c, v))
        (filter (fun v => Video.id v =? Chunk.videoId c) (youtubeVideo d)))
    (transcriptChunk d).

(** [findSimilarChunks].  A row whose embedding is null fails
    [IS NOT NULL]; the others carry their cosine distance to the query.  A
    distance that is [NaN] gives the similarity [NaN], which the database
    holds to be above the threshold, and puts the row last in the order. *)
Definition findSimilarChunks (queryEmbedding : Embedding) (channelDbId : option Id)
    (limit : nat) (threshold : Q) : M (list (Chunk.t * Number.t)) :=
  select (fun d =>
    let withDistance :=
      flat_map (fun cv =>
          match Chunk.embedding (fst cv) with
          | Some e => [(fst cv, snd cv, cosine_distance env e queryEmbedding)]
          | None => []
          end) (chunksWithVideo d) in
    let kept :=
      filter (fun r =>
          match r with
          | (_, v, dist) =>
              (match channelDbId with
               | Some cid => Video.channelId v =? cid
               | None => true
               end)
              && Number.sql_lt (Number.num threshold)
                   (Number.sub (Number.num 1%Q) dist)
          end) withDistance in
    let ordered :=
      sortBy (fun a b => Number.sql_lt (snd a) (snd b)) kept in
    map (fun r => match r with (c, _, dist) => (c, Number.sub (Number.num 1%Q) dist) end)
      (firstn limit ordered)).

(** [extractKeywordsFromQuery] and the stop words are in [Query]. *)

(** One condition [LOWER(keyword) LIKE LOWER('%' || q || '%')]. *)
Definition keywordCondition (k : Keyword.t) (q : string) : bool :=
  sql_like env (sql_lower env (Keyword.keyword k))
    (sql_lower env ("%" ++ q ++ "%")%string).

(** The rows of [VideoKeyword INNER JOIN TranscriptChunk ON chunkId = id
    INNER JOIN YouTubeVideo ON videoId = id].  A null [chunkId] equals no
    identifier. *)
Definition keywordsWithChunk (d : Database) : list (Keyword.t * Chunk.t * Video.t) :=
  flat_map (fun k =>
      flat_map (fun c =>
          map (fun v => (k, c, v))
            (filter (fun v => Video.id v =? Chunk.videoId c) (youtubeVideo d)))
        (filter (fun c =>
             match Keyword.chunkId k with
             | Some i => i =? Chunk.id c
             | None => false
             end) (transcriptChunk d)))
    (videoKeyword d).

(** The [WHERE] clause of [keywordSearch].  The conditions are joined with
    [OR] and the channel test is appended with [AND], without parentheses:
    [AND] binds tighter, so the channel test goes with the last condition. *)
Definition keywordWhere (queryKeywords : list string) (channelDbId : option Id)
    (k : Keyword.t) (v : Video.t) : bool :=
  match channelDbId with
  | None => existsb (keywordCondition k) queryKeywords
  | Some cid =>
      existsb (keywordCondition k) (removelast queryKeywords)
      || (keywordCondition k (last queryKeywords "") && (Video.channelId v =? cid))
  end.

(** The second half of [keywordSearch]: one result per group. *)
Fixpoint keywordResults (queryKeywords : list string)
    (groups : list (Id * (Chunk.t * list string)))
    (searchResults : list SearchResult) : M (list SearchResult) :=
  match groups with
  | [] => ret searchResults
  | (_, (c, keywords)) :: rest =>
      video <- getVideoById (Chunk.videoId c) ;;
      match video with
      | None => keywordResults queryKeywords rest searchResults
      | Some video =>
          channel <- getChannelById (Video.channelId video) ;;
          match channel with
          | None => keywordResults queryKeywords rest searchResults
          | Some channel =>
              keywordResults queryKeywords rest
                (searchResults ++
                 [mkResult c video channel
                    (calculateKeywordRelevanceScore keywords queryKeywords)
                    keywords (Chunk.startTime c) (Chunk.endTime c)])
          end
      end
  end.

(** The comparator [(a, b) => b.relevanceScore - a.relevanceScore]: [a]
    goes before [b] when it is negative.  With a [NaN] score it is [NaN],
    read as [+0]; the comparator is then not consistent and the order is the
    one of the engine, here the one of the stable insertion. *)
Definition byRelevance (a b : SearchResult) : bool :=
  Number.lt (relevanceScore b) (relevanceScore a).

(** [keywordSearch], after the channel handle is resolved. *)
Definition keywordSearchIn (query : string) (limit : nat) (channelDbId : option Id)
    : M (list SearchResult) :=
  let queryKeywords := Query.extractKeywordsFromQuery query in
  match queryKeywords with
  | [] => ret []
  | _ =>
      results <- select (fun d =>
        firstn (limit * 2)
          (sortBy (fun a b => (Keyword.confidence (fst (fst b))
                               <? Keyword.confidence (fst (fst a)))%Z)
             (filter (fun r => keywordWhere queryKeywords channelDbId
                                 (fst (fst r)) (snd r))
                (keywordsWithChunk d)))) ;;
      let chunkMap :=
        fold_left (fun m r =>
            groupPush m (snd (fst r)) (Keyword.keyword (fst (fst r))))
          results [] in
      searchResults <- keywordResults queryKeywords chunkMap [] ;;
      ret (firstn limit (sortBy byRelevance searchResults))
  end.

(** [keywordSearch] *)
Definition keywordSearch (query : string) (options : SearchOptions)
    : M (list SearchResult) :=
  let limit := orDefault 10 (limit options) in
  match givenHandle (channelId options) with
  | Some handle =>
      dbId <- getChannelDbIdByHandle handle ;;
      match dbId with
      | None => ret []
      | Some dbId => keywordSearchIn query limit (Some dbId)
      end
  | None => keywordSearchIn query limit None
  end.

(** [findMatchingKeywords].  The clause is [and(eq(chunkId, id), c1 OR ... OR
    cn)], which is rendered [(chunkId = id and c1 OR ... OR cn)]: the chunk
    test goes with the first condition only. *)
Definition findMatchingKeywords (chunkId : Id) (query : string) : M (list string) :=
  let queryKeywords := Query.extractKeywordsFromQuery query in
  match queryKeywords with
  | [] => ret []
  | first :: others =>
      select (fun d =>
        map Keyword.keyword
          (filter (fun k =>
               ((match Keyword.chunkId k with
                 | Some i => i =? chunkId
                 | None => false
                 end) && keywordCondition k first)
               || existsb (keywordCondition k) others)
             (videoKeyword d)))
  end.

(** The body of the loop of [search] over the similar chunks: [Some] result
    to push, or [None] when the iteration is left by [continue]. *)
Definition assemble (query : string) (includeKeywords : bool)
    (chunk : Chunk.t) (similarity : Number.t) : M (option SearchResult) :=
  tryCatch
    (video <- getVideoById (Chunk.videoId chunk) ;;
     match video with
     | None => ret None
     | Some video =>
         channel <- getChannelById (Video.channelId video) ;;
         match channel with
         | None => ret None
         | Some channel =>
             matchedKeywords <-
               (if includeKeywords then findMatchingKeywords (Chunk.id chunk) query
                else ret []) ;;
             ret (Some (mkResult chunk video channel
                          (calculateRelevanceScore chunk query matchedKeywords similarity)
                          matchedKeywords (Chunk.startTime chunk) (Chunk.endTime chunk)))
         end
     end)
    (fun _ => ret None).

Fixpoint assembleAll (query : string) (includeKeywords : bool)
    (chunkSimilarities : list (Chunk.t * Number.t)) (results : list SearchResult)
    : M (list SearchResult) :=
  match chunkSimilarities with
  | [] => ret results
  | (chunk, similarity) :: rest =>
      r <- assemble query includeKeywords chunk similarity ;;
      assembleAll query includeKeywords rest
        (match r with Some x => results ++ [x] | None => results end)
  end.

(** [search], from the logging of the query on: the channel handle is
    resolved to [channelDbId]. *)
Definition searchFrom (query : string) (options : SearchOptions)
    (queryEmbedding : Embedding) (channelDbId : option Id) : M (list SearchResult) :=
  let limit := orDefault 10 (limit options) in
  let similarityThreshold := orDefault (1 # 2)%Q (similarityThreshold options) in
  let includeKeywords := orDefault true (includeKeywords options) in
  logSearchQuery query queryEmbedding channelDbId ;;;
  chunkSimilarities <-
    tryCatch (findSimilarChunks queryEmbedding channelDbId (limit * 2) similarityThreshold)
             (fun _ => ret []) ;;
  match chunkSimilarities with
  | [] => tryCatch (keywordSearch query options) (fun _ => ret [])
  | _ =>
      results <- assembleAll query includeKeywords chunkSimilarities [] ;;
      ret (firstn limit (sortBy byRelevance results))
  end.

(** [search] *)
Definition search (query : string) (options : SearchOptions) : M (list SearchResult) :=
  queryEmbedding <- generateEmbedding query ;;
  match givenHandle (channelId options) with
  | Some handle =>
      dbId <- getChannelDbIdByHandle handle ;;
      match dbId with
      | None => ret []
      | Some dbId => searchFrom query options queryEmbedding (Some dbId)
      end
  | None => searchFrom query options queryEmbedding None
  end.

End Service.

End Search.

(** ** The keyword extractor adapter ([extract-keywords.ts]) *)

Module Extract.

Record KeywordExtractionResult := mkExtraction {
  keywords : list NerHit;
  groupedKeywords : list (string * list NerHit);
  totalCount : nat
}.

(** The windows [transcript.slice(i, i + chunkSize)] for [i = 0, chunkSize,
    ...] below the length: there are [ceil(length / chunkSize)] of them. *)
Definition windows (chunkSize : nat) (transcript : string) : list string :=
  map (fun k => String.substring (k * chunkSize) chunkSize transcript)
    (seq 0 ((String.length transcript + (chunkSize - 1)) / chunkSize)).

(** [keywordMap]: a [Map] in the order its keys were first set.
    [mapSet m key v] is [m.set(key, v)] and [mapGet m key] is [m.get(key)]. *)
Fixpoint mapGet {V} (m : list (string * V)) (key : string) : option V :=
  match m with
  | [] => None
  | (k, v) :: rest => if String.eqb k key then Some v else mapGet rest key
  end.
Fixpoint mapSet {V} (m : list (string * V)) (key : string) (v : V) : list (string * V) :=
  match m with
  | [] => [(key, v)]
  | (k, v0) :: rest =>
      if String.eqb k key then (k, v) :: rest else (k, v0) :: mapSet rest key v
  end.

(** The filter on the score, the deduplication and the sort of
    [extractKeywordsFromTranscript]. *)
Definition rawKeywords (allResults : list NerHit) : list NerHit :=
  map (fun item => mkNerHit (word item) (entity item) (score item))
    (filter (fun item => Qlt_bool (1 # 2) (score item)) allResults).

Definition dedupe (raw : list NerHit) : list (string * NerHit) :=
  fold_left (fun keywordMap keyword =>
      let key := (JS.toLowerCase (word keyword) ++ "_" ++ entity keyword)%string in
      match mapGet keywordMap key with
      | None => mapSet keywordMap key keyword
      | Some old =>
          if Qlt_bool (score old) (score keyword) then mapSet keywordMap key keyword
          else keywordMap
      end) raw [].

(** [entity.replace(/^[BI]-/, "")] *)
Definition stripPrefix (entity : string) : string :=
  match entity with
  | String c (String "-"%char rest) =>
      if Ascii.eqb c "B"%char || Ascii.eqb c "I"%char then rest else entity
  | _ => entity
  end.

Definition group (keywords : list NerHit) : list (string * list NerHit) :=
  fold_left (fun acc keyword =>
      let entityType := stripPrefix (entity keyword) in
      match mapGet acc entityType with
      | None => mapSet acc entityType [keyword]
      | Some l => mapSet acc entityType (l ++ [keyword])
      end) keywords [].

Definition sortedKeywords (allResults : list NerHit) : list NerHit :=
  sortBy (fun a b => Qlt_bool (score b) (score a))
    (map snd (dedupe (rawKeywords allResults))).

Section Adapter.

Variable env : Env.
Local Open Scope monad_scope.

(** The loop calling the pipeline on every window that is not empty. *)
Fixpoint runNer (chunks : list string) (allResults : list NerHit) : M (list NerHit) :=
  match chunks with
  | [] => ret allResults
  | chunkText :: rest =>
      if JS.truthy chunkText then
        chunkResults <- external (fun k => ner env k chunkText) ;;
        runNer rest (allResults ++ chunkResults)
      else runNer rest allResults
  end.

(** [extractKeywordsFromTranscript] *)
Definition extractKeywordsFromTranscript (transcript : string)
    : M KeywordExtractionResult :=
  (fun w =>
     if cachedNer w then (Ret tt, w)
     else match external (loadNer env) w with
          | (Ret _, w') => (Ret tt, set_cachedNer true w')
          | (Throw e, w') => (Throw e, w')
          end) ;;;
  allResults <- runNer (windows 1000 transcript) [] ;;
  let keywords := sortedKeywords allResults in
  ret (mkExtraction keywords (group keywords) (List.length keywords)).

End Adapter.

End Extract.

(** ** The indexer ([YouTubeChannelIndexer]) *)

Module Indexer.

Definition CHUNK_SIZE : Z := 400.
Definition CHUNK_OVERLAP : Z := 50.
Definition MAX_KEYWORDS_PER_CHUNK : nat := 20.

(** The class [[.!?]] of [SENTENCE_SPLIT_REGEX]. *)
Definition isSentenceEnd (c : ascii) : bool :=
  Ascii.eqb c "."%char || Ascii.eqb c "!"%char || Ascii.eqb c "?"%char.

(** [splitIntoSentences] *)
Definition splitIntoSentences (text : string) : list string :=
  filter (fun s => 0 <? String.length s)
    (map JS.trim (JS.splitRuns isSentenceEnd text "")).

(** [estimateTokenCount]: [Math.ceil(text.length / 4)]. *)
Definition estimateTokenCount (text : string) : Z :=
  Qceiling (inject_Z (Z.of_nat (String.length text)) / 4)%Q.

(** [getOverlapText] *)
Definition getOverlapText (text : string) (overlapTokens : Z) : string :=
  let words := JS.splitSpace text in
  let overlapWords := Z.to_nat (overlapTokens / 4) in
  JS.join " " (JS.sliceLast overlapWords words).

(** The class [[a-zA-Z0-9_-]] of [CHANNEL_URL_PATTERNS]. *)
Definition isIdChar (c : ascii) : bool :=
  let n := nat_of_ascii c in
  ((97 <=? n) && (n <=? 122)) || ((65 <=? n) && (n <=? 90))
  || ((48 <=? n) && (n <=? 57)) || (n =? 95) || (n =? 45).

Fixpoint takeWhile (p : ascii -> bool) (s : string) : string :=
  match s with
  | EmptyString => EmptyString
  | String c s' => if p c then String c (takeWhile p s') else EmptyString
  end.

Fixpoint dropPrefix (n : nat) (s : string) : string :=
  match n, s with
  | S n', String _ s' => dropPrefix n' s'
  | _, _ => s
  end.

(** [url.match(/literal([a-zA-Z0-9_-]+)/)]: the capture of the leftmost
    match, which is the longest run of the class after the first occurrence
    of the literal that is followed by a character of the class. *)
Fixpoint matchPattern (literal : string) (url : string) : option string :=
  let here :=
    if String.prefix literal url
    then takeWhile isIdChar (dropPrefix (String.length literal) url)
    else EmptyString in
  if JS.truthy here then Some here
  else match url with
       | EmptyString => None
       | String _ url' => matchPattern literal url'
       end.

Definition CHANNEL_URL_PATTERNS : list string :=
  [ "youtube.com/@"; "youtube.com/c/"; "youtube.com/channel/"; "youtube.com/user/" ].

(** [extractChannelIdFromUrl]; [None] is the throw of
    [Invalid YouTube channel URL]. *)
Definition extractChannelIdFromUrl (url : string) : option string :=
  fold_right (fun pattern later =>
      match matchPattern pattern url with
      | Some m => Some m
      | None => later
      end) None CHANNEL_URL_PATTERNS.

Record IndexStatusUpdate := mkUpdate {
  u_status : Status;
  u_progress : Z;
  u_totalVideos : Z;
  u_processedVideos : Z;
  u_errorMessage : option string
}.

(** [buildUpdateData], applied to a row: the fields of [updateData] are the
    ones set. *)
Definition buildUpdateData (update : IndexStatusUpdate) (now : Timestamp)
    (row : IndexStatus.t) : IndexStatus.t :=
  IndexStatus.mk (IndexStatus.id row) (IndexStatus.channelId row)
    (u_status update) (u_progress update) (u_totalVideos update)
    (u_processedVideos update)
    (match u_errorMessage update with
     | Some m => if JS.truthy m then Some m else IndexStatus.errorMessage row
     | None => IndexStatus.errorMessage row
     end)
    (IndexStatus.startedAt row)
    (if Status_eqb (u_status update) completed then Some now
     else IndexStatus.completedAt row)
    (IndexStatus.createdAt row).

(** The state of the loop of [createTranscriptChunks]. *)
Record Segmenter := mkSegmenter {
  chunks : list Chunk.t;
  currentChunk : string;
  currentTokens : Z;
  chunkIndex : Z;
  startTime : Z
}.

(** The progress reported after a batch:
    [Math.round(20 + (processedCount / videos.length) * 30)]. *)
Definition batchProgress (processedCount total : nat) : Z :=
  JS.Math_round (20 + (inject_Z (Z.of_nat processedCount)
                        / inject_Z (Z.of_nat total)) * 30)%Q.

(** [Promise.all] over calls that are run one after the other: every call
    runs to its end, and the first rejection, if any, is the rejection of
    the whole. *)
Fixpoint promiseAll (calls : list (M unit)) : M unit :=
  match calls with
  | [] => ret tt
  | call :: rest =>
      fun w =>
        match call w with
        | (Ret _, w') => promiseAll rest w'
        | (Throw e, w') => (Throw e, snd (promiseAll rest w'))
        end
  end.

Section Service.

Variable env : Env.
Local Open Scope monad_scope.

(** The [insert ... returning] of one [TranscriptChunk] row. *)
Definition insertChunk (videoDbId : Id) (chunkIndex : Z) (content : string)
    (startTime endTime tokenCount : Z) : M Chunk.t :=
  statement (fun w =>
    let row := Chunk.mk (nextId w) videoDbId chunkIndex content startTime endTime
                 tokenCount None (now w) in
    (Ret row,
     bumpId (set_db (set_transcriptChunk (transcriptChunk (db w) ++ [row]) (db w)) w))).

(** The end of a chunk: [startTime + Math.floor((currentTokens / 4) * 60)]. *)
Definition endOf (startTime currentTokens : Z) : Z :=
  (startTime + Qfloor ((inject_Z currentTokens / 4) * 60)%Q)%Z.

(** The loop of [createTranscriptChunks] over the sentences. *)
Fixpoint segmentLoop (videoDbId : Id) (sentences : list string) (st : Segmenter)
    : M Segmenter :=
  match sentences with
  | [] => ret st
  | sentence :: rest =>
      let sentenceTokens := estimateTokenCount sentence in
      if (CHUNK_SIZE <? currentTokens st + sentenceTokens)%Z
         && JS.truthy (currentChunk st)
      then
        chunk <- insertChunk videoDbId (chunkIndex st) (JS.trim (currentChunk st))
                   (startTime st) (endOf (startTime st) (currentTokens st))
                   (currentTokens st) ;;
        let overlapText := getOverlapText (currentChunk st) CHUNK_OVERLAP in
        let currentChunk' := (overlapText ++ " " ++ sentence)%string in
        segmentLoop videoDbId rest
          (mkSegmenter (chunks st ++ [chunk]) currentChunk'
             (estimateTokenCount currentChunk') (chunkIndex st + 1)%Z
             (Chunk.endTime chunk))
      else
        segmentLoop videoDbId rest
          (mkSegmenter (chunks st)
             (currentChunk st ++ (if JS.truthy (currentChunk st) then " " else "")
              ++ sentence)%string
             (currentTokens st + sentenceTokens)%Z (chunkIndex st) (startTime st))
  end.

(** [createTranscriptChunks] *)
Definition createTranscriptChunks (videoDbId : Id) (transcript : string)
    : M (list Chunk.t) :=
  let sentences := splitIntoSentences transcript in
  st <- segmentLoop videoDbId sentences (mkSegmenter [] "" 0 0 0) ;;
  if JS.truthy (currentChunk st) then
    chunk <- insertChunk videoDbId (chunkIndex st) (JS.trim (currentChunk st))
               (startTime st) (endOf (startTime st) (currentTokens st))
               (currentTokens st) ;;
    ret (chunks st ++ [chunk])
  else ret (chunks st).

(** [generateEmbedding] of the indexer. *)
Definition generateEmbedding (text : string) : M Embedding :=
  match OPENAI_API_KEY env with
  | Some key =>
      if JS.truthy key then external (fun k => embeddings env k key text)
      else throw "OpenAI API key not found"
  | None => throw "OpenAI API key not found"
  end.

(** The rows that [processChunk] builds from the extracted keywords. *)
Definition keywordRows (chunk : Chunk.t) (keywords : list NerHit)
    : list (Id -> Timestamp -> Keyword.t) :=
  map (fun k => fun id created =>
      Keyword.mk id (Chunk.videoId chunk) (Some (Chunk.id chunk)) (word k)
        (Some (entity k)) (JS.Math_round (JS.times (score k) 100)) 1
        (JS.Math_round (JS.times (score k) 100)) created)
    (firstn MAX_KEYWORDS_PER_CHUNK keywords).

(** The rows of one [insert ... values(rows)], with the identifiers drawn in
    order from [id]. *)
Fixpoint drawIds {A} (rows : list (Id -> Timestamp -> A)) (id : Id)
    (created : Timestamp) : list A :=
  match rows with
  | [] => []
  | r :: rest => r id created :: drawIds rest (S id) created
  end.

Definition insertKeywords (rows : list (Id -> Timestamp -> Keyword.t)) : M unit :=
  statement (fun w =>
    let added := drawIds rows (nextId w) (now w) in
    (Ret tt,
     mkWorld (set_videoKeyword (videoKeyword (db w) ++ added) (db w))
       (nextId w + List.length rows) (ticks w) (faults w) (now w) (channelDbId w)
       (cachedNer w) (progressLog w))).

(** [processChunk] *)
Definition processChunk (chunk : Chunk.t) : M unit :=
  keywordResult <- Extract.extractKeywordsFromTranscript env (Chunk.content chunk) ;;
  let keywords := keywordRows chunk (Extract.keywords keywordResult) in
  (match keywords with
   | [] => ret tt
   | _ => insertKeywords keywords
   end) ;;;
  tryCatch
    (embedding <- generateEmbedding (Chunk.content chunk) ;;
     modify (fun d =>
       set_transcriptChunk
         (map (fun c => if Chunk.id c =? Chunk.id chunk
                        then Chunk.set_embedding (Some embedding) c else c)
            (transcriptChunk d)) d))
    (fun _ => ret tt).

(** The loop of [processVideoWithYtdlp] over the batches
    [chunks.slice(i, i + 10)]; [fuel] bounds the number of iterations, and
    the number of chunks is enough of it ([chunkBatches_fuel]). *)
Fixpoint chunkBatches (fuel i : nat) (chunks : list Chunk.t) : M unit :=
  match fuel with
  | O => ret tt
  | S fuel' =>
      if i <? List.length chunks then
        promiseAll (map processChunk (JS.slice i (i + 10) chunks)) ;;;
        chunkBatches fuel' (i + 10) chunks
      else ret tt
  end.

(** The [insert ... onConflictDoUpdate ... returning] of
    [processVideoWithYtdlp]: the conflict target is the unique [videoId]. *)
Definition upsertVideo (channelDbId : Id) (video : VideoInfo) (f : Fetched)
    : M (option Video.t) :=
  statement (fun w =>
    let title := if JS.truthy (f_title f) then f_title f else vi_title video in
    let description := f_description f in
    let publishedAt := Search.orDefault (now w) (f_uploadDate f) in
    let duration := Search.orDefault 0%Z (f_duration f) in
    let viewCount := Search.orDefault 0%Z (f_viewCount f) in
    let likeCount := Search.orDefault 0%Z (f_likeCount f) in
    let thumbnailUrl :=
      ("https://img.youtube.com/vi/" ++ vi_videoId video ++ "/hqdefault.jpg")%string in
    let videoUrl := ("https://www.youtube.com/watch?v=" ++ vi_videoId video)%string in
    let transcript := f_transcript f in
    let transcriptLength := Z.of_nat (String.length transcript) in
    let conflicts v := String.eqb (Video.videoId v) (vi_videoId video) in
    if existsb conflicts (youtubeVideo (db w)) then
      let updated :=
        map (fun v =>
            if conflicts v then
              Video.mk (Video.id v) (Video.videoId v) (Video.channelId v) title
                description publishedAt duration viewCount likeCount thumbnailUrl
                videoUrl (Some transcript) (Some transcriptLength) true
                (Video.createdAt v) (now w)
            else v) (youtubeVideo (db w)) in
      (Ret (hd_error (filter conflicts updated)),
       set_db (set_youtubeVideo updated (db w)) w)
    else
      let row :=
        Video.mk (nextId w) (vi_videoId video) channelDbId title description
          publishedAt duration viewCount likeCount thumbnailUrl videoUrl
          (Some transcript) (Some transcriptLength) true (now w) (now w) in
      (Ret (Some row),
       bumpId (set_db (set_youtubeVideo (youtubeVideo (db w) ++ [row]) (db w)) w))).

(** [processVideoWithYtdlp].  The subtitle download is the outside call
    [download]; the outer [catch] rethrows. *)
Definition processVideoWithYtdlp (channelDbId : Id) (video : VideoInfo) : M unit :=
  fetched <- external (fun k => download env k video) ;;
  match fetched with
  | None => ret tt
  | Some f =>
      if negb (JS.truthy (f_transcript f)) then ret tt
      else
        videoRecord <- upsertVideo channelDbId video f ;;
        match videoRecord with
        | None => throw "Cannot read properties of undefined (reading 'id')"
        | Some videoRecord =>
            chunks <- createTranscriptChunks (Video.id videoRecord) (f_transcript f) ;;
            chunkBatches (List.length chunks) 0 chunks
        end
  end.

(** [createChannelRecord]; the result is [None] when [returning] gave no row. *)
Definition createChannelRecord (channelUrl channelName : string)
    : M (option Channel.t) :=
  match extractChannelIdFromUrl channelUrl with
  | None => throw "Invalid YouTube channel URL"
  | Some channelId =>
      let same c := String.eqb (Channel.channelId c) channelId in
      existingChannel <- select (fun d => firstn 1 (filter same (youtubeChannel d))) ;;
      if 0 <? List.length existingChannel then
        statement (fun w =>
          let updated :=
            map (fun c =>
                if same c then
                  Channel.mk (Channel.id c) (Channel.channelId c) channelName
                    channelUrl (Channel.createdAt c) (now w) (Channel.isIndexed c)
                    (Channel.lastIndexedAt c)
                else c) (youtubeChannel (db w)) in
          (Ret (hd_error (filter same updated)),
           set_db (set_youtubeChannel updated (db w)) w))
      else
        statement (fun w =>
          let row := Channel.mk (nextId w) channelId channelName channelUrl
                       (now w) (now w) false None in
          (Ret (Some row),
           bumpId (set_db (set_youtubeChannel (youtubeChannel (db w) ++ [row])
                             (db w)) w)))
  end.

(** [createIndexStatusRecord] *)
Definition createIndexStatusRecord (channelDbId : Id) : M unit :=
  statement (fun w =>
    let row := IndexStatus.mk (nextId w) channelDbId pending 0 0 0 None (now w)
                 None (now w) in
    (Ret tt,
     logProgress 0
       (bumpId (set_db (set_channelIndexStatus (channelIndexStatus (db w) ++ [row])
                          (db w)) w)))).

(** [updateIndexStatus] *)
Definition updateIndexStatus (update : IndexStatusUpdate) : M unit :=
  fun w =>
    match channelDbId w with
    | None => (Throw "Channel database ID not set. Call indexChannel first.", w)
    | Some cid =>
        statement (fun w =>
          (Ret tt,
           logProgress (u_progress update)
             (set_db (set_channelIndexStatus
                        (map (fun row =>
                            if IndexStatus.channelId row =? cid
                            then buildUpdateData update (now w) row else row)
                           (channelIndexStatus (db w))) (db w)) w))) w
    end.

(** [markChannelAsIndexed] *)
Definition markChannelAsIndexed (channelDbId : Id) : M unit :=
  statement (fun w =>
    (Ret tt,
     set_db (set_youtubeChannel
               (map (fun c =>
                   if Channel.id c =? channelDbId then
                     Channel.mk (Channel.id c) (Channel.channelId c)
                       (Channel.channelName c) (Channel.channelUrl c)
                       (Channel.createdAt c) (now w) true (Some (now w))
                   else c) (youtubeChannel (db w))) (db w)) w)).

(** One promise of [batchPromises]: the video is processed and a rejection
    is caught; the result is the [success] flag.  The field [channelDbId] is
    set by [indexChannel] before the loop; were it null, the insert of the
    video would violate the [NOT NULL] constraint of its column. *)
Definition batchPromise (video : VideoInfo) : M bool :=
  tryCatch
    (fun w =>
       match channelDbId w with
       | Some cid => (processVideoWithYtdlp cid video ;;; ret true) w
       | None => (Throw "null value in column channelId", w)
       end)
    (fun _ => ret false).

Fixpoint runBatch (batch : list VideoInfo) : M (list bool) :=
  match batch with
  | [] => ret []
  | video :: rest =>
      r <- batchPromise video ;;
      rs <- runBatch rest ;;
      ret (r :: rs)
  end.

(** The loop of [indexChannel] over the batches [videos.slice(i, i + 3)];
    [fuel] bounds the number of iterations, and the number of videos is
    enough of it ([batchLoop_fuel]). *)
Fixpoint batchLoop (fuel i processedCount : nat) (videos : list VideoInfo) : M unit :=
  match fuel with
  | O => ret tt
  | S fuel' =>
      if i <? List.length videos then
        let batch := JS.slice i (i + 3) videos in
        batchResults <- runBatch batch ;;
        let processedCount := processedCount + List.length batch in
        let progress := batchProgress processedCount (List.length videos) in
        updateIndexStatus
          (mkUpdate indexing_videos progress (Z.of_nat (List.length videos))
             (Z.of_nat processedCount) None) ;;;
        batchLoop fuel' (i + 3) processedCount videos
      else ret tt
  end.

(** [indexChannel].  [maxVideos] is [None] when the argument is left out;
    zero is falsy and keeps all the videos. *)
Definition indexChannel (channelUrl channelName : string) (maxVideos : option nat)
    : M unit :=
  tryCatch
    (channel <- createChannelRecord channelUrl channelName ;;
     match channel with
     | None => throw "Cannot read properties of undefined (reading 'id')"
     | Some channel =>
         (fun w => (Ret tt, set_channelDbId (Some (Channel.id channel)) w)) ;;;
         createIndexStatusRecord (Channel.id channel) ;;;
         allVideos <- external (fun k => Ret (listVideos env k channelUrl)) ;;
         let videos :=
           match maxVideos with
           | Some (S m) => JS.slice 0 (S m) allVideos
           | _ => allVideos
           end in
         let total := Z.of_nat (List.length videos) in
         updateIndexStatus (mkUpdate indexing_videos 10 total 0 None) ;;;
         batchLoop (List.length videos) 0 0 videos ;;;
         markChannelAsIndexed (Channel.id channel) ;;;
         updateIndexStatus (mkUpdate completed 100 total total None)
     end)
    (fun errorMessage =>
       updateIndexStatus (mkUpdate failed 0 0 0 (Some errorMessage)) ;;;
       throw errorMessage).

End Service.

End Indexer.

(** ** A sample environment *)

Module Sample.

(** [LIKE] with its wild cards [%] and [_] and the escape character. *)
Fixpoint like (text pattern : string) {struct pattern} : bool :=
  match pattern with
  | EmptyString => negb (JS.truthy text)
  | String "%"%char pattern' =>
      (fix star (text : string) : bool :=
         like text pattern'
         || match text with
            | EmptyString => false
            | String _ text' => star text'
            end) text
  | String "_"%char pattern' =>
      match text with
      | String _ text' => like text' pattern'
      | EmptyString => false
      end
  | String "\"%char (String c pattern'') =>
      match text with
      | String c' text' => Ascii.eqb c c' && like text' pattern''
      | EmptyString => false
      end
  | String c pattern' =>
      match text with
      | String c' text' => Ascii.eqb c c' && like text' pattern'
      | EmptyString => false
      end
  end.

(** The cosine distance of two vectors of norm 1: one minus their dot
    product. *)
Definition distanceUnit (a b : Embedding) : Q :=
  (1 - fold_right (fun p acc => fst p * snd p + acc) 0 (combine a b))%Q.

(** The operator [<=>] on vectors of norm 1 or 0: with a vector of norm 0
    the quotient of the dot product by the norms is [0 / 0]. *)
Definition isZero (a : Embedding) : bool := forallb (fun x => Qeq_bool x 0) a.
Definition distance (a b : Embedding) : Number.t :=
  if isZero a || isZero b then Number.NaN else Number.num (distanceUnit a b).

(** An environment whose services answer; [embed] is the embeddings
    endpoint. *)
Definition envWith (embed : string -> outcome Embedding) : Env :=
  mkEnv (fun _ _ text => embed text) distance JS.toLowerCase like
    (fun _ => Ret tt) (fun _ _ => Ret [])
    (fun _ _ => []) (fun _ _ => Ret None) (Some "sk-test").

Definition env : Env := envWith (fun _ => Ret [1%Q; 0%Q]).

(** The embeddings endpoint is down. *)
Definition envOutage : Env := envWith (fun _ => Throw "OpenAI API error: Bad Gateway").

(** The named-entity pipeline finds a person, twice, and a weak hit. *)
Definition hits : list NerHit :=
  [ mkNerHit "Barack" "B-PER" (998 # 1000); mkNerHit "Obama" "I-PER" (505 # 1000);
    mkNerHit "barack" "B-PER" (7 # 10); mkNerHit "was" "B-MISC" (3 # 10) ].
Definition envNer : Env :=
  mkEnv (fun _ _ _ => Ret [1%Q; 0%Q]) distance JS.toLowerCase like
    (fun _ => Ret tt) (fun _ _ => Ret hits)
    (fun _ _ => []) (fun _ _ => Ret None) (Some "sk-test").

(** A channel of four videos; the subtitles of the first are found. *)
Definition videoInfo (videoId title : string) : VideoInfo :=
  mkVideoInfo videoId title 600%Z 10%Z 1%Z None.
Definition videos : list VideoInfo :=
  [ videoInfo "abc123" "Presidents"; videoInfo "def456" "Cats";
    videoInfo "ghi789" "Dogs"; videoInfo "jkl012" "Birds" ].
Definition fetched : Fetched :=
  mkFetched "Presidents" "" (Some 600%Z) (Some 12%Z) (Some 2%Z) None
    "Barack Obama was elected. He served two terms!".
Definition envVideos : Env :=
  mkEnv (fun _ _ _ => Ret [1%Q; 0%Q]) distance JS.toLowerCase like
    (fun _ => Ret tt) (fun _ _ => Ret hits)
    (fun _ _ => videos)
    (fun _ video =>
       Ret (if String.eqb (vi_videoId video) "abc123" then Some fetched else None))
    (Some "sk-test").

(** [n] times the string [s]. *)
Fixpoint times (n : nat) (s : string) : string :=
  match n with
  | O => EmptyString
  | S n' => (s ++ times n' s)%string
  end.

Definition noFaults : nat -> bool := fun _ => false.

Definition world0 : World := initialWorld noFaults 1000%Z.

(** One channel with one video of one chunk, whose embedding is opposite to
    the one the sample endpoint gives to every query; a keyword of the chunk
    and a keyword of the whole video. *)
Definition channel0 : Channel.t :=
  Channel.mk 0 "veritasium" "Veritasium" "https://www.youtube.com/@veritasium"
    0%Z 0%Z true (Some 0%Z).
Definition video1 : Video.t :=
  Video.mk 1 "abc123" 0 "Presidents" "" 0%Z 600%Z 10%Z 1%Z ""
    "https://www.youtube.com/watch?v=abc123" (Some "Barack Obama was elected")
    (Some 24%Z) true 0%Z 0%Z.
Definition chunk2 : Chunk.t :=
  Chunk.mk 2 1 0%Z "Barack Obama was elected" 0%Z 90%Z 6%Z
    (Some [(-1)%Q; 0%Q]) 0%Z.
Definition keyword3 : Keyword.t :=
  Keyword.mk 3 1 (Some 2) "Barack Obama" (Some "B-PER") 95%Z 1%Z 95%Z 0%Z.
Definition keyword4 : Keyword.t :=
  Keyword.mk 4 1 None "Obama" (Some "B-PER") 99%Z 1%Z 99%Z 0%Z.
Definition database : Database :=
  mkDatabase [channel0] [video1] [chunk2] [keyword3; keyword4] [] [].
Definition world : World := mkWorld database 5 0 noFaults 1000%Z None false [].

(** The same world with the embedding of the chunk equal to the one of
    every query, and with an embedding of norm zero. *)
Definition chunkNear : Chunk.t :=
  Chunk.mk 2 1 0%Z "Barack Obama was elected" 0%Z 90%Z 6%Z
    (Some [1%Q; 0%Q]) 0%Z.
Definition chunkZero : Chunk.t :=
  Chunk.mk 2 1 0%Z "Barack Obama was elected" 0%Z 90%Z 6%Z
    (Some [0%Q; 0%Q]) 0%Z.
Definition worldNear : World :=
  mkWorld (mkDatabase [channel0] [video1] [chunkNear] [keyword3; keyword4] [] [])
    5 0 noFaults 1000%Z None false [].
Definition worldZero : World :=
  mkWorld (mkDatabase [channel0] [video1] [chunkZero] [keyword3; keyword4] [] [])
    5 0 noFaults 1000%Z None false [].

(** The options left out, and a threshold below every similarity. *)
Definition noOptions : Search.SearchOptions := Search.mkOptions None None None None.
Definition lowThreshold : Search.SearchOptions :=
  Search.mkOptions None None (Some (-2)%Q) None.
Definition inChannel : Search.SearchOptions :=
  Search.mkOptions (Some "veritasium") None None None.

End Sample.

(** ** Predicates of the specification *)

(** Some statement of the run is rejected by the database. *)
Definition Faulty (w : World) : Prop := exists k, faults w k = true.

(** The chunks [cs] cover the time from [start] to [finish] without a gap:
    each starts where the one before ends and does not end before it starts. *)
Fixpoint Chain (start : Z) (cs : list Chunk.t) (finish : Z) : Prop :=
  match cs with
  | [] => start = finish
  | c :: rest =>
      Chunk.startTime c = start /\ (start <= Chunk.endTime c)%Z
      /\ Chain (Chunk.endTime c) rest finish
  end.

(** The invariant of the loop of [createTranscriptChunks]. *)
Definition SegmenterOk (st : Indexer.Segmenter) : Prop :=
  Chain 0 (Indexer.chunks st) (Indexer.startTime st)
  /\ (0 <= Indexer.currentTokens st)%Z.

(** The sum of the token estimates of the sentences. *)
Definition sumTokens (sentences : list string) : Z :=
  fold_right (fun s acc => (Indexer.estimateTokenCount s + acc)%Z) 0%Z sentences.

(** Whenever [m] returns, its result satisfies [post]. *)
Definition Returns {A} (m : M A) (post : A -> Prop) : Prop :=
  forall w, match m w with
            | (Ret a, _) => post a
            | (Throw _, _) => True
            end.

(** A relevance score in the unit interval: a number, between 0 and 1. *)
Definition Bounded (x : Number.t) : Prop :=
  match x with
  | Number.num s => (0 <= s)%Q /\ (s <= 1)%Q
  | Number.NaN => False
  end.

(** Every result carries a score in the unit interval. *)
Definition ScoresBounded (results : list Search.SearchResult) : Prop :=
  Forall (fun r => Bounded (Search.relevanceScore r)) results.

(** The similarity is a number above the threshold. *)
Definition AboveThreshold (threshold : Q) (cs : Chunk.t * Number.t) : Prop :=
  match snd cs with
  | Number.num s => (threshold < s)%Q
  | Number.NaN => False
  end.

(** The distances of the stored embeddings to [queryEmbedding] are
    numbers. *)
Definition DistancesDefined (env : Env) (queryEmbedding : Embedding) (w : World) : Prop :=
  forall c e,
    In c (transcriptChunk (db w)) -> Chunk.embedding c = Some e ->
    cosine_distance env e queryEmbedding <> Number.NaN.

(** Two worlds that a computation cannot tell apart when it reads the
    database only through what [R] relates: they are at the same tick and
    the database rejects the same statements from that tick on. *)
Definition WorldSim (R : Database -> Database -> Prop) (w w' : World) : Prop :=
  ticks w = ticks w'
  /\ (forall k, ticks w <= k -> faults w k = faults w' k)
  /\ R (db w) (db w').

(** [m] gives the same outcome in two such worlds and keeps them so. *)
Definition Sim (R : Database -> Database -> Prop) {A} (m : M A) : Prop :=
  forall w w', WorldSim R w w' ->
    fst (m w) = fst (m w') /\ WorldSim R (snd (m w)) (snd (m w')).

(** The tables that the search reads are the same. *)
Definition SameButLog (d d' : Database) : Prop :=
  youtubeChannel d = youtubeChannel d' /\ youtubeVideo d = youtubeVideo d'
  /\ transcriptChunk d = transcriptChunk d' /\ videoKeyword d = videoKeyword d'.

(** The keyword rows that belong to a chunk. *)
Definition chunkLevel (k : Keyword.t) : bool :=
  match Keyword.chunkId k with Some _ => true | None => false end.

(** The database without its video-level keywords. *)
Definition withoutVideoLevel (d : Database) : Database :=
  set_videoKeyword (filter chunkLevel (videoKeyword d)) d.

(** The scores that the named-entity pipeline of [env] returns are
    probabilities: at most 1. *)
Definition NerScoresAtMostOne (env : Env) : Prop :=
  forall k text hits,
    nerPipeline env k text = Ret hits -> Forall (fun h => (score h <= 1)%Q) hits.

(** [h] is a hit that the pipeline of [env] returned on a window of
    [transcript], as the program reads it, its score being a double. *)
Definition PipelineHit (env : Env) (transcript : string) (h : NerHit) : Prop :=
  exists k text hits hit,
    In text (Extract.windows 1000 transcript)
    /\ nerPipeline env k text = Ret hits /\ In hit hits
    /\ h = mkNerHit (word hit) (entity hit) (JS.double (score hit)).

(** A hit of the pipeline whose score, if the extractor keeps it, is at
    most 1. *)
Definition ProbableHit (env : Env) (transcript : string) (h : NerHit) : Prop :=
  PipelineHit env transcript h /\ ((1 # 2 < score h)%Q -> (score h <= 1)%Q).

(** A keyword row as [processChunk] persists it for [chunk]: the row of a
    hit of the pipeline on the content of the chunk, whose score is above
    0.5. *)
Definition PersistedKeyword (env : Env) (chunk : Chunk.t) (row : Keyword.t) : Prop :=
  Keyword.confidence row = Keyword.relevance row
  /\ (50 <= Keyword.confidence row <= 100)%Z
  /\ Keyword.chunkId row = Some (Chunk.id chunk)
  /\ exists k text hits hit,
       In text (Extract.windows 1000 (Chunk.content chunk))
       /\ nerPipeline env k text = Ret hits /\ In hit hits
       /\ (1 # 2 < JS.double (score hit))%Q
       /\ Keyword.keyword row = word hit
       /\ Keyword.entityType row = Some (entity hit)
       /\ Keyword.confidence row
          = JS.Math_round (JS.times (JS.double (score hit)) 100).



(** A trace of progress values that never goes down. *)
Fixpoint NonDecreasing (l : list Z) : Prop :=
  match l with
  | [] => True
  | a :: rest =>
      match rest with
      | [] => True
      | b :: _ => (a <= b)%Z
      end /\ NonDecreasing rest
  end.

Definition Within (lo hi : Z) (l : list Z) : Prop :=
  Forall (fun p => (lo <= p <= hi)%Z) l.

(** [m] stores no progress value. *)
Definition Keeps {A} (m : M A) : Prop :=
  forall w, progressLog (snd (m w)) = progressLog w.

(** Whatever its outcome, [m] appends to the trace a non-decreasing run of
    values between [lo] and [hi]. *)
Definition Appends {A} (m : M A) (lo hi : Z) : Prop :=
  forall w, exists added,
    progressLog (snd (m w)) = progressLog w ++ added
    /\ NonDecreasing added /\ Within lo hi added.

(** ** More predicates of the specification *)

(** [x] is not a number above the number [y].  A [NaN] is above nothing
    and below nothing: a comparator cannot place it. *)
Definition NotAbove (x y : Number.t) : Prop :=
  match x, y with
  | Number.num a, Number.num b => (a <= b)%Q
  | _, _ => True
  end.

(** The results are ranked: no result has a higher score than the one
    before it. *)
Definition Ranked (results : list Search.SearchResult) : Prop :=
  Sorted (fun a b => NotAbove (Search.relevanceScore b) (Search.relevanceScore a))
    results.

(** The order of the candidates of the vector search: by descending
    similarity, the similarities that are [NaN] last. *)
Definition SimilarityOrder (x y : Number.t) : Prop :=
  match x, y with
  | Number.num a, Number.num b => (b <= a)%Q
  | Number.num _, Number.NaN => True
  | Number.NaN, Number.NaN => True
  | Number.NaN, Number.num _ => False
  end.

(** A result repeats the times of its chunk and carries the video of its
    chunk. *)
Definition Consistent (r : Search.SearchResult) : Prop :=
  Video.id (Search.video r) = Chunk.videoId (Search.chunk r)
  /\ Search.startTime r = Chunk.startTime (Search.chunk r)
  /\ Search.endTime r = Chunk.endTime (Search.chunk r).

(** [m] leaves the database as it is. *)
Definition Reads {A} (m : M A) : Prop := forall w, db (snd (m w)) = db w.

(** Every character of [s] satisfies [P]. *)
Fixpoint AllChars (P : ascii -> Prop) (s : string) : Prop :=
  match s with
  | EmptyString => True
  | String c s' => P c /\ AllChars P s'
  end.

(** [d'] is [d] but for at most one more logged query, which is [query]. *)
Definition LogOnly (query : string) (d d' : Database) : Prop :=
  youtubeChannel d' = youtubeChannel d
  /\ youtubeVideo d' = youtubeVideo d
  /\ transcriptChunk d' = transcriptChunk d
  /\ videoKeyword d' = videoKeyword d
  /\ channelIndexStatus d' = channelIndexStatus d
  /\ (searchQuery d' = searchQuery d
      \/ exists row, searchQuery d' = searchQuery d ++ [row]
                     /\ SearchQuery.query row = query).

(** A string that does not start with white space. *)
Definition startsClean (s : string) : Prop :=
  match s with
  | EmptyString => True
  | String c _ => JS.isSpace c = false
  end.


(** The chunk of index [i] of a video as the segmenter makes it: it belongs
    to the video, has no embedding yet, counts at least one token and lasts
    15 seconds per token. *)
Definition SegmentOf (videoDbId : Id) (i : nat) (c : Chunk.t) : Prop :=
  Chunk.chunkIndex c = Z.of_nat i
  /\ Chunk.videoId c = videoDbId
  /\ Chunk.embedding c = None
  /\ (1 <= Chunk.tokenCount c)%Z
  /\ Chunk.endTime c = (Chunk.startTime c + 15 * Chunk.tokenCount c)%Z.

Fixpoint Numbered (videoDbId : Id) (i : nat) (cs : list Chunk.t) : Prop :=
  match cs with
  | [] => True
  | c :: rest => SegmentOf videoDbId i c /\ Numbered videoDbId (S i) rest
  end.

(** The invariant of the loop of [createTranscriptChunks] on the indices
    and the token counts. *)
Definition SegmenterCounts (videoDbId : Id) (st : Indexer.Segmenter) : Prop :=
  Numbered videoDbId 0 (Indexer.chunks st)
  /\ Indexer.chunkIndex st = Z.of_nat (List.length (Indexer.chunks st))
  /\ (0 <= Indexer.currentTokens st)%Z
  /\ (JS.truthy (Indexer.currentChunk st) = true -> (1 <= Indexer.currentTokens st)%Z).

(** The key under which [extractKeywordsFromTranscript] deduplicates a hit. *)
Definition keyOf (h : NerHit) : string :=
  (JS.toLowerCase (word h) ++ "_" ++ entity h)%string.

(** The invariant of the deduplication: the keys of the map are distinct,
    each entry is a hit seen so far under its own key, and each hit seen so
    far is represented under its key by a hit that scores at least as much. *)
Definition Deduped (m : list (string * NerHit)) (seen : list NerHit) : Prop :=
  NoDup (map fst m)
  /\ (forall k v, In (k, v) m -> k = keyOf v /\ In v seen)
  /\ (forall h, In h seen ->
        exists v, Extract.mapGet m (keyOf h) = Some v /\ (score h <= score v)%Q).

(** The sample environment of the named-entity pipeline, with the
    embeddings endpoint down. *)
Definition envNerOutage : Env :=
  mkEnv (fun _ _ _ => Throw "OpenAI API error: Bad Gateway") Sample.distance
    JS.toLowerCase Sample.like (fun _ => Ret tt) (fun _ _ => Ret Sample.hits)
    (fun _ _ => Sample.videos)
    (fun _ video =>
       Ret (if String.eqb (vi_videoId video) "abc123" then Some Sample.fetched else None))
    (Some "sk-test").

(** What a run of [indexChannel] keeps for itself: the field [channelDbId]
    of the indexer, the table of the channels and the table of the status
    rows; with them, the fault oracle of the database, which no code sets. *)
Definition runState (w : World)
    : (nat -> bool) * option Id * list Channel.t * list IndexStatus.t :=
  (faults w, channelDbId w, youtubeChannel (db w), channelIndexStatus (db w)).

(** [m] leaves the field [channelDbId] and the two tables as they are. *)
Definition KeepsRun {A} (m : M A) : Prop :=
  forall w, runState (snd (m w)) = runState w.


Module Info.






End Info.






(** A character of the class of the channel identifiers. *)
Definition idChar (c : ascii) : Prop := Indexer.isIdChar c = true.

(** What may follow a channel identifier in a URL: nothing, or a character
    that is not of the class. *)
Definition endsId (rest : string) : Prop :=
  match rest with
  | EmptyString => True
  | String c _ => Indexer.isIdChar c = false
  end.

(** The row that a call of [search] adds to [SearchQuery], if it adds one:
    a channel handle is given, the embedding request is answered, the lookup
    of the channel is accepted and finds a row, and the insert of the log row
    is accepted.  The statements of [search] are sent at the ticks after the
    embedding request. *)
Definition loggedRow (env : Env) (openaiApiKey query : string)
    (options : Search.SearchOptions) (w : World) : option SearchQuery.t :=
  match Search.givenHandle (Search.channelId options) with
  | None => None
  | Some handle =>
      match embeddings env (ticks w) openaiApiKey query with
      | Throw _ => None
      | Ret queryEmbedding =>
          if faults w (S (ticks w)) then None
          else
            match hd_error (filter (fun c => String.eqb (Channel.channelId c) handle)
                              (youtubeChannel (db w))) with
            | None => None
            | Some c =>
                if faults w (S (S (ticks w))) then None
                else Some (SearchQuery.mk (nextId w) (Channel.id c) query
                             (Some queryEmbedding) 0 (Some 0%Z) (now w))
            end
      end
  end.
(** * Properties *)

(** ** Sanity checks of the string primitives *)

Example split_leading_space :
  JS.splitWhitespace " a  b " = [""; "a"; "b"; ""].
Proof. reflexivity. Qed.

Example split_empty : JS.splitWhitespace "" = [""].
Proof. reflexivity. Qed.

Example trim_both : JS.trim "  a b  " = "a b".
Proof. reflexivity. Qed.

(** ** Query keywords *)

Lemma filter_In_both {A} (p : A -> bool) (l : list A) (x : A) :
  In x (filter p l) -> In x l /\ p x = true.
Proof. apply filter_In. Qed.

(** Every query keyword is longer than two characters and is no stop word. *)
Lemma extractKeywordsFromQuery_kept (query word : string) :
  In word (Query.extractKeywordsFromQuery query) ->
  2 < String.length word /\ Query.isStopWord word = false.
Proof.
  unfold Query.extractKeywordsFromQuery. intros H.
  apply filter_In_both in H as [H Hstop].
  apply filter_In_both in H as [_ Hlen].
  split.
  - now apply Nat.ltb_lt.
  - now apply negb_true_iff.
Qed.

(** The word [about] is not one of the stop words. *)
Lemma about_is_no_stop_word : Query.isStopWord "about" = false.
Proof. reflexivity. Qed.

(** C2, as the claim states it, fails: the extraction does not return
    [tell; barack; obama] on the query of the example. *)
Lemma obama_query_not_three_keywords :
  Query.extractKeywordsFromQuery "Tell me about Barack Obama"
  <> ["tell"; "barack"; "obama"].
Proof. vm_compute. discriminate. Qed.

(** C2, amended: on the query [Tell me about Barack Obama] the extraction
    returns exactly [tell; about; barack; obama]; the token [me], of length
    at most 2, is dropped, and [about] is kept since it is not in the list of
    stop words. *)
Theorem obama_query_keywords :
  Query.extractKeywordsFromQuery "Tell me about Barack Obama"
  = ["tell"; "about"; "barack"; "obama"]
  /\ Query.isStopWord "about" = false
  /\ ~ In "me" (Query.extractKeywordsFromQuery "Tell me about Barack Obama").
Proof.
  split; [reflexivity | split; [reflexivity | ]].
  intros H. apply extractKeywordsFromQuery_kept in H as [H _].
  simpl in H. lia.
Qed.

(** ** The monad *)

Lemma statement_run {A} (run : World -> outcome A * World) (w : World) :
  faults w (ticks w) = false -> statement run w = run (tick w).
Proof. unfold statement. intros ->. reflexivity. Qed.

Lemma statement_fault {A} (run : World -> outcome A * World) (w : World) :
  faults w (ticks w) = true ->
  statement run w = (Throw "database error", tick w).
Proof. unfold statement. intros ->. reflexivity. Qed.

Lemma statement_Faulty {A} (run : World -> outcome A * World) (w : World) :
  faults w (ticks w) = true -> Faulty w.
Proof. intros H. now exists (ticks w). Qed.

(** ** Numbers *)

Lemma Qdiv_nonneg (a b : Q) : (0 <= a)%Q -> (0 < b)%Q -> (0 <= a / b)%Q.
Proof.
  intros Ha Hb. apply Qle_shift_div_l; [assumption | ].
  now rewrite Qmult_0_l.
Qed.

Lemma inject_Z_nonneg (z : Z) : (0 <= z)%Z -> (0 <= inject_Z z)%Q.
Proof. intros H. change 0%Q with (inject_Z 0). now rewrite <- Zle_Qle. Qed.

Lemma estimateTokenCount_nonneg (text : string) :
  (0 <= Indexer.estimateTokenCount text)%Z.
Proof.
  unfold Indexer.estimateTokenCount.
  change 0%Z with (Qceiling 0). apply Qceiling_resp_le.
  apply Qdiv_nonneg; [ | reflexivity].
  apply inject_Z_nonneg. lia.
Qed.

Lemma endOf_le (startTime currentTokens : Z) :
  (0 <= currentTokens)%Z -> (startTime <= Indexer.endOf startTime currentTokens)%Z.
Proof.
  intros H. unfold Indexer.endOf.
  assert (0 <= Qfloor (inject_Z currentTokens / 4 * 60))%Z; [ | lia].
  change 0%Z with (Qfloor 0). apply Qfloor_resp_le.
  apply Qmult_le_0_compat; [ | discriminate].
  apply Qdiv_nonneg; [now apply inject_Z_nonneg | reflexivity].
Qed.

(** ** The segmenter *)

Lemma truthy_append_r (a b : string) :
  JS.truthy b = true -> JS.truthy (a ++ b) = true.
Proof. destruct a; simpl; [trivial | reflexivity]. Qed.

Lemma truthy_length (s : string) :
  (0 <? String.length s) = true -> JS.truthy s = true.
Proof. destruct s; [discriminate | reflexivity]. Qed.

Lemma splitIntoSentences_truthy (text : string) :
  Forall (fun s => JS.truthy s = true) (Indexer.splitIntoSentences text).
Proof.
  apply Forall_forall. intros s H.
  apply filter_In_both in H as [_ H]. now apply truthy_length.
Qed.

Lemma Chain_snoc (start mid : Z) (cs : list Chunk.t) (c : Chunk.t) :
  Chain start cs mid -> Chunk.startTime c = mid -> (mid <= Chunk.endTime c)%Z ->
  Chain start (cs ++ [c]) (Chunk.endTime c).
Proof.
  revert start. induction cs as [ | c0 rest IH]; simpl; intros start H Hs He.
  - subst. auto.
  - destruct H as (H1 & H2 & H3). auto.
Qed.

Lemma Chain_ordered (start finish : Z) (cs : list Chunk.t) :
  Chain start cs finish ->
  Forall (fun c => (Chunk.startTime c <= Chunk.endTime c)%Z) cs.
Proof.
  revert start. induction cs as [ | c rest IH]; simpl; intros start H.
  - constructor.
  - destruct H as (H1 & H2 & H3). constructor; [lia | eauto].
Qed.

Lemma Chain_first (start finish : Z) (cs : list Chunk.t) (c : Chunk.t) :
  Chain start cs finish -> hd_error cs = Some c -> Chunk.startTime c = start.
Proof.
  destruct cs; simpl; [discriminate | ].
  intros (H & _) [= ->]. exact H.
Qed.

Lemma Chain_adjacent (start finish : Z) (cs : list Chunk.t) (i : nat) (a b : Chunk.t) :
  Chain start cs finish ->
  nth_error cs i = Some a -> nth_error cs (S i) = Some b ->
  Chunk.endTime a = Chunk.startTime b.
Proof.
  revert start i. induction cs as [ | c rest IH]; intros start i H Ha Hb.
  - destruct i; discriminate.
  - destruct H as (H1 & H2 & H3). destruct i as [ | i].
    + simpl in Ha. injection Ha as ->.
      destruct rest as [ | c' rest']; [discriminate | ].
      simpl in Hb. injection Hb as ->.
      destruct H3 as (H3 & _). now rewrite H3.
    + simpl in Ha. apply (IH _ i H3 Ha Hb).
Qed.

(** What one [insert ... returning] of a chunk does. *)
Lemma insertChunk_cases (videoDbId : Id) (chunkIndex : Z) (content : string)
    (startTime endTime tokenCount : Z) (w : World) :
  (exists row w',
      Indexer.insertChunk videoDbId chunkIndex content startTime endTime tokenCount w
      = (Ret row, w')
      /\ Chunk.startTime row = startTime /\ Chunk.endTime row = endTime
      /\ Chunk.tokenCount row = tokenCount /\ Chunk.content row = content
      /\ Chunk.chunkIndex row = chunkIndex
      /\ faults w' = faults w)
  \/ (exists e w',
      Indexer.insertChunk videoDbId chunkIndex content startTime endTime tokenCount w
      = (Throw e, w')
      /\ Faulty w).
Proof.
  unfold Indexer.insertChunk.
  destruct (faults w (ticks w)) eqn:F.
  - right. rewrite statement_fault by assumption.
    eexists _, _. split; [reflexivity | now exists (ticks w)].
  - left. rewrite statement_run by assumption.
    eexists _, _. split; [reflexivity | ]. simpl. tauto.
Qed.

(** The loop keeps the chain of the chunks, and after a sentence is read
    the running chunk is not empty. *)
Lemma segmentLoop_spec (videoDbId : Id) (sentences : list string) :
  forall (st : Indexer.Segmenter) (w : World),
    SegmenterOk st ->
    Forall (fun s => JS.truthy s = true) sentences ->
    match Indexer.segmentLoop videoDbId sentences st w with
    | (Ret st', w') =>
        SegmenterOk st' /\ faults w' = faults w
        /\ (sentences <> [] \/ JS.truthy (Indexer.currentChunk st) = true ->
            JS.truthy (Indexer.currentChunk st') = true)
        /\ List.length (Indexer.chunks st) <= List.length (Indexer.chunks st')
    | (Throw _, _) => Faulty w
    end.
Proof.
  induction sentences as [ | sentence rest IH]; intros st w Hok Hall.
  - simpl. repeat split; try apply Hok; auto. intros [H | H]; [now elim H | exact H].
  - inversion Hall as [ | ? ? Hs Hrest]; subst.
    destruct Hok as [Hchain Htok].
    cbn [Indexer.segmentLoop].
    destruct ((Indexer.CHUNK_SIZE
               <? Indexer.currentTokens st + Indexer.estimateTokenCount sentence)%Z
              && JS.truthy (Indexer.currentChunk st)) eqn:Hflush.
    + unfold bind.
      destruct (insertChunk_cases videoDbId (Indexer.chunkIndex st)
                  (JS.trim (Indexer.currentChunk st)) (Indexer.startTime st)
                  (Indexer.endOf (Indexer.startTime st) (Indexer.currentTokens st))
                  (Indexer.currentTokens st) w)
        as [(row & w1 & -> & Hst & Hen & _ & _ & _ & Hf) | (e & w1 & -> & Hfault)];
        [ | exact Hfault].
      match goal with
      | |- context [Indexer.segmentLoop videoDbId rest ?st1 w1] =>
          specialize (IH st1 w1)
      end.
      match type of IH with ?P -> _ => assert (Hok1 : P) end.
      { split; simpl.
        - apply Chain_snoc with (mid := Indexer.startTime st); auto.
          rewrite Hen. now apply endOf_le.
        - apply estimateTokenCount_nonneg. }
      specialize (IH Hok1 Hrest).
      destruct (Indexer.segmentLoop videoDbId rest _ w1) as [[st' | e] w'].
      * destruct IH as (H1 & H2 & H3 & H4). simpl in H3, H4.
        repeat split; try apply H1.
        -- congruence.
        -- intros _. apply H3. right.
           repeat apply truthy_append_r; first [exact Hs | reflexivity].
        -- rewrite length_app in H4. simpl in H4. lia.
      * destruct IH as [k Hk]. exists k. congruence.
    + match goal with
      | |- context [Indexer.segmentLoop videoDbId rest ?st1 w] =>
          specialize (IH st1 w)
      end.
      match type of IH with ?P -> _ => assert (Hok1 : P) end.
      { split; simpl; [exact Hchain | ].
        pose proof (estimateTokenCount_nonneg sentence). lia. }
      specialize (IH Hok1 Hrest).
      destruct (Indexer.segmentLoop videoDbId rest _ w) as [[st' | e] w'];
        [ | exact IH].
      destruct IH as (H1 & H2 & H3 & H4). simpl in H3, H4.
      repeat split; try apply H1; auto.
      intros _. apply H3. right.
      repeat apply truthy_append_r; first [exact Hs | reflexivity].
Qed.

Lemma sumTokens_nonneg (sentences : list string) : (0 <= sumTokens sentences)%Z.
Proof.
  induction sentences as [ | s rest IH]; simpl; [lia | ].
  pose proof (estimateTokenCount_nonneg s). lia.
Qed.

(** Sentences that fit in the budget are gathered without closing a chunk,
    and without a statement to the database. *)
Lemma segmentLoop_fits (videoDbId : Id) (sentences : list string) :
  forall (st : Indexer.Segmenter) (w : World),
    (Indexer.currentTokens st + sumTokens sentences <= Indexer.CHUNK_SIZE)%Z ->
    exists st',
      Indexer.segmentLoop videoDbId sentences st w = (Ret st', w)
      /\ Indexer.chunks st' = Indexer.chunks st.
Proof.
  induction sentences as [ | sentence rest IH]; intros st w H.
  - exists st. split; reflexivity.
  - cbn [Indexer.segmentLoop]. simpl in H.
    pose proof (sumTokens_nonneg rest) as Hrest.
    replace ((Indexer.CHUNK_SIZE
              <? Indexer.currentTokens st + Indexer.estimateTokenCount sentence)%Z)
      with false by (symmetry; apply Z.ltb_ge; lia).
    cbn [andb].
    match goal with
    | |- context [Indexer.segmentLoop videoDbId rest ?st1 w] =>
        destruct (IH st1 w) as (st' & E & Hc); [simpl; lia | ]
    end.
    exists st'. split; [exact E | exact Hc].
Qed.

(** The chunks returned by [createTranscriptChunks]. *)
Lemma createTranscriptChunks_spec (videoDbId : Id) (transcript : string) (w : World) :
  match Indexer.createTranscriptChunks videoDbId transcript w with
  | (Ret chunks, _) =>
      (exists finish, Chain 0 chunks finish)
      /\ (1 <= List.length chunks <-> Indexer.splitIntoSentences transcript <> [])
      /\ (Indexer.splitIntoSentences transcript <> [] ->
          (sumTokens (Indexer.splitIntoSentences transcript) <= Indexer.CHUNK_SIZE)%Z ->
          List.length chunks = 1)
  | (Throw _, _) => Faulty w
  end.
Proof.
  unfold Indexer.createTranscriptChunks, bind.
  pose proof (splitIntoSentences_truthy transcript) as Hall.
  set (sentences := Indexer.splitIntoSentences transcript) in *.
  set (st0 := Indexer.mkSegmenter [] "" 0 0 0).
  assert (Hok0 : SegmenterOk st0) by (split; simpl; [reflexivity | lia]).
  pose proof (segmentLoop_spec videoDbId sentences st0 w Hok0 Hall) as Hspec.
  destruct (Indexer.segmentLoop videoDbId sentences st0 w) as [[st | e] w1] eqn:E;
    [ | exact Hspec].
  destruct Hspec as ([Hchain Htok] & Hf & Htruthy & _).
  destruct (JS.truthy (Indexer.currentChunk st)) eqn:T.
  - destruct (insertChunk_cases videoDbId (Indexer.chunkIndex st)
                (JS.trim (Indexer.currentChunk st)) (Indexer.startTime st)
                (Indexer.endOf (Indexer.startTime st) (Indexer.currentTokens st))
                (Indexer.currentTokens st) w1)
      as [(row & w2 & -> & Hst & Hen & _) | (e & w2 & -> & k & Hk)].
    + cbn [ret]. split; [ | split].
      * exists (Chunk.endTime row).
        apply Chain_snoc with (mid := Indexer.startTime st); auto.
        rewrite Hen. now apply endOf_le.
      * rewrite length_app. simpl. split; [ | lia].
        intros _ Hnil. rewrite Hnil in E. simpl in E.
        injection E as <- _. discriminate T.
      * intros _ Hfit.
        destruct (segmentLoop_fits videoDbId sentences st0 w) as (st' & E' & Hc);
          [simpl; exact Hfit | ].
        rewrite E in E'. injection E' as -> _.
        rewrite length_app, Hc. reflexivity.
    + exists k. congruence.
  - cbn [ret]. split; [ | split].
    + now exists (Indexer.startTime st).
    + destruct sentences as [ | s rest].
      * simpl in E. injection E as <- _. simpl. split; [lia | congruence].
      * assert (false = true) by (apply Htruthy; left; discriminate).
        discriminate.
    + intros Hne _. assert (false = true) by (apply Htruthy; now left).
      discriminate.
Qed.

(** C4, as the claim states it, fails: the transcript ["."] is not empty and
    no chunk is made of it, in a run where the database rejects nothing. *)
Lemma one_dot_transcript_no_chunk :
  exists chunks,
    fst (Indexer.createTranscriptChunks 0 "." Sample.world0) = Ret chunks
    /\ ~ (1 <= List.length chunks <-> "." <> "").
Proof.
  exists []. split; [reflexivity | ].
  intros [_ H]. assert (1 <= 0) by (apply H; discriminate). lia.
Qed.

(** C4, amended: [createTranscriptChunks] returns unless the database
    rejects a statement, and then (1) there is at least one chunk if and only
    if the transcript has at least one sentence, that is
    [splitIntoSentences] finds a piece between the marks [. ! ?] that is not
    only white space; (2) the empty transcript gives no chunk; (3) a
    transcript with at least one sentence whose sentences have token
    estimates that sum to at most [CHUNK_SIZE] gives exactly one chunk. *)
Theorem createTranscriptChunks_count (videoDbId : Id) (transcript : string) (w : World) :
  match Indexer.createTranscriptChunks videoDbId transcript w with
  | (Ret chunks, _) =>
      (1 <= List.length chunks <-> Indexer.splitIntoSentences transcript <> [])
      /\ (transcript = "" -> chunks = [])
      /\ (Indexer.splitIntoSentences transcript <> [] ->
          (sumTokens (Indexer.splitIntoSentences transcript) <= Indexer.CHUNK_SIZE)%Z ->
          List.length chunks = 1)
  | (Throw _, _) => Faulty w
  end.
Proof.
  pose proof (createTranscriptChunks_spec videoDbId transcript w) as H.
  destruct (Indexer.createTranscriptChunks videoDbId transcript w) as [[chunks | e] w'];
    [ | exact H].
  destruct H as (_ & Hcount & Hone).
  split; [exact Hcount | split; [ | exact Hone]].
  intros ->. destruct chunks as [ | c rest]; [reflexivity | ].
  exfalso. apply (proj1 Hcount); [simpl; lia | reflexivity].
Qed.

(** C5: in the chunks that [createTranscriptChunks] returns (and it returns
    unless the database rejects a statement), every chunk has
    [startTime <= endTime], the first chunk starts at 0, and each chunk ends
    where the next one starts. *)
Theorem createTranscriptChunks_times (videoDbId : Id) (transcript : string) (w : World) :
  match Indexer.createTranscriptChunks videoDbId transcript w with
  | (Ret chunks, _) =>
      Forall (fun c => (Chunk.startTime c <= Chunk.endTime c)%Z) chunks
      /\ (forall c, hd_error chunks = Some c -> Chunk.startTime c = 0%Z)
      /\ (forall i a b,
             nth_error chunks i = Some a -> nth_error chunks (S i) = Some b ->
             Chunk.endTime a = Chunk.startTime b)
  | (Throw _, _) => Faulty w
  end.
Proof.
  pose proof (createTranscriptChunks_spec videoDbId transcript w) as H.
  destruct (Indexer.createTranscriptChunks videoDbId transcript w) as [[chunks | e] w'];
    [ | exact H].
  destruct H as ((finish & Hchain) & _).
  split; [ | split].
  - eapply Chain_ordered; eassumption.
  - intros c Hc. eapply Chain_first; eassumption.
  - intros i a b Ha Hb. eapply Chain_adjacent; eassumption.
Qed.

(** The first example of the specification: three sentences within the
    budget make one chunk that starts at 0. *)
Example three_sentences_one_chunk :
  map (fun c => (Chunk.content c, Chunk.startTime c, Chunk.endTime c, Chunk.tokenCount c))
    match fst (Indexer.createTranscriptChunks 0
                 "Cats are great. Dogs are loyal. Birds can fly." Sample.world0) with
    | Ret chunks => chunks
    | Throw _ => []
    end
  = [("Cats are great Dogs are loyal Birds can fly", 0%Z, 180%Z, 12%Z)].
Proof. vm_compute. reflexivity. Qed.

(** The budget is counted sentence by sentence: 401 sentences of one letter
    make a transcript of 802 characters, 201 tokens by the estimate of the
    whole text, and yet two chunks, since each sentence counts for one token. *)
Example short_sentences_two_chunks :
  Indexer.estimateTokenCount (Sample.times 401 "a.") = 201%Z
  /\ sumTokens (Indexer.splitIntoSentences (Sample.times 401 "a.")) = 401%Z
  /\ match fst (Indexer.createTranscriptChunks 0 (Sample.times 401 "a.") Sample.world0) with
     | Ret chunks => List.length chunks
     | Throw _ => 0
     end = 2.
Proof. vm_compute. repeat split. Qed.

(** ** Reasoning on what a computation returns *)

Lemma returns_ret {A} (a : A) (post : A -> Prop) : post a -> Returns (ret a) post.
Proof. intros H w. exact H. Qed.

Lemma returns_throw {A} (e : string) (post : A -> Prop) : Returns (throw e) post.
Proof. intros w. exact I. Qed.

Lemma returns_bind {A B} (m : M A) (k : A -> M B) (mid : A -> Prop) (post : B -> Prop) :
  Returns m mid -> (forall a, mid a -> Returns (k a) post) ->
  Returns (bind m k) post.
Proof.
  intros Hm Hk w. unfold bind. specialize (Hm w).
  destruct (m w) as [[a | e] w']; [ | exact I].
  apply (Hk a Hm w').
Qed.

Lemma returns_tryCatch {A} (m : M A) (handler : string -> M A) (post : A -> Prop) :
  Returns m post -> (forall e, Returns (handler e) post) ->
  Returns (tryCatch m handler) post.
Proof.
  intros Hm Hh w. unfold tryCatch. specialize (Hm w).
  destruct (m w) as [[a | e] w']; [exact Hm | apply Hh].
Qed.

Lemma returns_statement {A} (run : M A) (post : A -> Prop) :
  Returns run post -> Returns (statement run) post.
Proof.
  intros H w. unfold statement.
  destruct (faults w (ticks w)); [exact I | apply H].
Qed.

Lemma returns_select {A} (read : Database -> A) (post : A -> Prop) :
  (forall d, post (read d)) -> Returns (select read) post.
Proof. intros H. apply returns_statement. intros w. apply H. Qed.

Lemma returns_any {A} (m : M A) : Returns m (fun _ => True).
Proof. intros w. destruct (m w) as [[a | e] w']; exact I. Qed.

(** ** Sorting and slicing keep what holds of every element *)

Lemma Forall_insertBy {A} (P : A -> Prop) (before : A -> A -> bool) (x : A) (l : list A) :
  P x -> Forall P l -> Forall P (insertBy before x l).
Proof.
  intros Hx. induction 1 as [ | y l' Hy Hl IH]; simpl.
  - auto.
  - destruct (before x y); auto.
Qed.

Lemma Forall_sortBy_acc {A} (P : A -> Prop) (before : A -> A -> bool) (l : list A) :
  forall acc, Forall P acc -> Forall P l ->
    Forall P (fold_left (fun acc x => insertBy before x acc) l acc).
Proof.
  induction l as [ | x l' IH]; simpl; intros acc Hacc Hl; [exact Hacc | ].
  inversion Hl; subst. apply IH; [ | assumption].
  now apply Forall_insertBy.
Qed.

Lemma Forall_sortBy {A} (P : A -> Prop) (before : A -> A -> bool) (l : list A) :
  Forall P l -> Forall P (sortBy before l).
Proof. intros H. unfold sortBy. now apply Forall_sortBy_acc. Qed.

Lemma Forall_firstn {A} (P : A -> Prop) (n : nat) (l : list A) :
  Forall P l -> Forall P (firstn n l).
Proof.
  intros H. revert n. induction H; intros [ | n]; simpl; auto.
Qed.

Lemma Forall_filter_holds {A} (p : A -> bool) (l : list A) :
  Forall (fun x => p x = true) (filter p l).
Proof.
  apply Forall_forall. intros x H. now apply filter_In_both in H.
Qed.

(** ** Bounds of the relevance scores *)

Lemma Qlt_bool_lt (x y : Q) : Qlt_bool x y = true -> (x < y)%Q.
Proof.
  unfold Qlt_bool. intros H. apply negb_true_iff in H.
  apply Qnot_le_lt. intros Hle. apply Qle_bool_iff in Hle. congruence.
Qed.

Lemma Math_min_le_1 (x : Q) : (JS.Math_min x 1 <= 1)%Q.
Proof.
  unfold JS.Math_min. destruct (Qle_bool x 1) eqn:E.
  - now apply Qle_bool_iff.
  - apply Qle_refl.
Qed.

Lemma Math_min_nonneg (x : Q) : (0 <= x)%Q -> (0 <= JS.Math_min x 1)%Q.
Proof.
  intros H. unfold JS.Math_min. destruct (Qle_bool x 1); [exact H | discriminate].
Qed.

Lemma count_nonneg (n : nat) : (0 <= inject_Z (Z.of_nat n))%Q.
Proof. apply inject_Z_nonneg. lia. Qed.

Lemma ratio_nonneg (n m : nat) :
  (0 <= inject_Z (Z.of_nat n) / inject_Z (Z.of_nat m))%Q.
Proof.
  unfold Qdiv. apply Qmult_le_0_compat; [apply count_nonneg | ].
  apply Qinv_le_0_compat. apply count_nonneg.
Qed.

Lemma ratio_le_1 (n m : nat) :
  n <= m -> 0 < m -> (inject_Z (Z.of_nat n) / inject_Z (Z.of_nat m) <= 1)%Q.
Proof.
  intros Hnm Hm. apply Qle_shift_div_r.
  - change 0%Q with (inject_Z 0). rewrite <- Zlt_Qlt. lia.
  - rewrite Qmult_1_l. rewrite <- Zle_Qle. lia.
Qed.

(** The composite score of a similarity that is a number and not negative
    lies between 0 and 1: the three boosts are not negative and the sum is
    cut at 1. *)
Lemma calculateRelevanceScore_bounded (chunk : Chunk.t) (query : string)
    (matchedKeywords : list string) (similarity : Q) :
  (0 <= similarity)%Q ->
  Bounded (Search.calculateRelevanceScore chunk query matchedKeywords
             (Number.num similarity)).
Proof.
  intros Hs. unfold Search.calculateRelevanceScore. cbv zeta. cbn [Number.add].
  set (kw := (inject_Z (Z.of_nat (List.length matchedKeywords)) * (5 # 100))%Q).
  assert (Hkw : (0 <= kw)%Q).
  { apply Qmult_le_0_compat; [apply count_nonneg | discriminate]. }
  assert (H1 : (0 <= similarity + kw)%Q).
  { replace 0%Q with (0 + 0)%Q by reflexivity. now apply Qplus_le_compat. }
  match goal with
  | |- context [Number.num (?r * (5 # 100))%Q] =>
      assert (Hr : (0 <= r * (5 # 100))%Q)
        by (apply Qmult_le_0_compat; [apply ratio_nonneg | discriminate]);
      set (words := (r * (5 # 100))%Q) in *
  end.
  destruct (JS.includes _ _); cbn [Number.add Number.min Bounded]; split;
    try apply Math_min_le_1; apply Math_min_nonneg.
  - replace 0%Q with (0 + 0)%Q by reflexivity.
    apply Qplus_le_compat; [ | exact Hr].
    replace 0%Q with (0 + 0)%Q by reflexivity.
    apply Qplus_le_compat; [exact H1 | discriminate].
  - replace 0%Q with (0 + 0)%Q by reflexivity.
    now apply Qplus_le_compat.
Qed.

(** The composite score of a similarity that is [NaN] is [NaN]. *)
Lemma calculateRelevanceScore_NaN (chunk : Chunk.t) (query : string)
    (matchedKeywords : list string) :
  Search.calculateRelevanceScore chunk query matchedKeywords Number.NaN = Number.NaN.
Proof.
  unfold Search.calculateRelevanceScore. cbv zeta. cbn [Number.add].
  destruct (JS.includes _ _); reflexivity.
Qed.

(** The keyword-only score is the share of the query keywords found. *)
Lemma calculateKeywordRelevanceScore_bounded (matchedKeywords queryKeywords : list string) :
  queryKeywords <> [] ->
  Bounded (Search.calculateKeywordRelevanceScore matchedKeywords queryKeywords).
Proof.
  intros Hq. unfold Search.calculateKeywordRelevanceScore.
  destruct matchedKeywords as [ | mk rest].
  - split; [apply Qle_refl | discriminate].
  - destruct queryKeywords as [ | q0 qs]; [congruence | ].
    split; [apply ratio_nonneg | ].
    apply ratio_le_1.
    + apply filter_length_le.
    + simpl; lia.
Qed.

Section SearchScores.

Variable env : Env.
Variable openaiApiKey : string.

Lemma chunksWithVideo_In (d : Database) (c : Chunk.t) (v : Video.t) :
  In (c, v) (Search.chunksWithVideo d) ->
  In c (transcriptChunk d) /\ In v (youtubeVideo d)
  /\ Video.id v = Chunk.videoId c.
Proof.
  unfold Search.chunksWithVideo. intros H.
  apply in_flat_map in H as (c0 & Hc0 & H).
  apply in_map_iff in H as (v0 & [= <- <-] & Hv0).
  apply filter_In_both in Hv0 as [Hv0 Hid]. apply Nat.eqb_eq in Hid.
  auto.
Qed.

(** The vector search keeps the chunks whose similarity exceeds the
    threshold, when the distances are numbers. *)
Lemma findSimilarChunks_above (queryEmbedding : Embedding) (channelDbId : option Id)
    (limit : nat) (threshold : Q) (w : World) :
  DistancesDefined env queryEmbedding w ->
  match Search.findSimilarChunks env queryEmbedding channelDbId limit threshold w with
  | (Ret candidates, _) => Forall (AboveThreshold threshold) candidates
  | (Throw _, _) => True
  end.
Proof.
  intros Hd. unfold Search.findSimilarChunks, select, statement.
  destruct (faults w (ticks w)); [exact I | ].
  change (db (tick w)) with (db w).
  apply Forall_map. apply Forall_firstn. apply Forall_sortBy.
  apply Forall_forall. intros [[c v] dist] Hin.
  apply filter_In_both in Hin as [Hin Hkeep].
  apply in_flat_map in Hin as ([c0 v0] & Hcv & Hin).
  apply chunksWithVideo_In in Hcv as (Hc0 & _ & _).
  simpl in Hin. destruct (Chunk.embedding c0) as [e | ] eqn:He; [ | contradiction].
  destruct Hin as [[= <- <- <-] | []].
  apply andb_true_iff in Hkeep as [_ Hkeep].
  unfold AboveThreshold. simpl.
  pose proof (Hd c0 e Hc0 He) as Hnum.
  destruct (cosine_distance env e queryEmbedding) as [ | q]; [congruence | ].
  simpl in Hkeep |- *. now apply Qlt_bool_lt.
Qed.

Lemma assemble_bounded (query : string) (includeKeywords : bool) (chunk : Chunk.t)
    (similarity : Q) :
  (0 <= similarity)%Q ->
  Returns (Search.assemble env query includeKeywords chunk (Number.num similarity))
    (fun r => match r with
              | Some x => Bounded (Search.relevanceScore x)
              | None => True
              end).
Proof.
  intros Hs. unfold Search.assemble.
  apply returns_tryCatch; [ | intros e; now apply returns_ret].
  eapply returns_bind; [apply returns_any | ].
  intros [video | ] _; [ | now apply returns_ret].
  eapply returns_bind; [apply returns_any | ].
  intros [channel | ] _; [ | now apply returns_ret].
  eapply returns_bind; [apply returns_any | ].
  intros matched _. apply returns_ret. simpl.
  now apply calculateRelevanceScore_bounded.
Qed.

Lemma assembleAll_bounded (query : string) (includeKeywords : bool)
    (chunkSimilarities : list (Chunk.t * Number.t)) :
  forall results,
    Forall (AboveThreshold 0) chunkSimilarities ->
    ScoresBounded results ->
    Returns (Search.assembleAll env query includeKeywords chunkSimilarities results)
      ScoresBounded.
Proof.
  induction chunkSimilarities as [ | [chunk similarity] rest IH];
    intros results Hall Hres; simpl.
  - now apply returns_ret.
  - inversion Hall as [ | x l Hx Hrest]; subst.
    unfold AboveThreshold in Hx. simpl in Hx.
    destruct similarity as [ | s]; [contradiction | ].
    eapply returns_bind; [apply assemble_bounded; now apply Qlt_le_weak | ].
    intros [x | ] Hb; apply IH; auto.
    apply Forall_app. split; [assumption | ]. constructor; [exact Hb | constructor].
Qed.

Lemma keywordResults_bounded (queryKeywords : list string)
    (groups : list (Id * (Chunk.t * list string))) :
  queryKeywords <> [] ->
  forall searchResults,
    ScoresBounded searchResults ->
    Returns (Search.keywordResults queryKeywords groups searchResults) ScoresBounded.
Proof.
  intros Hq. induction groups as [ | [k [c keywords]] rest IH];
    intros searchResults Hres; simpl.
  - now apply returns_ret.
  - eapply returns_bind; [apply returns_any | ].
    intros [video | ] _; [ | now apply IH].
    eapply returns_bind; [apply returns_any | ].
    intros [channel | ] _; [ | now apply IH].
    apply IH. apply Forall_app. split; [assumption | ].
    constructor; [ | constructor].
    simpl. now apply calculateKeywordRelevanceScore_bounded.
Qed.

Lemma ScoresBounded_top (n : nat) (results : list Search.SearchResult) :
  ScoresBounded results ->
  ScoresBounded (firstn n (sortBy Search.byRelevance results)).
Proof. intros H. apply Forall_firstn. now apply Forall_sortBy. Qed.

Lemma keywordSearchIn_bounded (query : string) (limit : nat) (channelDbId : option Id) :
  Returns (Search.keywordSearchIn env query limit channelDbId) ScoresBounded.
Proof.
  unfold Search.keywordSearchIn.
  destruct (Query.extractKeywordsFromQuery query) as [ | first others] eqn:E.
  - apply returns_ret. constructor.
  - eapply returns_bind; [apply returns_any | ].
    intros results _.
    eapply returns_bind.
    + apply keywordResults_bounded; [discriminate | constructor].
    + intros searchResults H. apply returns_ret. now apply ScoresBounded_top.
Qed.

Lemma keywordSearch_bounded (query : string) (options : Search.SearchOptions) :
  Returns (Search.keywordSearch env query options) ScoresBounded.
Proof.
  unfold Search.keywordSearch.
  destruct (Search.givenHandle (Search.channelId options)) as [handle | ].
  - eapply returns_bind; [apply returns_any | ].
    intros [dbId | ] _; [apply keywordSearchIn_bounded | ].
    apply returns_ret. constructor.
  - apply keywordSearchIn_bounded.
Qed.

(** The logging of the query leaves the chunks as they are. *)
Lemma logSearchQuery_chunks (query : string) (queryEmbedding : Embedding)
    (channelDbId : option Id) (w : World) :
  transcriptChunk (db (snd (Search.logSearchQuery query queryEmbedding channelDbId w)))
  = transcriptChunk (db w).
Proof.
  unfold Search.logSearchQuery, tryCatch, statement.
  destruct channelDbId as [cid | ]; [ | reflexivity].
  destruct (faults w (ticks w)); reflexivity.
Qed.

Lemma searchFrom_bounded (query : string) (options : Search.SearchOptions)
    (queryEmbedding : Embedding) (channelDbId : option Id) (w : World) :
  (0 <= Search.orDefault (1 # 2) (Search.similarityThreshold options))%Q ->
  DistancesDefined env queryEmbedding w ->
  match Search.searchFrom env query options queryEmbedding channelDbId w with
  | (Ret results, _) => ScoresBounded results
  | (Throw _, _) => True
  end.
Proof.
  intros Ht Hd. unfold Search.searchFrom. cbv zeta. unfold bind at 1.
  pose proof (logSearchQuery_chunks query queryEmbedding channelDbId w) as Hlog.
  destruct (Search.logSearchQuery query queryEmbedding channelDbId w)
    as [[[] | e] w1]; [ | exact I].
  simpl in Hlog.
  assert (Hd1 : DistancesDefined env queryEmbedding w1).
  { intros c e0 Hc. apply Hd. now rewrite <- Hlog. }
  unfold bind at 1. unfold tryCatch at 1.
  match goal with
  | |- context [Search.findSimilarChunks ?a ?b ?c ?l ?t w1] =>
      pose proof (findSimilarChunks_above b c l t w1 Hd1) as Habove;
      destruct (Search.findSimilarChunks a b c l t w1) as [[cs | e] w2]
  end.
  - destruct cs as [ | c0 rest].
    + apply (returns_tryCatch _ _ ScoresBounded (keywordSearch_bounded query options)).
      intros e. apply returns_ret. constructor.
    + refine (returns_bind _ _ ScoresBounded ScoresBounded _ _ w2).
      * apply assembleAll_bounded; [ | constructor].
        eapply Forall_impl; [ | exact Habove].
        intros [c s]. unfold AboveThreshold. simpl.
        destruct s as [ | s]; [trivial | ]. intros Hs.
        eapply Qle_lt_trans; eassumption.
      * intros results H. apply returns_ret. now apply ScoresBounded_top.
  - cbn [ret].
    apply (returns_tryCatch _ _ ScoresBounded (keywordSearch_bounded query options)).
    intros e'. apply returns_ret. constructor.
Qed.

Lemma search_bounded (query : string) (options : Search.SearchOptions) (w : World) :
  (0 <= Search.orDefault (1 # 2) (Search.similarityThreshold options))%Q ->
  (forall queryEmbedding,
      embeddings env (ticks w) openaiApiKey query = Ret queryEmbedding ->
      DistancesDefined env queryEmbedding w) ->
  match Search.search env openaiApiKey query options w with
  | (Ret results, _) => ScoresBounded results
  | (Throw _, _) => True
  end.
Proof.
  intros Ht Hd. unfold Search.search. unfold bind at 1.
  unfold Search.generateEmbedding, external.
  destruct (embeddings env (ticks w) openaiApiKey query) as [queryEmbedding | e] eqn:E;
    [ | exact I].
  specialize (Hd queryEmbedding eq_refl).
  destruct (Search.givenHandle (Search.channelId options)) as [handle | ].
  - unfold bind, Search.getChannelDbIdByHandle, select, statement.
    destruct (faults (tick w) (ticks (tick w))); [exact I | ].
    destruct (option_map Channel.id _) as [dbId | ]; [ | constructor].
    now apply searchFrom_bounded.
  - now apply searchFrom_bounded.
Qed.

End SearchScores.

(** ** Computations that cannot tell two databases apart *)

Section Simulation.

Variable R : Database -> Database -> Prop.

Lemma sim_ret {A} (a : A) : Sim R (ret a).
Proof. intros w w' H. split; [reflexivity | exact H]. Qed.

Lemma sim_bind {A B} (m : M A) (k : A -> M B) :
  Sim R m -> (forall a, Sim R (k a)) -> Sim R (bind m k).
Proof.
  intros Hm Hk w w' H. unfold bind.
  destruct (Hm w w' H) as [E H1].
  destruct (m w) as [[a | e] w1], (m w') as [[a' | e'] w1']; simpl in E, H1;
    try discriminate.
  - injection E as <-. now apply Hk.
  - injection E as <-. split; [reflexivity | exact H1].
Qed.

Lemma sim_tryCatch {A} (m : M A) (handler : string -> M A) :
  Sim R m -> (forall e, Sim R (handler e)) -> Sim R (tryCatch m handler).
Proof.
  intros Hm Hh w w' H. unfold tryCatch.
  destruct (Hm w w' H) as [E H1].
  destruct (m w) as [[a | e] w1], (m w') as [[a' | e'] w1']; simpl in E, H1;
    try discriminate.
  - split; [exact E | exact H1].
  - injection E as <-. now apply Hh.
Qed.

Lemma WorldSim_tick (w w' : World) : WorldSim R w w' -> WorldSim R (tick w) (tick w').
Proof.
  intros (Ht & Hf & Hd). repeat split; simpl.
  - now rewrite Ht.
  - intros k Hk. apply Hf. lia.
  - exact Hd.
Qed.

Lemma sim_select {A} (read : Database -> A) :
  (forall d d', R d d' -> read d = read d') -> Sim R (select read).
Proof.
  intros Hread w w' H. unfold select, statement.
  pose proof H as (Ht & Hf & Hd).
  rewrite <- Ht, <- (Hf (ticks w)) by lia.
  destruct (faults w (ticks w)); simpl.
  - split; [reflexivity | now apply WorldSim_tick].
  - split; [now rewrite (Hread _ _ Hd) | now apply WorldSim_tick].
Qed.

Hypothesis R_channels : forall d d', R d d' -> youtubeChannel d = youtubeChannel d'.
Hypothesis R_videos : forall d d', R d d' -> youtubeVideo d = youtubeVideo d'.
Hypothesis R_chunks : forall d d', R d d' -> transcriptChunk d = transcriptChunk d'.
Hypothesis R_join :
  forall d d', R d d' -> Search.keywordsWithChunk d = Search.keywordsWithChunk d'.
Hypothesis R_keywords : forall d d', R d d' -> videoKeyword d = videoKeyword d'.

Variable env : Env.

Lemma sim_getVideoById (videoId : Id) : Sim R (Search.getVideoById videoId).
Proof.
  apply sim_select. intros d d' H. now rewrite (R_videos _ _ H).
Qed.

Lemma sim_getChannelById (channelId : Id) : Sim R (Search.getChannelById channelId).
Proof.
  apply sim_select. intros d d' H. now rewrite (R_channels _ _ H).
Qed.

Lemma sim_getChannelDbIdByHandle (handle : string) :
  Sim R (Search.getChannelDbIdByHandle handle).
Proof.
  apply sim_select. intros d d' H. now rewrite (R_channels _ _ H).
Qed.

Lemma sim_keywordResults (queryKeywords : list string)
    (groups : list (Id * (Chunk.t * list string))) :
  forall searchResults,
    Sim R (Search.keywordResults queryKeywords groups searchResults).
Proof.
  induction groups as [ | [k [c keywords]] rest IH]; intros searchResults; simpl.
  - apply sim_ret.
  - apply sim_bind; [apply sim_getVideoById | ].
    intros [video | ]; [ | apply IH].
    apply sim_bind; [apply sim_getChannelById | ].
    intros [channel | ]; apply IH.
Qed.

Lemma sim_keywordSearchIn (query : string) (limit : nat) (channelDbId : option Id) :
  Sim R (Search.keywordSearchIn env query limit channelDbId).
Proof.
  unfold Search.keywordSearchIn.
  destruct (Query.extractKeywordsFromQuery query) as [ | first others].
  - apply sim_ret.
  - apply sim_bind.
    + apply sim_select. intros d d' H. now rewrite (R_join _ _ H).
    + intros results. apply sim_bind; [apply sim_keywordResults | ].
      intros searchResults. apply sim_ret.
Qed.

Lemma sim_keywordSearch (query : string) (options : Search.SearchOptions) :
  Sim R (Search.keywordSearch env query options).
Proof.
  unfold Search.keywordSearch.
  destruct (Search.givenHandle (Search.channelId options)) as [handle | ].
  - apply sim_bind; [apply sim_getChannelDbIdByHandle | ].
    intros [dbId | ]; [apply sim_keywordSearchIn | apply sim_ret].
  - apply sim_keywordSearchIn.
Qed.

Lemma sim_findSimilarChunks (queryEmbedding : Embedding) (channelDbId : option Id)
    (limit : nat) (threshold : Q) :
  Sim R (Search.findSimilarChunks env queryEmbedding channelDbId limit threshold).
Proof.
  apply sim_select. intros d d' H. unfold Search.chunksWithVideo.
  now rewrite (R_videos _ _ H), (R_chunks _ _ H).
Qed.

Lemma sim_findMatchingKeywords (chunkId : Id) (query : string) :
  Sim R (Search.findMatchingKeywords env chunkId query).
Proof.
  unfold Search.findMatchingKeywords.
  destruct (Query.extractKeywordsFromQuery query) as [ | first others].
  - apply sim_ret.
  - apply sim_select. intros d d' H. now rewrite (R_keywords _ _ H).
Qed.

Lemma sim_assemble (query : string) (includeKeywords : bool) (chunk : Chunk.t)
    (similarity : Number.t) :
  Sim R (Search.assemble env query includeKeywords chunk similarity).
Proof.
  unfold Search.assemble.
  apply sim_tryCatch; [ | intros e; apply sim_ret].
  apply sim_bind; [apply sim_getVideoById | ].
  intros [video | ]; [ | apply sim_ret].
  apply sim_bind; [apply sim_getChannelById | ].
  intros [channel | ]; [ | apply sim_ret].
  apply sim_bind.
  - destruct includeKeywords; [apply sim_findMatchingKeywords | apply sim_ret].
  - intros matched. apply sim_ret.
Qed.

Lemma sim_assembleAll (query : string) (includeKeywords : bool)
    (chunkSimilarities : list (Chunk.t * Number.t)) :
  forall results,
    Sim R (Search.assembleAll env query includeKeywords chunkSimilarities results).
Proof.
  induction chunkSimilarities as [ | [chunk similarity] rest IH];
    intros results; simpl.
  - apply sim_ret.
  - apply sim_bind; [apply sim_assemble | ]. intros r. apply IH.
Qed.

(** What [search] does after the query is logged. *)
Lemma sim_afterLog (query : string) (options : Search.SearchOptions)
    (queryEmbedding : Embedding) (channelDbId : option Id) :
  Sim R
    (bind (tryCatch
             (Search.findSimilarChunks env queryEmbedding channelDbId
                (Search.orDefault 10 (Search.limit options) * 2)
                (Search.orDefault (1 # 2)%Q (Search.similarityThreshold options)))
             (fun _ => ret []))
       (fun chunkSimilarities =>
          match chunkSimilarities with
          | [] => tryCatch (Search.keywordSearch env query options) (fun _ => ret [])
          | _ =>
              bind (Search.assembleAll env query
                      (Search.orDefault true (Search.includeKeywords options))
                      chunkSimilarities [])
                (fun results =>
                   ret (firstn (Search.orDefault 10 (Search.limit options))
                          (sortBy Search.byRelevance results)))
          end)).
Proof.
  apply sim_bind.
  - apply sim_tryCatch; [apply sim_findSimilarChunks | intros e; apply sim_ret].
  - intros [ | cs rest].
    + apply sim_tryCatch; [apply sim_keywordSearch | intros e; apply sim_ret].
    + apply sim_bind; [apply sim_assembleAll | intros results; apply sim_ret].
Qed.

End Simulation.

(** ** The fallback of the search and the logging of the query *)

Section SearchFallback.

Variable env : Env.
Variable openaiApiKey : string.

(** The logging of the query never throws. *)
Lemma logSearchQuery_returns (query : string) (queryEmbedding : Embedding)
    (channelId : option Id) (w : World) :
  fst (Search.logSearchQuery query queryEmbedding channelId w) = Ret tt.
Proof.
  unfold Search.logSearchQuery, tryCatch, statement.
  destruct channelId as [cid | ]; [ | reflexivity].
  destruct (faults w (ticks w)); reflexivity.
Qed.

(** Without a channel nothing is sent to the database. *)
Lemma logSearchQuery_no_channel (query : string) (queryEmbedding : Embedding)
    (w : World) :
  Search.logSearchQuery query queryEmbedding None w = (Ret tt, w).
Proof. reflexivity. Qed.

(** With a channel, one row is appended when the database accepts it. *)
Lemma logSearchQuery_channel (query : string) (queryEmbedding : Embedding)
    (cid : Id) (w : World) :
  faults w (ticks w) = false ->
  searchQuery (db (snd (Search.logSearchQuery query queryEmbedding (Some cid) w)))
  = searchQuery (db w)
    ++ [SearchQuery.mk (nextId w) cid query (Some queryEmbedding) 0 (Some 0%Z) (now w)].
Proof.
  intros F. unfold Search.logSearchQuery, tryCatch, statement.
  rewrite F. reflexivity.
Qed.

(** A rejected embedding request is the rejection of [search]. *)
Lemma search_embedding_throws (query : string) (options : Search.SearchOptions)
    (w : World) (e : string) :
  embeddings env (ticks w) openaiApiKey query = Throw e ->
  Search.search env openaiApiKey query options w = (Throw e, tick w).
Proof.
  intros H. unfold Search.search, bind, Search.generateEmbedding, external.
  rewrite H. reflexivity.
Qed.

(** When the vector search throws or finds nothing, the result is the one
    of the keyword search, or the empty list when that one throws. *)
Lemma searchFrom_falls_back (query : string) (options : Search.SearchOptions)
    (queryEmbedding : Embedding) (channelDbId : option Id) (w : World) :
  let vector :=
    Search.findSimilarChunks env queryEmbedding channelDbId
      (Search.orDefault 10 (Search.limit options) * 2)
      (Search.orDefault (1 # 2)%Q (Search.similarityThreshold options))
      (snd (Search.logSearchQuery query queryEmbedding channelDbId w)) in
  (fst vector = Ret [] \/ exists e, fst vector = Throw e) ->
  Search.searchFrom env query options queryEmbedding channelDbId w
  = match Search.keywordSearch env query options (snd vector) with
    | (Ret results, w') => (Ret results, w')
    | (Throw _, w') => (Ret [], w')
    end.
Proof.
  intros vector H. subst vector. unfold Search.searchFrom, bind.
  pose proof (logSearchQuery_returns query queryEmbedding channelDbId w) as Hlog.
  destruct (Search.logSearchQuery query queryEmbedding channelDbId w) as [o w1].
  cbn [fst snd] in *. subst o.
  unfold tryCatch at 1.
  match goal with
  | |- context [Search.findSimilarChunks ?a ?b ?c ?d ?t w1] =>
      destruct (Search.findSimilarChunks a b c d t w1) as [[cs | e] w2]
  end; cbn [fst snd] in *.
  - destruct H as [[= ->] | [e [=]]]. reflexivity.
  - reflexivity.
Qed.

End SearchFallback.

(** C1, as the claim states it, fails: with the embeddings endpoint down,
    [search] throws, while the keyword search of the same query and options
    returns a result. *)
Lemma search_throws_when_embedding_fails :
  fst (Search.search Sample.envOutage "sk-test" "Tell me about Barack Obama"
         Sample.noOptions Sample.world)
  = Throw "OpenAI API error: Bad Gateway"
  /\ exists r,
       fst (Search.keywordSearch Sample.envOutage "Tell me about Barack Obama"
              Sample.noOptions Sample.world) = Ret [r].
Proof. split; [reflexivity | eexists; vm_compute; reflexivity]. Qed.

(** C1, amended: when the vector similarity query of [search] throws or
    finds no chunk, [search] returns what the keyword search returns for the
    same query and options, or the empty list when the keyword search throws; it
    raises nothing then.  When the embedding request of the query itself
    throws, [search] rejects with that error, before any statement is sent to
    the database. *)
Theorem search_fallback (env : Env) (openaiApiKey query : string)
    (options : Search.SearchOptions) :
  (forall queryEmbedding channelDbId w,
      let vector :=
        Search.findSimilarChunks env queryEmbedding channelDbId
          (Search.orDefault 10 (Search.limit options) * 2)
          (Search.orDefault (1 # 2)%Q (Search.similarityThreshold options))
          (snd (Search.logSearchQuery query queryEmbedding channelDbId w)) in
      (fst vector = Ret [] \/ exists e, fst vector = Throw e) ->
      Search.searchFrom env query options queryEmbedding channelDbId w
      = match Search.keywordSearch env query options (snd vector) with
        | (Ret results, w') => (Ret results, w')
        | (Throw _, w') => (Ret [], w')
        end)
  /\ (forall w e,
         embeddings env (ticks w) openaiApiKey query = Throw e ->
         Search.search env openaiApiKey query options w = (Throw e, tick w)).
Proof.
  split.
  - intros queryEmbedding channelDbId w. apply searchFrom_falls_back.
  - intros w e. apply search_embedding_throws.
Qed.

(** An instance of both parts: the vector search finds nothing in the
    sample world, and the embeddings endpoint of [envOutage] is down. *)
Lemma search_fallback_witness :
  Search.searchFrom Sample.env "Barack Obama" Sample.noOptions [1%Q; 0%Q] None Sample.world
  = match Search.keywordSearch Sample.env "Barack Obama" Sample.noOptions
            (tick Sample.world) with
    | (Ret results, w') => (Ret results, w')
    | (Throw _, w') => (Ret [], w')
    end
  /\ Search.search Sample.envOutage "sk-test" "Barack Obama" Sample.noOptions Sample.world
     = (Throw "OpenAI API error: Bad Gateway", tick Sample.world).
Proof.
  split.
  - apply (proj1 (search_fallback Sample.env "sk-test" "Barack Obama" Sample.noOptions)
             [1%Q; 0%Q] None Sample.world).
    left. reflexivity.
  - apply (proj2 (search_fallback Sample.envOutage "sk-test" "Barack Obama"
                    Sample.noOptions)).
    reflexivity.
Defined.

(** ** The query log is not read by the search *)

Lemma SameButLog_join (d d' : Database) :
  SameButLog d d' -> Search.keywordsWithChunk d = Search.keywordsWithChunk d'.
Proof.
  intros (_ & Hv & Hc & Hk). unfold Search.keywordsWithChunk.
  now rewrite Hv, Hc, Hk.
Qed.

(** The outcome of [searchFrom] does not depend on whether the insert of
    the log row, which is its first statement when a channel is given, is
    rejected. *)
Lemma searchFrom_log_failure (env : Env) (query : string)
    (options : Search.SearchOptions) (queryEmbedding : Embedding) (cid : Id)
    (w : World) (f' : nat -> bool) :
  (forall k, k <> ticks w -> f' k = faults w k) ->
  fst (Search.searchFrom env query options queryEmbedding (Some cid) (set_faults f' w))
  = fst (Search.searchFrom env query options queryEmbedding (Some cid) w).
Proof.
  intros Hf.
  pose proof (sim_afterLog SameButLog
                (fun d d' H => proj1 H)
                (fun d d' H => proj1 (proj2 H))
                (fun d d' H => proj1 (proj2 (proj2 H)))
                SameButLog_join
                (fun d d' H => proj2 (proj2 (proj2 H)))
                env query options queryEmbedding (Some cid)) as Hsim.
  unfold Search.searchFrom.
  unfold bind at 1. unfold bind at 3.
  assert (Hlog : forall v : World,
             exists v1,
               Search.logSearchQuery query queryEmbedding (Some cid) v = (Ret tt, v1)
               /\ ticks v1 = S (ticks v) /\ faults v1 = faults v
               /\ SameButLog (db v) (db v1)).
  { intros v. unfold Search.logSearchQuery, tryCatch, statement.
    destruct (faults v (ticks v)); eexists; (split; [reflexivity | ]);
      simpl; repeat split; reflexivity. }
  destruct (Hlog (set_faults f' w)) as (v1 & -> & Ht1 & Hf1 & Hd1).
  destruct (Hlog w) as (v2 & -> & Ht2 & Hf2 & Hd2).
  apply Hsim. split; [ | split].
  - simpl in Ht1. congruence.
  - intros k Hk. rewrite Hf1, Hf2. simpl. apply Hf. simpl in Ht1. lia.
  - simpl in Hd1. destruct Hd1 as (A1 & A2 & A3 & A4), Hd2 as (B1 & B2 & B3 & B4).
    repeat split; congruence.
Qed.

(** The same for [search]: with a channel handle, the statements are the
    lookup of the channel and then the insert of the log row, after the
    embedding request. *)
Lemma search_log_failure (env : Env) (openaiApiKey query : string)
    (options : Search.SearchOptions) (handle : string) (w : World)
    (f' : nat -> bool) :
  Search.givenHandle (Search.channelId options) = Some handle ->
  (forall k, k <> ticks w + 2 -> f' k = faults w k) ->
  fst (Search.search env openaiApiKey query options (set_faults f' w))
  = fst (Search.search env openaiApiKey query options w).
Proof.
  intros Hh Hf. unfold Search.search. rewrite Hh.
  unfold bind at 1. unfold bind at 2.
  unfold Search.generateEmbedding, external.
  change (ticks (set_faults f' w)) with (ticks w).
  destruct (embeddings env (ticks w) openaiApiKey query) as [queryEmbedding | e];
    [ | reflexivity].
  unfold bind, Search.getChannelDbIdByHandle, select, statement.
  change (faults (tick (set_faults f' w)) (ticks (tick (set_faults f' w))))
    with (f' (S (ticks w))).
  change (faults (tick w) (ticks (tick w))) with (faults w (S (ticks w))).
  rewrite Hf by lia.
  destruct (faults w (S (ticks w))); [reflexivity | ].
  change (db (tick (tick (set_faults f' w)))) with (db w).
  change (db (tick (tick w))) with (db w).
  destruct (option_map Channel.id _) as [dbId | ]; [ | reflexivity].
  change (tick (tick (set_faults f' w))) with (set_faults f' (tick (tick w))).
  apply searchFrom_log_failure.
  intros k Hk. apply Hf. simpl in Hk. lia.
Qed.

(** C8, as the claim states it, fails: a call of [search] without a channel
    returns and leaves the table of logged queries empty. *)
Lemma search_without_channel_logs_nothing :
  exists results w',
    Search.search Sample.env "sk-test" "Barack Obama" Sample.noOptions Sample.world
    = (Ret results, w')
    /\ results <> [] /\ searchQuery (db w') = searchQuery (db Sample.world).
Proof.
  eexists _, _. split; [vm_compute; reflexivity | ].
  split; [discriminate | reflexivity].
Qed.

(** ** Video-level keywords and the keyword search *)

Lemma flat_map_filter_nil {A B} (f : A -> list B) (p : A -> bool) (l : list A) :
  (forall x, p x = false -> f x = []) ->
  flat_map f (filter p l) = flat_map f l.
Proof.
  intros H. induction l as [ | x rest IH]; simpl; [reflexivity | ].
  destruct (p x) eqn:E; simpl.
  - now rewrite IH.
  - now rewrite (H x E), IH.
Qed.

(** A keyword whose [chunkId] is null joins no chunk. *)
Lemma keywordsWithChunk_withoutVideoLevel (d : Database) :
  Search.keywordsWithChunk (withoutVideoLevel d) = Search.keywordsWithChunk d.
Proof.
  unfold Search.keywordsWithChunk, withoutVideoLevel. simpl.
  apply flat_map_filter_nil. intros k Hk. unfold chunkLevel in Hk.
  destruct (Keyword.chunkId k); [discriminate | ].
  induction (transcriptChunk d) as [ | c rest IH]; simpl; [reflexivity | exact IH].
Qed.

Lemma keywordsWithChunk_chunkId (d : Database) (k : Keyword.t) (c : Chunk.t) (v : Video.t) :
  In (k, c, v) (Search.keywordsWithChunk d) ->
  In k (videoKeyword d) /\ Keyword.chunkId k = Some (Chunk.id c).
Proof.
  unfold Search.keywordsWithChunk. intros H.
  apply in_flat_map in H as (k0 & Hk0 & H).
  apply in_flat_map in H as (c0 & Hc0 & H).
  apply in_map_iff in H as (v0 & [= <- <- <-] & _).
  apply filter_In_both in Hc0 as [_ Hc0].
  split; [exact Hk0 | ].
  destruct (Keyword.chunkId k0) as [i | ]; [ | discriminate].
  apply Nat.eqb_eq in Hc0. now subst.
Qed.

(** C9: the keyword search gives the same outcome, results and matched
    keywords included, when every video-level keyword (null [chunkId]) is
    deleted from the database: its candidates are the rows of the inner join
    of [VideoKeyword] with [TranscriptChunk] on [chunkId], and each of them
    has a keyword row whose [chunkId] is the identifier of its chunk. *)
Theorem keywordSearch_ignores_video_level (env : Env) (query : string)
    (options : Search.SearchOptions) (w : World) :
  fst (Search.keywordSearch env query options (set_db (withoutVideoLevel (db w)) w))
  = fst (Search.keywordSearch env query options w)
  /\ (forall k c v,
         In (k, c, v) (Search.keywordsWithChunk (db w)) ->
         In k (videoKeyword (db w)) /\ Keyword.chunkId k = Some (Chunk.id c)).
Proof.
  split.
  - symmetry.
    apply (sim_keywordSearch (fun d d' => d' = withoutVideoLevel d)).
    + intros d d' ->. reflexivity.
    + intros d d' ->. reflexivity.
    + intros d d' ->. symmetry. apply keywordsWithChunk_withoutVideoLevel.
    + repeat split.
  - intros k c v. apply keywordsWithChunk_chunkId.
Qed.

(** In the sample database the keyword [Obama] of the whole video has the
    highest confidence, and the search for [obama] matches through the
    keyword of the chunk only. *)
Example video_level_keyword_not_matched :
  exists r,
    fst (Search.keywordSearch Sample.env "obama" Sample.noOptions Sample.world)
    = Ret [r]
    /\ Search.matchedKeywords r = ["Barack Obama"].
Proof. eexists. split; vm_compute; reflexivity. Qed.

(** ** The bounds of the scores that [search] returns *)

(** C7, as the claim states it, fails: at the default threshold, the chunk
    of [worldZero], whose embedding has norm zero, is at the cosine distance
    [NaN] from every query; the database lets it pass the threshold, and
    [search] returns it with the relevance score [NaN]. *)
Lemma search_nan_score :
  exists r,
    fst (Search.search Sample.env "sk-test" "cats" Sample.noOptions Sample.worldZero)
    = Ret [r]
    /\ Search.relevanceScore r = Number.NaN.
Proof. eexists. split; vm_compute; reflexivity. Qed.

(** It fails with numbers as well: with a threshold of -2 the chunk of the
    sample world, whose cosine similarity to the query is -1, passes the
    threshold, and [search] returns it with a negative score. *)
Lemma search_negative_score :
  exists r s,
    fst (Search.search Sample.env "sk-test" "cats" Sample.lowThreshold Sample.world)
    = Ret [r]
    /\ Search.relevanceScore r = Number.num s /\ (s < 0)%Q.
Proof. eexists _, _. split; [ | split]; vm_compute; reflexivity. Qed.

(** C7, amended: when the configured [similarityThreshold] is not negative
    (the default 0.5 is not, and the request schemas of the callers accept
    0 to 1 only) and the cosine distance of every stored embedding to the
    embedding of the query is a number (neither vector has norm zero), every
    result that [search] returns, on the vector path or on the fallback path,
    has a relevance score that is a number between 0 and 1. *)
Theorem search_scores_in_unit_interval (env : Env) (openaiApiKey query : string)
    (options : Search.SearchOptions) (w : World) :
  (0 <= Search.orDefault (1 # 2) (Search.similarityThreshold options))%Q ->
  (forall queryEmbedding c e,
      embeddings env (ticks w) openaiApiKey query = Ret queryEmbedding ->
      In c (transcriptChunk (db w)) -> Chunk.embedding c = Some e ->
      cosine_distance env e queryEmbedding <> Number.NaN) ->
  match Search.search env openaiApiKey query options w with
  | (Ret results, _) =>
      Forall (fun r => exists s, Search.relevanceScore r = Number.num s
                                 /\ (0 <= s)%Q /\ (s <= 1)%Q) results
  | (Throw _, _) => True
  end.
Proof.
  intros Ht Hd.
  pose proof (search_bounded env openaiApiKey query options w Ht) as H.
  destruct (Search.search env openaiApiKey query options w) as [[results | e] w'];
    [ | exact I].
  eapply Forall_impl; [ | apply H].
  - intros r Hr. unfold Bounded in Hr.
    destruct (Search.relevanceScore r) as [ | s]; [contradiction | ].
    exists s. split; [reflexivity | exact Hr].
  - intros queryEmbedding E c e. now apply Hd.
Qed.

(** An instance on the vector path: the chunk of [worldNear] has the
    embedding of the query, its similarity 1 exceeds the default threshold,
    and the sum of the similarity and the boosts is cut at 1. *)
Lemma search_scores_in_unit_interval_witness :
  (exists r,
      Search.findSimilarChunks Sample.env [1%Q; 0%Q] None 20 (1 # 2) Sample.worldNear
      = (Ret [(Sample.chunkNear, Number.num 1)], tick Sample.worldNear)
      /\ fst (Search.search Sample.env "sk-test" "Barack Obama" Sample.noOptions
                Sample.worldNear) = Ret [r]
      /\ Search.chunk r = Sample.chunkNear
      /\ Search.relevanceScore r = Number.num 1)
  /\ match Search.search Sample.env "sk-test" "Barack Obama" Sample.noOptions
             Sample.worldNear with
     | (Ret results, _) =>
         Forall (fun r => exists s, Search.relevanceScore r = Number.num s
                                    /\ (0 <= s)%Q /\ (s <= 1)%Q) results
     | (Throw _, _) => True
     end.
Proof.
  split.
  - eexists. repeat split; vm_compute; reflexivity.
  - apply (search_scores_in_unit_interval Sample.env "sk-test" "Barack Obama"
             Sample.noOptions Sample.worldNear).
    + discriminate.
    + intros queryEmbedding c e [= <-] [<- | []] [= <-]. discriminate.
Defined.

(** ** The rounding to a double *)

Lemma roundHalfEven_floor (y : Q) :
  (Qfloor y <= JS.roundHalfEven y <= Qfloor y + 1)%Z.
Proof.
  unfold JS.roundHalfEven. cbv zeta.
  destruct (_ ?= _)%Q; [destruct (Z.even _) | | ]; lia.
Qed.

(** The rounding keeps the order with the integers. *)
Lemma roundHalfEven_ge (N : Z) (y : Q) :
  (inject_Z N <= y)%Q -> (N <= JS.roundHalfEven y)%Z.
Proof.
  intros H. apply Qfloor_resp_le in H. rewrite Qfloor_Z in H.
  pose proof (roundHalfEven_floor y). lia.
Qed.

Lemma roundHalfEven_le (N : Z) (y : Q) :
  (y <= inject_Z N)%Q -> (JS.roundHalfEven y <= N)%Z.
Proof.
  intros H. pose proof (Qfloor_resp_le _ _ H) as Hf. rewrite Qfloor_Z in Hf.
  destruct (Z.eq_dec (Qfloor y) N) as [E | E].
  - unfold JS.roundHalfEven. cbv zeta.
    assert (Hlt : (y - inject_Z (Qfloor y) < 1 # 2)%Q).
    { rewrite E. apply Qle_lt_trans with (y := 0%Q); [ | reflexivity].
      apply (Qplus_le_compat _ _ (- inject_Z N) (- inject_Z N)) in H;
        [ | apply Qle_refl].
      rewrite Qplus_opp_r in H. exact H. }
    destruct (Qcompare_spec (y - inject_Z (Qfloor y)) (1 # 2)) as [He | Hl | Hg].
    + rewrite He in Hlt. discriminate Hlt.
    + lia.
    + exfalso. apply (Qlt_irrefl (1 # 2)). eapply Qlt_trans; eassumption.
  - pose proof (roundHalfEven_floor y). lia.
Qed.

Lemma pow2_pos (n : Z) : (0 <= n)%Z -> (0 < inject_Z (2 ^ n))%Q.
Proof.
  intros H. change 0%Q with (inject_Z 0). rewrite <- Zlt_Qlt.
  apply Z.pow_pos_nonneg; lia.
Qed.

(** For an exponent that is not positive, the scaled rounding keeps the
    order with the integers. *)
Lemma round_scaled_le (x : Q) (e hi : Z) :
  (e <= 0)%Z -> (x <= inject_Z hi)%Q ->
  (JS.scale (inject_Z (JS.roundHalfEven (JS.scale x (- e)))) e <= inject_Z hi)%Q.
Proof.
  intros He Hx.
  assert (Hup : JS.scale x (- e) = (x * inject_Z (2 ^ (- e)))%Q).
  { unfold JS.scale. replace (0 <=? - e)%Z with true; [reflexivity | ].
    symmetry. apply Z.leb_le. lia. }
  rewrite Hup.
  assert (Hm : (JS.roundHalfEven (x * inject_Z (2 ^ (- e))) <= hi * 2 ^ (- e))%Z).
  { apply roundHalfEven_le. rewrite inject_Z_mult.
    apply Qmult_le_compat_r; [exact Hx | ].
    apply Qlt_le_weak. apply pow2_pos. lia. }
  unfold JS.scale. destruct (Z.leb_spec 0 e) as [H0 | H0].
  - assert (E : e = 0%Z) by lia. subst e. simpl in Hm |- *.
    rewrite Qmult_1_r. rewrite <- Zle_Qle. lia.
  - apply Qle_shift_div_r; [apply pow2_pos; lia | ].
    rewrite <- inject_Z_mult, <- Zle_Qle. exact Hm.
Qed.

Lemma round_scaled_ge (x : Q) (e lo : Z) :
  (e <= 0)%Z -> (inject_Z lo <= x)%Q ->
  (inject_Z lo <= JS.scale (inject_Z (JS.roundHalfEven (JS.scale x (- e)))) e)%Q.
Proof.
  intros He Hx.
  assert (Hup : JS.scale x (- e) = (x * inject_Z (2 ^ (- e)))%Q).
  { unfold JS.scale. replace (0 <=? - e)%Z with true; [reflexivity | ].
    symmetry. apply Z.leb_le. lia. }
  rewrite Hup.
  assert (Hm : (lo * 2 ^ (- e) <= JS.roundHalfEven (x * inject_Z (2 ^ (- e))))%Z).
  { apply roundHalfEven_ge. rewrite inject_Z_mult.
    apply Qmult_le_compat_r; [exact Hx | ].
    apply Qlt_le_weak. apply pow2_pos. lia. }
  unfold JS.scale. destruct (Z.leb_spec 0 e) as [H0 | H0].
  - assert (E : e = 0%Z) by lia. subst e. simpl in Hm |- *.
    rewrite Qmult_1_r. rewrite <- Zle_Qle. lia.
  - apply Qle_shift_div_l; [apply pow2_pos; lia | ].
    rewrite <- inject_Z_mult, <- Zle_Qle. exact Hm.
Qed.

(** A number of at most [2^52] has an exponent of at most 52. *)
Lemma floorLog2_le_52 (x : Q) :
  (x <= inject_Z (2 ^ 52))%Q -> (JS.floorLog2 x <= 52)%Z.
Proof.
  intros H. unfold JS.floorLog2. cbv zeta.
  assert (Hk : (Z.log2 (Qnum x) - Z.log2 (Z.pos (Qden x)) <= 52)%Z).
  { unfold Qle in H. cbn [Qnum Qden inject_Z] in H.
    rewrite Z.mul_1_r in H.
    apply Z.log2_le_mono in H.
    rewrite (Z.mul_comm (2 ^ 52)) in H.
    rewrite Z.log2_mul_pow2 in H by lia. lia. }
  destruct (Qle_bool _ _); lia.
Qed.

(** The double nearest to a number between two integers lies between
    them. *)
Lemma double_le (x : Q) (hi : Z) :
  (0 < x)%Q -> (x <= inject_Z hi)%Q -> (hi <= 2 ^ 52)%Z ->
  (JS.double x <= inject_Z hi)%Q.
Proof.
  intros Hpos Hx Hhi. unfold JS.double.
  apply Qgt_alt in Hpos. rewrite Hpos. cbv zeta.
  apply round_scaled_le; [ | exact Hx].
  assert (JS.floorLog2 x <= 52)%Z; [ | lia].
  apply floorLog2_le_52. eapply Qle_trans; [exact Hx | ].
  now rewrite <- Zle_Qle.
Qed.

Lemma double_ge (x : Q) (lo : Z) :
  (0 < lo)%Z -> (inject_Z lo <= x)%Q -> (x <= inject_Z (2 ^ 52))%Q ->
  (inject_Z lo <= JS.double x)%Q.
Proof.
  intros Hlo Hx Hhi. unfold JS.double.
  assert (Hpos : (0 < x)%Q).
  { eapply Qlt_le_trans; [ | exact Hx].
    change 0%Q with (inject_Z 0). now rewrite <- Zlt_Qlt. }
  apply Qgt_alt in Hpos. rewrite Hpos. cbv zeta.
  apply round_scaled_ge; [ | exact Hx].
  assert (JS.floorLog2 x <= 52)%Z; [ | lia].
  now apply floorLog2_le_52.
Qed.

(** The double nearest to a number that is not positive is not positive. *)
Lemma double_nonpos (x : Q) : (x <= 0)%Q -> (JS.double x <= 0)%Q.
Proof.
  intros H. unfold JS.double.
  destruct (x ?= 0)%Q eqn:E.
  - apply Qle_refl.
  - cbv zeta. set (e := (JS.floorLog2 (- x) - 52)%Z).
    assert (Hx : (0 <= - x)%Q).
    { apply Qlt_alt in E. apply Qlt_le_weak in E.
      apply Qopp_le_compat in E. exact E. }
    assert (Hs : forall q k, (0 <= q)%Q -> (0 <= JS.scale q k)%Q).
    { intros q k Hq. unfold JS.scale. destruct (0 <=? k)%Z eqn:Ek.
      - apply Qmult_le_0_compat; [exact Hq | ].
        apply Qlt_le_weak, pow2_pos. now apply Z.leb_le.
      - apply Qmult_le_0_compat; [exact Hq | ].
        apply Qinv_le_0_compat. apply Qlt_le_weak, pow2_pos.
        apply Z.leb_gt in Ek. lia. }
    assert (Hm : (0 <= JS.roundHalfEven (JS.scale (- x) (- e)))%Z).
    { apply (roundHalfEven_ge 0). apply Hs. exact Hx. }
    apply (Qopp_le_compat 0). apply Hs.
    change 0%Q with (inject_Z 0). now rewrite <- Zle_Qle.
  - apply Qgt_alt in E. exfalso. apply (Qlt_irrefl 0).
    eapply Qlt_le_trans; eassumption.
Qed.

(** A score that is at most 1 and whose double is above 0.5 has a double of
    at most 1. *)
Lemma double_score (s : Q) :
  (s <= 1)%Q -> (1 # 2 < JS.double s)%Q -> (JS.double s <= 1)%Q.
Proof.
  intros Hs Hd. destruct (Qlt_le_dec 0 s) as [Hpos | Hneg].
  - apply (double_le s 1 Hpos Hs). lia.
  - exfalso. apply double_nonpos in Hneg. apply (Qlt_irrefl (1 # 2)).
    eapply Qlt_le_trans; [exact Hd | ].
    eapply Qle_trans; [exact Hneg | discriminate].
Qed.

(** [Math.round(score * 100)] of a score above 0.5 and at most 1. *)
Lemma Math_round_percent (s : Q) :
  (1 # 2 < s)%Q -> (s <= 1)%Q ->
  (50 <= JS.Math_round (JS.times s 100) <= 100)%Z.
Proof.
  intros Hlo Hhi. unfold JS.times.
  assert (H50 : (inject_Z 50 <= s * 100)%Q).
  { apply Qlt_le_weak in Hlo.
    apply (Qmult_le_compat_r _ _ 100) in Hlo; [ | discriminate].
    eapply Qle_trans; [ | exact Hlo]. discriminate. }
  assert (H100 : (s * 100 <= inject_Z 100)%Q).
  { apply (Qmult_le_compat_r _ _ 100) in Hhi; [ | discriminate].
    eapply Qle_trans; [exact Hhi | discriminate]. }
  assert (Hpos : (0 < s * 100)%Q).
  { eapply Qlt_le_trans; [ | exact H50]. reflexivity. }
  pose proof (double_ge (s * 100) 50 ltac:(lia) H50
                ltac:(eapply Qle_trans; [exact H100 | discriminate])) as Hge.
  pose proof (double_le (s * 100) 100 Hpos H100 ltac:(lia)) as Hle.
  unfold JS.Math_round. split.
  - change 50%Z with (Qfloor (inject_Z 50)). apply Qfloor_resp_le.
    apply (Qplus_le_compat _ _ 0 (1 # 2)) in Hge; [ | discriminate].
    rewrite Qplus_0_r in Hge. exact Hge.
  - change 100%Z with (Qfloor (100 + (1 # 2))). apply Qfloor_resp_le.
    apply Qplus_le_compat; [exact Hle | apply Qle_refl].
Qed.

(** The score 0.575 is the double just below it, and so is its product by
    100: the confidence is 57, not 58. *)
Example confidence_of_0575 :
  JS.Math_round (JS.times (JS.double (575 # 1000)) 100) = 57%Z
  /\ JS.Math_round ((575 # 1000) * 100)%Q = 58%Z.
Proof. split; vm_compute; reflexivity. Qed.

(** ** The keywords persisted for a chunk *)

Lemma returns_external {A} (call : nat -> outcome A) (post : A -> Prop) :
  (forall k a, call k = Ret a -> post a) -> Returns (external call) post.
Proof.
  intros H w. unfold external. destruct (call (ticks w)) eqn:E; [ | exact I].
  now apply (H (ticks w)).
Qed.

Lemma Forall_mapSet {V} (P : V -> Prop) (m : list (string * V)) (key : string) (v : V) :
  Forall (fun kv => P (snd kv)) m -> P v ->
  Forall (fun kv => P (snd kv)) (Extract.mapSet m key v).
Proof.
  intros Hm Hv. induction Hm as [ | [k v0] rest H0 Hrest IH]; simpl.
  - constructor; [exact Hv | constructor].
  - destruct (String.eqb k key); constructor; auto.
Qed.

Lemma dedupe_Forall (P : NerHit -> Prop) (raw : list NerHit) :
  Forall P raw -> Forall (fun kv => P (snd kv)) (Extract.dedupe raw).
Proof.
  unfold Extract.dedupe.
  assert (G : forall acc, Forall (fun kv => P (snd kv)) acc -> Forall P raw ->
            Forall (fun kv : string * NerHit => P (snd kv))
              (fold_left (fun keywordMap keyword =>
                 let key := (JS.toLowerCase (word keyword) ++ "_" ++ entity keyword)%string in
                 match Extract.mapGet keywordMap key with
                 | None => Extract.mapSet keywordMap key keyword
                 | Some old =>
                     if Qlt_bool (score old) (score keyword)
                     then Extract.mapSet keywordMap key keyword
                     else keywordMap
                 end) raw acc)).
  { induction raw as [ | h rest IH]; intros acc Hacc Hraw; simpl; [exact Hacc | ].
    inversion Hraw; subst. apply IH; [ | assumption].
    destruct (Extract.mapGet acc _) as [old | ].
    - destruct (Qlt_bool (score old) (score h)); [ | exact Hacc].
      now apply Forall_mapSet.
    - now apply Forall_mapSet. }
  intros H. apply G; [constructor | exact H].
Qed.

(** The keywords kept by the extractor are hits of the pipeline, with a
    score above 0.5. *)
Lemma sortedKeywords_kept (P : NerHit -> Prop) (allResults : list NerHit) :
  Forall P allResults ->
  Forall (fun h => P h /\ (1 # 2 < score h)%Q) (Extract.sortedKeywords allResults).
Proof.
  intros H. unfold Extract.sortedKeywords. apply Forall_sortBy.
  apply Forall_map.
  apply (dedupe_Forall (fun h => P h /\ (1 # 2 < score h)%Q)).
  unfold Extract.rawKeywords. apply Forall_map.
  apply Forall_forall. intros h Hin.
  apply filter_In_both in Hin as [Hin Hs]. split.
  - rewrite Forall_forall in H. specialize (H h Hin). now destruct h.
  - simpl. now apply Qlt_bool_lt.
Qed.

Section Keywords.

Variable env : Env.
Hypothesis ner_scores : NerScoresAtMostOne env.
Variable transcript : string.

(** What one call of the pipeline on a window returns. *)
Lemma ner_hits (k : nat) (text : string) (hits : list NerHit) :
  In text (Extract.windows 1000 transcript) ->
  ner env k text = Ret hits ->
  Forall (ProbableHit env transcript) hits.
Proof.
  intros Hw. unfold ner.
  destruct (nerPipeline env k text) as [raw | e] eqn:E; [ | discriminate].
  intros [= <-]. apply Forall_map. apply Forall_forall. intros hit Hin.
  split.
  - exists k, text, raw, hit. auto.
  - simpl. apply double_score.
    pose proof (ner_scores k text raw E) as Hs.
    rewrite Forall_forall in Hs. now apply Hs.
Qed.

Lemma runNer_hits (chunks : list string) :
  (forall text, In text chunks -> In text (Extract.windows 1000 transcript)) ->
  forall allResults,
    Forall (ProbableHit env transcript) allResults ->
    Returns (Extract.runNer env chunks allResults)
      (Forall (ProbableHit env transcript)).
Proof.
  induction chunks as [ | chunkText rest IH]; intros Hw allResults Hall; simpl.
  - now apply returns_ret.
  - assert (Hrest : forall text, In text rest ->
                      In text (Extract.windows 1000 transcript))
      by (intros text Ht; apply Hw; now right).
    destruct (JS.truthy chunkText); [ | now apply IH].
    eapply returns_bind.
    + apply returns_external. intros k hits Hk.
      exact (ner_hits k chunkText hits (Hw chunkText (or_introl eq_refl)) Hk).
    + intros hits Hhits. apply IH; [exact Hrest | ]. apply Forall_app. now split.
Qed.

Lemma extractKeywordsFromTranscript_kept :
  Returns (Extract.extractKeywordsFromTranscript env transcript)
    (fun r => Forall (fun h => ProbableHit env transcript h /\ (1 # 2 < score h)%Q)
                (Extract.keywords r)).
Proof.
  unfold Extract.extractKeywordsFromTranscript.
  eapply returns_bind; [apply returns_any | ]. intros _ _.
  eapply returns_bind; [apply runNer_hits; [auto | constructor] | ].
  intros allResults H. apply returns_ret. simpl. now apply sortedKeywords_kept.
Qed.

End Keywords.

(** The extractor does not touch the database. *)
Lemma runNer_db (env : Env) (chunks : list string) :
  forall allResults w, db (snd (Extract.runNer env chunks allResults w)) = db w.
Proof.
  induction chunks as [ | chunkText rest IH]; intros allResults w; simpl.
  - reflexivity.
  - destruct (JS.truthy chunkText); [ | apply IH].
    unfold bind, external.
    destruct (ner env (ticks w) chunkText) as [hits | e]; [ | reflexivity].
    rewrite IH. reflexivity.
Qed.

Lemma extractKeywordsFromTranscript_db (env : Env) (transcript : string) (w : World) :
  db (snd (Extract.extractKeywordsFromTranscript env transcript w)) = db w.
Proof.
  unfold Extract.extractKeywordsFromTranscript, bind.
  assert (H : forall w0,
             db (snd ((fun w1 : World =>
                         if cachedNer w1 then (Ret tt, w1)
                         else match external (loadNer env) w1 with
                              | (Ret _, w') => (Ret tt, set_cachedNer true w')
                              | (Throw e, w') => (Throw e, w')
                              end) w0)) = db w0).
  { intros w0. cbv beta. destruct (cachedNer w0); [reflexivity | ].
    unfold external. destruct (loadNer env (ticks w0)); reflexivity. }
  specialize (H w). cbv beta in H.
  destruct (if cachedNer w then _ else _) as [[[] | e] w1]; simpl in H; [ | exact H].
  pose proof (runNer_db env (Extract.windows 1000 transcript) [] w1) as Hn.
  destruct (Extract.runNer env _ [] w1) as [[allResults | e] w2]; simpl in Hn |- *;
    congruence.
Qed.

Lemma drawIds_length {A} (rows : list (Id -> Timestamp -> A)) :
  forall id created, List.length (Indexer.drawIds rows id created) = List.length rows.
Proof.
  induction rows as [ | r rest IH]; intros id created; simpl; [reflexivity | ].
  now rewrite IH.
Qed.

Lemma drawIds_keywordRows (env : Env) (chunk : Chunk.t) (keywords : list NerHit) :
  Forall (fun h => ProbableHit env (Chunk.content chunk) h /\ (1 # 2 < score h)%Q)
    keywords ->
  forall id created,
    Forall (PersistedKeyword env chunk)
      (Indexer.drawIds (map (fun k => fun id created =>
           Keyword.mk id (Chunk.videoId chunk) (Some (Chunk.id chunk)) (word k)
             (Some (entity k)) (JS.Math_round (JS.times (score k) 100)) 1
             (JS.Math_round (JS.times (score k) 100)) created) keywords) id created).
Proof.
  induction 1 as [ | h rest [[Hhit Hhi] Hlo] Hrest IH]; intros id created; simpl.
  - constructor.
  - constructor; [ | apply IH].
    destruct Hhit as (k & text & hits & hit & Hw & Hk & Hin & ->).
    simpl in Hlo, Hhi |- *.
    split; [reflexivity | split; [ | split; [reflexivity | ]]].
    + apply Math_round_percent; auto.
    + exists k, text, hits, hit. repeat split; auto.
Qed.

(** The embedding step of [processChunk] leaves the keywords as they are. *)
Lemma embedding_step_keywords (env : Env) (chunk : Chunk.t) (w : World) :
  videoKeyword
    (db (snd (tryCatch
                (bind (Indexer.generateEmbedding env (Chunk.content chunk))
                   (fun embedding =>
                      modify (fun d =>
                        set_transcriptChunk
                          (map (fun c => if Chunk.id c =? Chunk.id chunk
                                         then Chunk.set_embedding (Some embedding) c
                                         else c) (transcriptChunk d)) d)))
                (fun _ => ret tt) w)))
  = videoKeyword (db w).
Proof.
  unfold tryCatch, bind, Indexer.generateEmbedding.
  destruct (OPENAI_API_KEY env) as [key | ]; [ | reflexivity].
  destruct (JS.truthy key); [ | reflexivity].
  unfold external.
  destruct (embeddings env (ticks w) key (Chunk.content chunk)) as [e | e];
    [ | reflexivity].
  unfold modify, statement. simpl.
  destruct (faults w (S (ticks w))); reflexivity.
Qed.

(** C10: whatever [processChunk] does for a chunk, the rows it adds to
    [VideoKeyword] are at most [MAX_KEYWORDS_PER_CHUNK] = 20, and each is the
    row of a hit that the pipeline returned on the content of the chunk, with
    a score above 0.5: it has the word and the entity of the hit, and its
    [confidence], equal to its [relevance], is [Math.round] of the product,
    as a double, of the score by 100; when the scores of the pipeline are at
    most 1, both lie between 50 and 100. *)
Theorem processChunk_keywords (env : Env) (chunk : Chunk.t) (w : World) :
  NerScoresAtMostOne env ->
  exists added,
    videoKeyword (db (snd (Indexer.processChunk env chunk w)))
    = videoKeyword (db w) ++ added
    /\ List.length added <= 20
    /\ Forall (fun row =>
         Keyword.confidence row = Keyword.relevance row
         /\ (50 <= Keyword.confidence row <= 100)%Z
         /\ Keyword.chunkId row = Some (Chunk.id chunk)
         /\ exists k text hits hit,
              In text (Extract.windows 1000 (Chunk.content chunk))
              /\ nerPipeline env k text = Ret hits /\ In hit hits
              /\ (1 # 2 < JS.double (score hit))%Q
              /\ Keyword.keyword row = word hit
              /\ Keyword.entityType row = Some (entity hit)
              /\ Keyword.confidence row
                 = JS.Math_round (JS.times (JS.double (score hit)) 100))
       added.
Proof.
  intros Hner. unfold Indexer.processChunk.
  unfold bind at 1.
  pose proof (extractKeywordsFromTranscript_kept env Hner (Chunk.content chunk) w) as Hkept.
  pose proof (extractKeywordsFromTranscript_db env (Chunk.content chunk) w) as Hdb.
  destruct (Extract.extractKeywordsFromTranscript env (Chunk.content chunk) w)
    as [[keywordResult | e] w1]; simpl in Hdb.
  2:{ exists []. simpl. rewrite Hdb, app_nil_r. repeat split; [simpl; lia | constructor]. }
  unfold bind at 1.
  assert (Hrows :
    Forall (fun h => ProbableHit env (Chunk.content chunk) h /\ (1 # 2 < score h)%Q)
      (firstn Indexer.MAX_KEYWORDS_PER_CHUNK (Extract.keywords keywordResult)))
    by now apply Forall_firstn.
  unfold Indexer.keywordRows.
  destruct (map _ (firstn Indexer.MAX_KEYWORDS_PER_CHUNK (Extract.keywords keywordResult)))
    as [ | row rows] eqn:Erows.
  - exists []. cbn [ret]. rewrite embedding_step_keywords, Hdb, app_nil_r.
    repeat split; [simpl; lia | constructor].
  - unfold Indexer.insertKeywords, statement.
    destruct (faults w1 (ticks w1)).
    + exists []. simpl. rewrite Hdb, app_nil_r. repeat split; [simpl; lia | constructor].
    + cbv beta iota. rewrite embedding_step_keywords. simpl.
      exists (Indexer.drawIds (row :: rows) (nextId w1) (now w1)).
      rewrite Hdb. split; [reflexivity | split].
      * rewrite drawIds_length, <- Erows, length_map.
        etransitivity; [apply firstn_le_length | ]. reflexivity.
      * rewrite <- Erows. apply (drawIds_keywordRows env chunk _ Hrows).
Qed.

(** For the sample chunk the pipeline returns the four sample hits: the
    rows added are the one of [Barack], 0.998, and the one of [Obama],
    0.505. *)
Lemma processChunk_keywords_witness :
  NerScoresAtMostOne Sample.envNer
  /\ map (fun row => (Keyword.keyword row, Keyword.entityType row,
                      Keyword.confidence row, Keyword.relevance row))
       (videoKeyword (db (snd (Indexer.processChunk Sample.envNer Sample.chunk2
                                 Sample.world))))
     = map (fun row => (Keyword.keyword row, Keyword.entityType row,
                        Keyword.confidence row, Keyword.relevance row))
         (videoKeyword (db Sample.world))
       ++ [("Barack", Some "B-PER", 100%Z, 100%Z); ("Obama", Some "I-PER", 51%Z, 51%Z)]
  /\ exists added,
       videoKeyword (db (snd (Indexer.processChunk Sample.envNer Sample.chunk2 Sample.world)))
       = videoKeyword (db Sample.world) ++ added
       /\ List.length added <= 20
       /\ Forall (fun row =>
            Keyword.confidence row = Keyword.relevance row
            /\ (50 <= Keyword.confidence row <= 100)%Z
            /\ Keyword.chunkId row = Some (Chunk.id Sample.chunk2)
            /\ exists k text hits hit,
                 In text (Extract.windows 1000 (Chunk.content Sample.chunk2))
                 /\ nerPipeline Sample.envNer k text = Ret hits /\ In hit hits
                 /\ (1 # 2 < JS.double (score hit))%Q
                 /\ Keyword.keyword row = word hit
                 /\ Keyword.entityType row = Some (entity hit)
                 /\ Keyword.confidence row
                    = JS.Math_round (JS.times (JS.double (score hit)) 100))
          added.
Proof.
  assert (H : NerScoresAtMostOne Sample.envNer).
  { intros k text hits [= <-]. repeat constructor; discriminate. }
  split; [exact H | split; [vm_compute; reflexivity | ]].
  apply (processChunk_keywords Sample.envNer Sample.chunk2 Sample.world H).
Defined.

(** The rows persisted for the sample chunk: the duplicate of lower score
    and the weak hit are dropped, 0.998 is rounded to 100 and 0.505 to 51. *)
Example processChunk_sample_rows :
  map (fun row => (Keyword.keyword row, Keyword.confidence row, Keyword.relevance row))
    (videoKeyword (db (snd (Indexer.processChunk Sample.envNer Sample.chunk2
                              Sample.world))))
  = [("Barack Obama", 95%Z, 95%Z); ("Obama", 99%Z, 99%Z);
     ("Barack", 100%Z, 100%Z); ("Obama", 51%Z, 51%Z)].
Proof. vm_compute. reflexivity. Qed.

(** ** The upserts of the index writer *)



Lemma existsb_false_filter {A} (p : A -> bool) (l : list A) :
  existsb p l = false -> filter p l = [].
Proof.
  induction l as [ | x rest IH]; simpl; [reflexivity | ].
  destruct (p x); simpl; [discriminate | exact IH].
Qed.








(** The two passes on the sample world, whose table has the row of the channel. *)
Example createChannelRecord_twice :
  map (fun c => (Channel.id c, Channel.channelId c, Channel.updatedAt c))
    (youtubeChannel
       (db (snd (Indexer.createChannelRecord "https://www.youtube.com/@veritasium"
                   "Veritasium"
                   (set_now 2000%Z
                      (snd (Indexer.createChannelRecord
                              "https://www.youtube.com/@veritasium" "Veritasium"
                              Sample.world)))))))
  = [(0, "veritasium", 2000%Z)].
Proof. vm_compute. reflexivity. Qed.

(** ** The progress trace of an indexing run *)

Lemma NonDecreasing_cons (a : Z) (l : list Z) :
  Forall (fun p => (a <= p)%Z) l -> NonDecreasing l -> NonDecreasing (a :: l).
Proof.
  intros Hall Hl. simpl. split; [ | exact Hl].
  destruct l as [ | b rest]; [exact I | ]. now inversion Hall.
Qed.

Lemma NonDecreasing_app (l1 l2 : list Z) (a b c d : Z) :
  NonDecreasing l1 -> NonDecreasing l2 ->
  Within a b l1 -> Within c d l2 -> (b <= c)%Z ->
  NonDecreasing (l1 ++ l2).
Proof.
  intros H1 H2 W1 W2 Hbc. induction l1 as [ | x rest IH]; simpl; [exact H2 | ].
  inversion W1 as [ | ? ? Hx Hrest]; subst. destruct H1 as [Hhd Htl].
  split; [ | now apply IH].
  destruct rest as [ | y rest']; simpl.
  - destruct l2 as [ | z l2']; [exact I | ].
    inversion W2 as [ | ? ? Hz _]; subst. lia.
  - exact Hhd.
Qed.

Lemma Within_weaken (lo hi lo' hi' : Z) (l : list Z) :
  Within lo hi l -> (lo' <= lo)%Z -> (hi <= hi')%Z -> Within lo' hi' l.
Proof.
  intros H Hlo Hhi. eapply Forall_impl; [ | exact H]. cbv beta. intros p Hp. lia.
Qed.

Lemma keeps_ret {A} (a : A) : Keeps (ret a).
Proof. intros w. reflexivity. Qed.

Lemma keeps_throw {A} (e : string) : Keeps (@throw A e).
Proof. intros w. reflexivity. Qed.

Lemma keeps_bind {A B} (m : M A) (k : A -> M B) :
  Keeps m -> (forall a, Keeps (k a)) -> Keeps (bind m k).
Proof.
  intros Hm Hk w. unfold bind. specialize (Hm w).
  destruct (m w) as [[a | e] w1]; simpl in Hm |- *; [ | exact Hm].
  now rewrite Hk.
Qed.

Lemma keeps_tryCatch {A} (m : M A) (handler : string -> M A) :
  Keeps m -> (forall e, Keeps (handler e)) -> Keeps (tryCatch m handler).
Proof.
  intros Hm Hh w. unfold tryCatch. specialize (Hm w).
  destruct (m w) as [[a | e] w1]; simpl in Hm |- *; [exact Hm | ].
  now rewrite Hh.
Qed.

Lemma keeps_statement {A} (run : M A) : Keeps run -> Keeps (statement run).
Proof.
  intros H w. unfold statement.
  destruct (faults w (ticks w)); [reflexivity | ]. now rewrite H.
Qed.

Lemma keeps_select {A} (read : Database -> A) : Keeps (select read).
Proof. apply keeps_statement. intros w. reflexivity. Qed.

Lemma keeps_modify (change : Database -> Database) : Keeps (modify change).
Proof. apply keeps_statement. intros w. reflexivity. Qed.

Lemma keeps_external {A} (call : nat -> outcome A) : Keeps (external call).
Proof. intros w. reflexivity. Qed.

Lemma keeps_promiseAll (calls : list (M unit)) :
  Forall Keeps calls -> Keeps (Indexer.promiseAll calls).
Proof.
  induction 1 as [ | call rest Hc Hrest IH]; intros w; simpl; [reflexivity | ].
  specialize (Hc w).
  destruct (call w) as [[[] | e] w1]; simpl in Hc |- *; now rewrite IH.
Qed.

Section ProgressOfIndexing.

Variable env : Env.

Lemma keeps_extract (transcript : string) :
  Keeps (Extract.extractKeywordsFromTranscript env transcript).
Proof.
  unfold Extract.extractKeywordsFromTranscript.
  apply keeps_bind.
  - intros w. destruct (cachedNer w); [reflexivity | ].
    unfold external. destruct (loadNer env (ticks w)); reflexivity.
  - intros _. apply keeps_bind; [ | intros a; apply keeps_ret].
    generalize (@nil NerHit).
    induction (Extract.windows 1000 transcript) as [ | c rest IH]; intros acc; simpl.
    + apply keeps_ret.
    + destruct (JS.truthy c); [ | apply IH].
      apply keeps_bind; [apply keeps_external | intros hits; apply IH].
Qed.

Lemma keeps_generateEmbedding (text : string) :
  Keeps (Indexer.generateEmbedding env text).
Proof.
  unfold Indexer.generateEmbedding.
  destruct (OPENAI_API_KEY env) as [key | ]; [ | apply keeps_throw].
  destruct (JS.truthy key); [apply keeps_external | apply keeps_throw].
Qed.

Lemma keeps_processChunk (chunk : Chunk.t) : Keeps (Indexer.processChunk env chunk).
Proof.
  unfold Indexer.processChunk.
  apply keeps_bind; [apply keeps_extract | ]. intros keywordResult.
  apply keeps_bind.
  - destruct (Indexer.keywordRows chunk _); [apply keeps_ret | ].
    apply keeps_statement. intros w. reflexivity.
  - intros _. apply keeps_tryCatch; [ | intros e; apply keeps_ret].
    apply keeps_bind; [apply keeps_generateEmbedding | ].
    intros embedding. apply keeps_modify.
Qed.

Lemma keeps_chunkBatches (chunks : list Chunk.t) :
  forall fuel i, Keeps (Indexer.chunkBatches env fuel i chunks).
Proof.
  induction fuel as [ | fuel IH]; intros i; simpl; [apply keeps_ret | ].
  destruct (i <? List.length chunks); [ | apply keeps_ret].
  apply keeps_bind; [ | intros _; apply IH].
  apply keeps_promiseAll. apply Forall_map. apply Forall_forall.
  intros c _. apply keeps_processChunk.
Qed.

Lemma keeps_insertChunk (videoDbId : Id) (chunkIndex : Z) (content : string)
    (startTime endTime tokenCount : Z) :
  Keeps (Indexer.insertChunk videoDbId chunkIndex content startTime endTime tokenCount).
Proof. apply keeps_statement. intros w. reflexivity. Qed.

Lemma keeps_segmentLoop (videoDbId : Id) (sentences : list string) :
  forall st, Keeps (Indexer.segmentLoop videoDbId sentences st).
Proof.
  induction sentences as [ | sentence rest IH]; intros st; cbn [Indexer.segmentLoop].
  - apply keeps_ret.
  - destruct (_ && _); [ | apply IH].
    apply keeps_bind; [apply keeps_insertChunk | intros chunk; apply IH].
Qed.

Lemma keeps_createTranscriptChunks (videoDbId : Id) (transcript : string) :
  Keeps (Indexer.createTranscriptChunks videoDbId transcript).
Proof.
  unfold Indexer.createTranscriptChunks.
  apply keeps_bind; [apply keeps_segmentLoop | ]. intros st.
  destruct (JS.truthy (Indexer.currentChunk st)); [ | apply keeps_ret].
  apply keeps_bind; [apply keeps_insertChunk | intros c; apply keeps_ret].
Qed.

Lemma keeps_upsertVideo (channelDbId : Id) (video : VideoInfo) (f : Fetched) :
  Keeps (Indexer.upsertVideo channelDbId video f).
Proof.
  apply keeps_statement. intros w. cbv zeta.
  destruct (existsb _ _); reflexivity.
Qed.

Lemma keeps_processVideoWithYtdlp (channelDbId : Id) (video : VideoInfo) :
  Keeps (Indexer.processVideoWithYtdlp env channelDbId video).
Proof.
  unfold Indexer.processVideoWithYtdlp.
  apply keeps_bind; [apply keeps_external | ].
  intros [f | ]; [ | apply keeps_ret].
  destruct (negb _); [apply keeps_ret | ].
  apply keeps_bind; [apply keeps_upsertVideo | ].
  intros [videoRecord | ]; [ | apply keeps_throw].
  apply keeps_bind; [apply keeps_createTranscriptChunks | ].
  intros chunks. apply keeps_chunkBatches.
Qed.

Lemma keeps_batchPromise (video : VideoInfo) : Keeps (Indexer.batchPromise env video).
Proof.
  unfold Indexer.batchPromise.
  apply keeps_tryCatch; [ | intros e; apply keeps_ret].
  intros w. destruct (channelDbId w) as [cid | ]; [ | reflexivity].
  apply (keeps_bind (Indexer.processVideoWithYtdlp env cid video) (fun _ => ret true)).
  - apply keeps_processVideoWithYtdlp.
  - intros _. apply keeps_ret.
Qed.

Lemma keeps_runBatch (batch : list VideoInfo) : Keeps (Indexer.runBatch env batch).
Proof.
  induction batch as [ | video rest IH]; simpl; [apply keeps_ret | ].
  apply keeps_bind; [apply keeps_batchPromise | ]. intros r.
  apply keeps_bind; [exact IH | intros rs; apply keeps_ret].
Qed.

End ProgressOfIndexing.

Lemma appends_keeps {A} (m : M A) (x : Z) : Keeps m -> Appends m x x.
Proof.
  intros H w. exists []. rewrite app_nil_r. repeat split; [apply H | constructor].
Qed.

Lemma appends_weaken {A} (m : M A) (lo hi lo' hi' : Z) :
  Appends m lo hi -> (lo' <= lo)%Z -> (hi <= hi')%Z -> Appends m lo' hi'.
Proof.
  intros H Hlo Hhi w. destruct (H w) as (added & E & Hnd & Hw).
  exists added. repeat split; try assumption. eapply Within_weaken; eassumption.
Qed.

Lemma appends_bind {A B} (m : M A) (k : A -> M B) (a b c : Z) :
  Appends m a b -> (forall x, Appends (k x) b c) -> (a <= b)%Z -> (b <= c)%Z ->
  Appends (bind m k) a c.
Proof.
  intros Hm Hk Hab Hbc w. unfold bind.
  destruct (Hm w) as (l1 & E1 & N1 & W1).
  destruct (m w) as [[x | e] w1]; simpl in E1 |- *.
  - destruct (Hk x w1) as (l2 & E2 & N2 & W2).
    exists (l1 ++ l2). rewrite E2, E1, app_assoc. split; [reflexivity | split].
    + eapply NonDecreasing_app; try eassumption. lia.
    + apply Forall_app. split.
      * eapply Within_weaken; [exact W1 | lia | lia].
      * eapply Within_weaken; [exact W2 | lia | lia].
  - exists l1. repeat split; try assumption.
    eapply Within_weaken; [exact W1 | lia | lia].
Qed.

(** [updateIndexStatus] stores the progress of the update, or nothing when
    it throws. *)
Lemma updateIndexStatus_cases (update : Indexer.IndexStatusUpdate) (w : World) :
  progressLog (snd (Indexer.updateIndexStatus update w)) = progressLog w
  \/ progressLog (snd (Indexer.updateIndexStatus update w))
     = progressLog w ++ [Indexer.u_progress update].
Proof.
  unfold Indexer.updateIndexStatus.
  destruct (channelDbId w) as [cid | ]; [ | now left].
  unfold statement. destruct (faults w (ticks w)); [now left | now right].
Qed.

Lemma appends_updateIndexStatus (update : Indexer.IndexStatusUpdate) :
  Appends (Indexer.updateIndexStatus update)
    (Indexer.u_progress update) (Indexer.u_progress update).
Proof.
  intros w. destruct (updateIndexStatus_cases update w) as [E | E].
  - exists []. rewrite app_nil_r. repeat split; [exact E | constructor].
  - exists [Indexer.u_progress update]. repeat split; [exact E | ].
    constructor; [lia | constructor].
Qed.

Lemma appends_createIndexStatusRecord (channelDbId : Id) :
  Appends (Indexer.createIndexStatusRecord channelDbId) 0 0.
Proof.
  intros w. unfold Indexer.createIndexStatusRecord, statement.
  destruct (faults w (ticks w)).
  - exists []. rewrite app_nil_r. repeat split. constructor.
  - exists [0%Z]. repeat split. constructor; [lia | constructor].
Qed.

Lemma batchProgress_ge_20 (processedCount total : nat) :
  (20 <= Indexer.batchProgress processedCount total)%Z.
Proof.
  unfold Indexer.batchProgress, JS.Math_round.
  change 20%Z with (Qfloor 20). apply Qfloor_resp_le.
  assert (H : (0 <= inject_Z (Z.of_nat processedCount) / inject_Z (Z.of_nat total) * 30)%Q).
  { apply Qmult_le_0_compat; [apply ratio_nonneg | discriminate]. }
  apply (Qplus_le_compat 20 20 0 _ (Qle_refl 20)) in H.
  apply (Qplus_le_compat _ _ 0 (1 # 2) H). discriminate.
Qed.

Lemma batchProgress_le_50 (processedCount total : nat) :
  processedCount <= total -> 0 < total ->
  (Indexer.batchProgress processedCount total <= 50)%Z.
Proof.
  intros Hp Ht. unfold Indexer.batchProgress, JS.Math_round.
  change 50%Z with (Qfloor (20 + 1 * 30 + (1 # 2))). apply Qfloor_resp_le.
  apply Qplus_le_compat; [ | apply Qle_refl].
  apply Qplus_le_compat; [apply Qle_refl | ].
  apply Qmult_le_compat_r; [ | discriminate].
  now apply ratio_le_1.
Qed.

Lemma batchProgress_mono (p p' total : nat) :
  p <= p' -> (Indexer.batchProgress p total <= Indexer.batchProgress p' total)%Z.
Proof.
  intros H. unfold Indexer.batchProgress, JS.Math_round.
  apply Qfloor_resp_le.
  apply Qplus_le_compat; [ | apply Qle_refl].
  apply Qplus_le_compat; [apply Qle_refl | ].
  apply Qmult_le_compat_r; [ | discriminate].
  unfold Qdiv. apply Qmult_le_compat_r.
  - rewrite <- Zle_Qle. lia.
  - apply Qinv_le_0_compat. apply count_nonneg.
Qed.

Lemma slice_length {A} (i n : nat) (l : list A) :
  List.length (JS.slice i (i + n) l) = Nat.min n (List.length l - i).
Proof.
  unfold JS.slice. rewrite length_firstn, length_skipn.
  replace (i + n - i) with n by lia. reflexivity.
Qed.

Section ProgressOfRun.

Variable env : Env.

(** The loop over the batches stores values between 20 and 50 that do not
    go down; [processedCount] never exceeds the number of videos. *)
Lemma batchLoop_appends (videos : list VideoInfo) :
  forall fuel i processedCount,
    processedCount <= i ->
    forall w, exists added,
      progressLog (snd (Indexer.batchLoop env fuel i processedCount videos w))
      = progressLog w ++ added
      /\ NonDecreasing added
      /\ Within (Indexer.batchProgress processedCount (List.length videos)) 50 added.
Proof.
  induction fuel as [ | fuel IH]; intros i processedCount Hp w.
  - exists []. simpl. rewrite app_nil_r. repeat split. constructor.
  - cbn [Indexer.batchLoop].
    destruct (i <? List.length videos) eqn:Hi.
    2:{ exists []. simpl. rewrite app_nil_r. repeat split. constructor. }
    apply Nat.ltb_lt in Hi.
    set (batch := JS.slice i (i + 3) videos).
    assert (Hlen : List.length batch = Nat.min 3 (List.length videos - i))
      by apply slice_length.
    set (processed' := processedCount + List.length batch).
    assert (Hp' : processed' <= i + 3) by (unfold processed'; lia).
    assert (Hn' : processed' <= List.length videos) by (unfold processed'; lia).
    unfold bind at 1.
    pose proof (keeps_runBatch env batch w) as Hk.
    destruct (Indexer.runBatch env batch w) as [[batchResults | e] w1]; simpl in Hk.
    2:{ exists []. simpl. rewrite app_nil_r. repeat split; [exact Hk | constructor]. }
    unfold bind at 1.
    set (update := Indexer.mkUpdate indexing_videos
                     (Indexer.batchProgress processed' (List.length videos))
                     (Z.of_nat (List.length videos)) (Z.of_nat processed') None).
    pose proof (updateIndexStatus_cases update w1) as Hu.
    assert (Hbound :
      (Indexer.batchProgress processedCount (List.length videos)
       <= Indexer.batchProgress processed' (List.length videos) <= 50)%Z).
    { split; [apply batchProgress_mono; unfold processed'; lia | ].
      apply batchProgress_le_50; lia. }
    destruct (Indexer.updateIndexStatus update w1) as [[[] | e] w2]; simpl in Hu.
    + destruct (IH (i + 3) processed' Hp' w2) as (added & E & Hnd & Hw).
      destruct Hu as [Hu | Hu].
      * exists added. rewrite E, Hu, Hk. repeat split; [exact Hnd | ].
        eapply Within_weaken; [exact Hw | lia | lia].
      * exists (Indexer.batchProgress processed' (List.length videos) :: added).
        rewrite E, Hu, Hk, <- app_assoc. split; [reflexivity | split].
        -- apply NonDecreasing_cons; [ | exact Hnd].
           eapply Forall_impl; [ | exact Hw]. cbv beta. intros p Hpp. lia.
        -- constructor; [lia | ].
           eapply Within_weaken; [exact Hw | lia | lia].
    + destruct Hu as [Hu | Hu].
      * exists []. simpl. rewrite app_nil_r, Hu, Hk. repeat split. constructor.
      * exists [Indexer.batchProgress processed' (List.length videos)].
        simpl. rewrite Hu, Hk. repeat split. constructor; [lia | constructor].
Qed.

Lemma appends_batchLoop (videos : list VideoInfo) (fuel : nat) :
  Appends (Indexer.batchLoop env fuel 0 0 videos) 20 50.
Proof.
  intros w.
  destruct (batchLoop_appends videos fuel 0 0 (le_n 0) w) as (added & E & Hnd & Hw).
  exists added. repeat split; try assumption.
  eapply Within_weaken; [exact Hw | apply batchProgress_ge_20 | lia].
Qed.

(** More fuel than the number of videos left changes nothing: the loop of
    [indexChannel] stops by its own test. *)
Lemma batchLoop_fuel (videos : list VideoInfo) :
  forall fuel1 fuel2 i processedCount,
    List.length videos <= i + fuel1 -> List.length videos <= i + fuel2 ->
    Indexer.batchLoop env fuel1 i processedCount videos
    = Indexer.batchLoop env fuel2 i processedCount videos.
Proof.
  induction fuel1 as [ | fuel1 IH]; intros fuel2 i processedCount H1 H2.
  - destruct fuel2 as [ | fuel2]; [reflexivity | ]. simpl.
    replace (i <? List.length videos) with false; [reflexivity | ].
    symmetry. apply Nat.ltb_ge. lia.
  - destruct fuel2 as [ | fuel2]; simpl.
    + replace (i <? List.length videos) with false; [reflexivity | ].
      symmetry. apply Nat.ltb_ge. lia.
    + destruct (i <? List.length videos); [ | reflexivity].
      f_equal. rewrite (IH fuel2 (i + 3)) by lia. reflexivity.
Qed.

End ProgressOfRun.

Lemma keeps_createChannelRecord (channelUrl channelName : string) :
  Keeps (Indexer.createChannelRecord channelUrl channelName).
Proof.
  unfold Indexer.createChannelRecord.
  destruct (Indexer.extractChannelIdFromUrl channelUrl) as [channelId | ];
    [ | apply keeps_throw].
  apply keeps_bind; [apply keeps_select | ]. intros existingChannel.
  destruct (0 <? List.length existingChannel);
    apply keeps_statement; intros w; reflexivity.
Qed.

Lemma keeps_markChannelAsIndexed (channelDbId : Id) :
  Keeps (Indexer.markChannelAsIndexed channelDbId).
Proof. apply keeps_statement. intros w. reflexivity. Qed.

(** C3, as the claim states it, fails: in the run on the sample channel
    whose statement [markChannelAsIndexed] is rejected, the progress values
    stored are 0, 10, 43, 50 and then the 0 of the failure. *)
Lemma indexChannel_failure_resets_progress :
  exists e w',
    Indexer.indexChannel Sample.envVideos "https://www.youtube.com/@veritasium"
      "Veritasium" None (initialWorld (fun k => k =? 18) 1000%Z) = (Throw e, w')
    /\ progressLog w' = [0; 10; 43; 50; 0]%Z
    /\ ~ NonDecreasing (progressLog w').
Proof.
  eexists _, _. split; [vm_compute; reflexivity | ].
  split; [reflexivity | ].
  simpl. intros (_ & _ & _ & H & _). lia.
Qed.

(** C3, amended: within one run of [indexChannel], the progress values
    stored by the updates of the [try] block (0 when the status row is
    created, 10, the value after each batch, 100) are between 0 and 100 and
    non-decreasing; when the run fails, the [catch] block stores at most one
    more value, which is 0, after them. *)
Theorem indexChannel_progress (env : Env) (channelUrl channelName : string)
    (maxVideos : option nat) (w : World) :
  exists stored last,
    progressLog (snd (Indexer.indexChannel env channelUrl channelName maxVideos w))
    = progressLog w ++ stored ++ last
    /\ NonDecreasing stored /\ Within 0 100 stored
    /\ match fst (Indexer.indexChannel env channelUrl channelName maxVideos w) with
       | Ret _ => last = []
       | Throw _ => last = [0%Z] \/ last = []
       end.
Proof.
  unfold Indexer.indexChannel, tryCatch.
  match goal with
  | |- context [match ?body w with _ => _ end] =>
      assert (Hbody : Appends body 0 100)
  end.
  { apply appends_bind with (b := 0%Z); [ | | lia | lia].
    { apply appends_keeps. apply keeps_createChannelRecord. }
    intros [channel | ].
    2:{ apply appends_weaken with (lo := 0%Z) (hi := 0%Z); [ | lia | lia].
        apply appends_keeps. apply keeps_throw. }
    apply appends_bind with (b := 0%Z); [ | | lia | lia].
    { apply appends_keeps. intros w0. reflexivity. }
    intros _.
    apply appends_bind with (b := 0%Z); [ | | lia | lia].
    { apply appends_createIndexStatusRecord. }
    intros _.
    apply appends_bind with (b := 0%Z); [ | | lia | lia].
    { apply appends_keeps. apply keeps_external. }
    intros allVideos.
    apply appends_bind with (b := 10%Z); [ | | lia | lia].
    { eapply appends_weaken; [apply appends_updateIndexStatus | simpl; lia | simpl; lia]. }
    intros _.
    apply appends_bind with (b := 50%Z); [ | | lia | lia].
    { eapply appends_weaken; [apply appends_batchLoop | lia | lia]. }
    intros _.
    apply appends_bind with (b := 50%Z); [ | | lia | lia].
    { apply appends_keeps. apply keeps_markChannelAsIndexed. }
    intros _.
    eapply appends_weaken; [apply appends_updateIndexStatus | simpl; lia | simpl; lia]. }
  destruct (Hbody w) as (stored & E & Hnd & Hw).
  match goal with
  | |- context [match ?body w with _ => _ end] => destruct (body w) as [[[] | e] w1]
  end; simpl in E.
  - exists stored, []. rewrite app_nil_r. simpl. repeat split; assumption.
  - unfold bind.
    match goal with
    | |- context [Indexer.updateIndexStatus ?u w1] =>
        pose proof (updateIndexStatus_cases u w1) as Hu;
        destruct (Indexer.updateIndexStatus u w1) as [[[] | e'] w2]
    end; simpl in Hu |- *.
    + destruct Hu as [Hu | Hu]; rewrite Hu, E.
      * exists stored, []. rewrite app_nil_r. repeat split; auto.
      * exists stored, [0%Z]. rewrite app_assoc. repeat split; auto.
    + destruct Hu as [Hu | Hu]; rewrite Hu, E.
      * exists stored, []. rewrite app_nil_r. repeat split; auto.
      * exists stored, [0%Z]. rewrite app_assoc. repeat split; auto.
Qed.

(** The run on the sample channel when nothing is rejected: four videos in
    two batches. *)
Example indexChannel_sample_progress :
  let r := Indexer.indexChannel Sample.envVideos "https://www.youtube.com/@veritasium"
             "Veritasium" None Sample.world0 in
  fst r = Ret tt /\ progressLog (snd r) = [0; 10; 43; 50; 100]%Z.
Proof. vm_compute. split; reflexivity. Qed.

(** The same for the loop of [processVideoWithYtdlp] over the batches of
    chunks. *)
Lemma chunkBatches_fuel (env : Env) (chunks : list Chunk.t) :
  forall fuel1 fuel2 i,
    List.length chunks <= i + fuel1 -> List.length chunks <= i + fuel2 ->
    Indexer.chunkBatches env fuel1 i chunks = Indexer.chunkBatches env fuel2 i chunks.
Proof.
  induction fuel1 as [ | fuel1 IH]; intros fuel2 i H1 H2.
  - destruct fuel2 as [ | fuel2]; [reflexivity | ]. simpl.
    replace (i <? List.length chunks) with false; [reflexivity | ].
    symmetry. apply Nat.ltb_ge. lia.
  - destruct fuel2 as [ | fuel2]; simpl.
    + replace (i <? List.length chunks) with false; [reflexivity | ].
      symmetry. apply Nat.ltb_ge. lia.
    + destruct (i <? List.length chunks); [ | reflexivity].
      f_equal. rewrite (IH fuel2 (i + 10)) by lia. reflexivity.
Qed.

(** * Further properties *)

(** ** The stable sort *)

Lemma HdRel_insertBy {A} (R : A -> A -> Prop) (before : A -> A -> bool)
    (y x : A) (l : list A) :
  R y x -> HdRel R y l -> HdRel R y (insertBy before x l).
Proof.
  intros Hyx Hl. destruct l as [ | z l']; simpl.
  - now constructor.
  - destruct (before x z); constructor; [exact Hyx | now inversion Hl].
Qed.

Lemma insertBy_Sorted {A} (R : A -> A -> Prop) (before : A -> A -> bool) :
  (forall x y, before x y = true -> R x y) ->
  (forall x y, before x y = false -> R y x) ->
  forall x l, Sorted R l -> Sorted R (insertBy before x l).
Proof.
  intros Ht Hf x l. induction 1 as [ | y l' Hs IH Hhd]; simpl.
  - repeat constructor.
  - destruct (before x y) eqn:E.
    + constructor; [now constructor | constructor; now apply Ht].
    + constructor; [exact IH | ]. apply HdRel_insertBy; [now apply Hf | exact Hhd].
Qed.

Lemma sortBy_Sorted {A} (R : A -> A -> Prop) (before : A -> A -> bool) :
  (forall x y, before x y = true -> R x y) ->
  (forall x y, before x y = false -> R y x) ->
  forall l, Sorted R (sortBy before l).
Proof.
  intros Ht Hf l. unfold sortBy.
  assert (G : forall acc, Sorted R acc ->
            Sorted R (fold_left (fun acc x => insertBy before x acc) l acc)).
  { induction l as [ | x rest IH]; intros acc Hacc; simpl; [exact Hacc | ].
    apply IH. now apply insertBy_Sorted. }
  apply G. constructor.
Qed.

Lemma insertBy_Permutation {A} (before : A -> A -> bool) (x : A) (l : list A) :
  Permutation (insertBy before x l) (x :: l).
Proof.
  induction l as [ | y l' IH]; simpl; [reflexivity | ].
  destruct (before x y); [reflexivity | ].
  rewrite IH. apply perm_swap.
Qed.

Lemma sortBy_Permutation {A} (before : A -> A -> bool) (l : list A) :
  Permutation (sortBy before l) l.
Proof.
  unfold sortBy.
  assert (G : forall acc,
            Permutation (fold_left (fun acc x => insertBy before x acc) l acc)
              (acc ++ l)).
  { induction l as [ | x rest IH]; intros acc; simpl.
    - now rewrite app_nil_r.
    - rewrite IH, insertBy_Permutation. simpl.
      apply Permutation_middle. }
  apply (G []).
Qed.

Lemma firstn_Sorted {A} (R : A -> A -> Prop) (n : nat) (l : list A) :
  Sorted R l -> Sorted R (firstn n l).
Proof.
  intros H. revert n. induction H as [ | x l' Hs IH Hhd]; intros [ | n]; simpl;
    try constructor.
  - apply IH.
  - destruct Hhd as [ | y l'' Hxy]; destruct n; simpl; constructor. exact Hxy.
Qed.

(** ** The results of a search *)

Lemma byRelevance_true (x y : Search.SearchResult) :
  Search.byRelevance x y = true ->
  NotAbove (Search.relevanceScore y) (Search.relevanceScore x).
Proof.
  unfold Search.byRelevance, NotAbove, Number.lt.
  destruct (Search.relevanceScore y) as [ | b], (Search.relevanceScore x) as [ | a];
    trivial.
  intros H. apply Qlt_le_weak. now apply Qlt_bool_lt.
Qed.

Lemma byRelevance_false (x y : Search.SearchResult) :
  Search.byRelevance x y = false ->
  NotAbove (Search.relevanceScore x) (Search.relevanceScore y).
Proof.
  unfold Search.byRelevance, NotAbove, Number.lt, Qlt_bool.
  destruct (Search.relevanceScore y) as [ | b], (Search.relevanceScore x) as [ | a];
    trivial.
  intros H. apply negb_false_iff in H. now apply Qle_bool_iff.
Qed.

Lemma top_Ranked (n : nat) (results : list Search.SearchResult) :
  Ranked (firstn n (sortBy Search.byRelevance results))
  /\ List.length (firstn n (sortBy Search.byRelevance results)) <= n.
Proof.
  split; [ | apply firstn_le_length].
  apply firstn_Sorted. apply sortBy_Sorted.
  - apply byRelevance_true.
  - intros x y H. now apply byRelevance_false.
Qed.

Lemma top_nil (n : nat) : Ranked [] /\ List.length (@nil Search.SearchResult) <= n.
Proof. split; [constructor | simpl; lia]. Qed.

Lemma map_Sorted {A B} (R : A -> A -> Prop) (R' : B -> B -> Prop) (f : A -> B) :
  (forall x y, R x y -> R' (f x) (f y)) ->
  forall l, Sorted R l -> Sorted R' (map f l).
Proof.
  intros H l. induction 1 as [ | x l' Hs IH Hhd]; simpl; constructor.
  - exact IH.
  - destruct Hhd as [ | y l'' Hxy]; simpl; constructor. now apply H.
Qed.

Lemma sql_lt_asym (x y : Number.t) :
  Number.sql_lt x y = true -> Number.sql_lt y x = false.
Proof.
  destruct x as [ | a], y as [ | b]; simpl; try easy.
  intros H. apply Qlt_bool_lt in H. unfold Qlt_bool.
  apply negb_false_iff. apply Qle_bool_iff. now apply Qlt_le_weak.
Qed.

(** Ranked results whose scores are numbers are in descending order. *)
Lemma Ranked_numbers (results : list Search.SearchResult) (scores : list Q) :
  Ranked results ->
  map Search.relevanceScore results = map Number.num scores ->
  Sorted (fun a b => (b <= a)%Q) scores.
Proof.
  intros H. revert scores.
  induction H as [ | r rest Hs IH Hhd]; intros [ | s scores] E;
    try discriminate; constructor.
  - apply IH. now injection E.
  - injection E as E1 E2.
    destruct Hhd as [ | r' rest' Hr]; destruct scores as [ | s' scores'];
      try discriminate; constructor.
    injection E2 as E2 _. unfold NotAbove in Hr. now rewrite E1, E2 in Hr.
Qed.

Section SearchResults.

Variable env : Env.
Variable openaiApiKey : string.

Lemma keywordSearch_ranked (query : string) (options : Search.SearchOptions) :
  Returns (Search.keywordSearch env query options)
    (fun results =>
       Ranked results
       /\ List.length results <= Search.orDefault 10 (Search.limit options)).
Proof.
  assert (Hin : forall channelDbId,
             Returns (Search.keywordSearchIn env query
                        (Search.orDefault 10 (Search.limit options)) channelDbId)
               (fun results =>
                  Ranked results
                  /\ List.length results <= Search.orDefault 10 (Search.limit options))).
  { intros channelDbId. unfold Search.keywordSearchIn.
    destruct (Query.extractKeywordsFromQuery query);
      [apply returns_ret; apply top_nil | ].
    eapply returns_bind; [apply returns_any | ]. intros results _.
    eapply returns_bind; [apply returns_any | ]. intros searchResults _.
    apply returns_ret. apply top_Ranked. }
  unfold Search.keywordSearch.
  destruct (Search.givenHandle (Search.channelId options)); [ | apply Hin].
  eapply returns_bind; [apply returns_any | ].
  intros [dbId | ] _; [apply Hin | apply returns_ret; apply top_nil].
Qed.

Lemma searchFrom_ranked (query : string) (options : Search.SearchOptions)
    (queryEmbedding : Embedding) (channelDbId : option Id) :
  Returns (Search.searchFrom env query options queryEmbedding channelDbId)
    (fun results =>
       Ranked results
       /\ List.length results <= Search.orDefault 10 (Search.limit options)).
Proof.
  unfold Search.searchFrom.
  eapply returns_bind; [apply returns_any | ]. intros _ _.
  eapply returns_bind; [apply returns_any | ].
  intros [ | cs rest] _.
  - apply returns_tryCatch; [apply keywordSearch_ranked | ].
    intros e. apply returns_ret. apply top_nil.
  - eapply returns_bind; [apply returns_any | ]. intros results _.
    apply returns_ret. apply top_Ranked.
Qed.

(** X1: whatever path it takes, [search] returns at most [limit] results
    (10 when the option is left out), ranked by descending relevance
    score: no result has a score above the score of the one before it.  A
    score that is [NaN], which only a [NaN] cosine distance gives, is above
    none and below none; when the scores are numbers, they are in
    descending order. *)
Theorem search_ranked (query : string) (options : Search.SearchOptions) (w : World) :
  match Search.search env openaiApiKey query options w with
  | (Ret results, _) =>
      List.length results <= Search.orDefault 10 (Search.limit options)
      /\ Sorted (fun a b => NotAbove (Search.relevanceScore b)
                                (Search.relevanceScore a)) results
      /\ (forall scores,
             map Search.relevanceScore results = map Number.num scores ->
             Sorted (fun a b => (b <= a)%Q) scores)
  | (Throw _, _) => True
  end.
Proof.
  assert (H : Returns (Search.search env openaiApiKey query options)
                (fun results =>
                   Ranked results
                   /\ List.length results <= Search.orDefault 10 (Search.limit options))).
  { unfold Search.search.
    eapply returns_bind; [apply returns_any | ]. intros queryEmbedding _.
    destruct (Search.givenHandle (Search.channelId options));
      [ | apply searchFrom_ranked].
    eapply returns_bind; [apply returns_any | ].
    intros [dbId | ] _; [apply searchFrom_ranked | apply returns_ret; apply top_nil]. }
  specialize (H w).
  destruct (Search.search env openaiApiKey query options w) as [[results | e] w'];
    [ | exact I].
  destruct H as [H1 H2]. split; [assumption | split; [assumption | ]].
  intros scores. now apply Ranked_numbers.
Qed.

End SearchResults.

Lemma hd_error_filter {A} (p : A -> bool) (l : list A) (x : A) :
  hd_error (filter p l) = Some x -> In x l /\ p x = true.
Proof.
  intros H. apply filter_In_both.
  destruct (filter p l) as [ | y rest]; [discriminate | ].
  injection H as ->. now left.
Qed.

Section SearchConsistency.

Variable env : Env.
Variable openaiApiKey : string.

Lemma getVideoById_id (videoId : Id) :
  Returns (Search.getVideoById videoId)
    (fun o => forall v, o = Some v -> Video.id v = videoId).
Proof.
  apply returns_select. intros d v H.
  apply hd_error_filter in H as [_ H]. now apply Nat.eqb_eq.
Qed.

Lemma assemble_consistent (query : string) (includeKeywords : bool) (chunk : Chunk.t)
    (similarity : Number.t) :
  Returns (Search.assemble env query includeKeywords chunk similarity)
    (fun r => forall x, r = Some x -> Consistent x).
Proof.
  unfold Search.assemble.
  apply returns_tryCatch; [ | intros e; apply returns_ret; discriminate].
  eapply returns_bind; [apply getVideoById_id | ].
  intros [video | ] Hv; [ | apply returns_ret; discriminate].
  eapply returns_bind; [apply returns_any | ].
  intros [channel | ] _; [ | apply returns_ret; discriminate].
  eapply returns_bind; [apply returns_any | ].
  intros matched _. apply returns_ret. intros x [= <-].
  repeat split. simpl. now apply Hv.
Qed.

Lemma assembleAll_consistent (query : string) (includeKeywords : bool)
    (chunkSimilarities : list (Chunk.t * Number.t)) :
  forall results,
    Forall Consistent results ->
    Returns (Search.assembleAll env query includeKeywords chunkSimilarities results)
      (Forall Consistent).
Proof.
  induction chunkSimilarities as [ | [chunk similarity] rest IH];
    intros results Hres; simpl.
  - now apply returns_ret.
  - eapply returns_bind; [apply assemble_consistent | ].
    intros [x | ] Hx; apply IH; auto.
    apply Forall_app. split; [assumption | ]. constructor; [now apply Hx | constructor].
Qed.

Lemma keywordResults_consistent (queryKeywords : list string)
    (groups : list (Id * (Chunk.t * list string))) :
  forall searchResults,
    Forall Consistent searchResults ->
    Returns (Search.keywordResults queryKeywords groups searchResults)
      (Forall Consistent).
Proof.
  induction groups as [ | [k [c keywords]] rest IH]; intros searchResults Hres; simpl.
  - now apply returns_ret.
  - eapply returns_bind; [apply getVideoById_id | ].
    intros [video | ] Hv; [ | now apply IH].
    eapply returns_bind; [apply returns_any | ].
    intros [channel | ] _; [ | now apply IH].
    apply IH. apply Forall_app. split; [assumption | ].
    constructor; [ | constructor]. repeat split. simpl. now apply Hv.
Qed.

Lemma top_consistent (n : nat) (results : list Search.SearchResult) :
  Forall Consistent results ->
  Forall Consistent (firstn n (sortBy Search.byRelevance results)).
Proof. intros H. apply Forall_firstn. now apply Forall_sortBy. Qed.

Lemma keywordSearch_consistent (query : string) (options : Search.SearchOptions) :
  Returns (Search.keywordSearch env query options) (Forall Consistent).
Proof.
  assert (Hin : forall limit channelDbId,
             Returns (Search.keywordSearchIn env query limit channelDbId)
               (Forall Consistent)).
  { intros limit channelDbId. unfold Search.keywordSearchIn.
    destruct (Query.extractKeywordsFromQuery query);
      [apply returns_ret; constructor | ].
    eapply returns_bind; [apply returns_any | ]. intros results _.
    eapply returns_bind; [apply keywordResults_consistent; constructor | ].
    intros searchResults H. apply returns_ret. now apply top_consistent. }
  unfold Search.keywordSearch.
  destruct (Search.givenHandle (Search.channelId options)); [ | apply Hin].
  eapply returns_bind; [apply returns_any | ].
  intros [dbId | ] _; [apply Hin | apply returns_ret; constructor].
Qed.

(** X2: in every result that [search] returns, the video is the one the
    chunk belongs to ([video.id] is [chunk.videoId]) and the start and end
    times are those of the chunk. *)
Theorem search_consistent (query : string) (options : Search.SearchOptions) (w : World) :
  match Search.search env openaiApiKey query options w with
  | (Ret results, _) =>
      Forall (fun r =>
          Video.id (Search.video r) = Chunk.videoId (Search.chunk r)
          /\ Search.startTime r = Chunk.startTime (Search.chunk r)
          /\ Search.endTime r = Chunk.endTime (Search.chunk r)) results
  | (Throw _, _) => True
  end.
Proof.
  assert (Hfrom : forall queryEmbedding channelDbId,
             Returns (Search.searchFrom env query options queryEmbedding channelDbId)
               (Forall Consistent)).
  { intros queryEmbedding channelDbId. unfold Search.searchFrom.
    eapply returns_bind; [apply returns_any | ]. intros _ _.
    eapply returns_bind; [apply returns_any | ].
    intros [ | cs rest] _.
    - apply returns_tryCatch; [apply keywordSearch_consistent | ].
      intros e. apply returns_ret. constructor.
    - eapply returns_bind; [apply assembleAll_consistent; constructor | ].
      intros results H. apply returns_ret. now apply top_consistent. }
  assert (H : Returns (Search.search env openaiApiKey query options) (Forall Consistent)).
  { unfold Search.search.
    eapply returns_bind; [apply returns_any | ]. intros queryEmbedding _.
    destruct (Search.givenHandle (Search.channelId options)); [ | apply Hfrom].
    eapply returns_bind; [apply returns_any | ].
    intros [dbId | ] _; [apply Hfrom | apply returns_ret; constructor]. }
  exact (H w).
Qed.

(** X3: the candidates of the vector search are rows of [TranscriptChunk]
    whose embedding is not null, each with the similarity
    [1 - cosine_distance] to the query; the similarity is above the threshold
    or, when the distance is [NaN], is [NaN]; there are at most [limit]
    candidates, in the order of descending similarity with the [NaN] ones
    last, and with a channel scope each belongs to a video of that
    channel. *)
Theorem findSimilarChunks_candidates (queryEmbedding : Embedding)
    (channelDbId : option Id) (limit : nat) (threshold : Q) (w : World) :
  match Search.findSimilarChunks env queryEmbedding channelDbId limit threshold w with
  | (Ret candidates, _) =>
      List.length candidates <= limit
      /\ Sorted (fun a b => SimilarityOrder (snd a) (snd b)) candidates
      /\ Forall (fun cs =>
           In (fst cs) (transcriptChunk (db w))
           /\ (exists e, Chunk.embedding (fst cs) = Some e
                         /\ snd cs = Number.sub (Number.num 1)
                                       (cosine_distance env e queryEmbedding))
           /\ match snd cs with
              | Number.num similarity => (threshold < similarity)%Q
              | Number.NaN => True
              end
           /\ (forall cid, channelDbId = Some cid ->
                 exists v, In v (youtubeVideo (db w))
                           /\ Video.id v = Chunk.videoId (fst cs)
                           /\ Video.channelId v = cid)) candidates
  | (Throw _, _) => True
  end.
Proof.
  unfold Search.findSimilarChunks, select, statement.
  destruct (faults w (ticks w)); [exact I | ]. cbv beta iota.
  change (db (tick w)) with (db w).
  split; [ | split].
  - rewrite length_map. apply firstn_le_length.
  - apply (map_Sorted
             (fun a b : Chunk.t * Video.t * Number.t =>
                Number.sql_lt (snd b) (snd a) = false)).
    + intros [[c1 v1] d1] [[c2 v2] d2]. simpl.
      destruct d1 as [ | a], d2 as [ | b]; simpl; try easy.
      unfold Qlt_bool. intros H. apply negb_false_iff in H.
      apply Qle_bool_iff in H. unfold Qminus.
      apply Qplus_le_compat; [apply Qle_refl | now apply Qopp_le_compat].
    + apply firstn_Sorted. apply sortBy_Sorted.
      * intros x y. apply sql_lt_asym.
      * intros x y H. exact H.
  - apply Forall_map. apply Forall_firstn. apply Forall_sortBy.
    apply Forall_forall. intros [[c v] dist] H.
    apply filter_In_both in H as [H Hkeep].
    apply in_flat_map in H as ([c0 v0] & Hjoin & H).
    simpl in H. destruct (Chunk.embedding c0) as [e | ] eqn:Ee; [ | contradiction].
    destruct H as [[= <- <- <-] | []].
    unfold Search.chunksWithVideo in Hjoin.
    apply in_flat_map in Hjoin as (c1 & Hc1 & Hjoin).
    apply in_map_iff in Hjoin as (v1 & [= <- <-] & Hv1).
    apply filter_In_both in Hv1 as [Hv1 Hid].
    apply andb_true_iff in Hkeep as [Hchan Hthr]. simpl.
    split; [exact Hc1 | split; [ | split]].
    + exists e. split; [exact Ee | reflexivity].
    + destruct (cosine_distance env e queryEmbedding) as [ | q]; [exact I | ].
      simpl in Hthr |- *. now apply Qlt_bool_lt.
    + intros cid ->. exists v1. apply Nat.eqb_eq in Hid, Hchan. auto.
Qed.

End SearchConsistency.

(** The chunk of [worldZero], whose embedding has norm zero, is a candidate
    at the default threshold, with the similarity [NaN]. *)
Example findSimilarChunks_nan_candidate :
  Search.findSimilarChunks Sample.env [1%Q; 0%Q] None 20 (1 # 2) Sample.worldZero
  = (Ret [(Sample.chunkZero, Number.NaN)], tick Sample.worldZero).
Proof. vm_compute. reflexivity. Qed.

(** ** What a search writes *)

Lemma reads_ret {A} (a : A) : Reads (ret a).
Proof. intros w. reflexivity. Qed.

Lemma reads_bind {A B} (m : M A) (k : A -> M B) :
  Reads m -> (forall a, Reads (k a)) -> Reads (bind m k).
Proof.
  intros Hm Hk w. unfold bind. specialize (Hm w).
  destruct (m w) as [[a | e] w1]; simpl in Hm |- *; [ | exact Hm].
  now rewrite Hk.
Qed.

Lemma reads_tryCatch {A} (m : M A) (handler : string -> M A) :
  Reads m -> (forall e, Reads (handler e)) -> Reads (tryCatch m handler).
Proof.
  intros Hm Hh w. unfold tryCatch. specialize (Hm w).
  destruct (m w) as [[a | e] w1]; simpl in Hm |- *; [exact Hm | ].
  now rewrite Hh.
Qed.

Lemma reads_select {A} (read : Database -> A) : Reads (select read).
Proof.
  intros w. unfold select, statement. destruct (faults w (ticks w)); reflexivity.
Qed.

Lemma reads_external {A} (call : nat -> outcome A) : Reads (external call).
Proof. intros w. reflexivity. Qed.

Section SearchWrites.

Variable env : Env.
Variable openaiApiKey : string.

Lemma reads_keywordResults (queryKeywords : list string)
    (groups : list (Id * (Chunk.t * list string))) :
  forall searchResults, Reads (Search.keywordResults queryKeywords groups searchResults).
Proof.
  induction groups as [ | [k [c keywords]] rest IH]; intros searchResults; simpl.
  - apply reads_ret.
  - apply reads_bind; [apply reads_select | ].
    intros [video | ]; [ | apply IH].
    apply reads_bind; [apply reads_select | ].
    intros [channel | ]; apply IH.
Qed.

Lemma reads_keywordSearch (query : string) (options : Search.SearchOptions) :
  Reads (Search.keywordSearch env query options).
Proof.
  assert (Hin : forall limit channelDbId,
             Reads (Search.keywordSearchIn env query limit channelDbId)).
  { intros limit channelDbId. unfold Search.keywordSearchIn.
    destruct (Query.extractKeywordsFromQuery query); [apply reads_ret | ].
    apply reads_bind; [apply reads_select | ]. intros results.
    apply reads_bind; [apply reads_keywordResults | ]. intros r. apply reads_ret. }
  unfold Search.keywordSearch.
  destruct (Search.givenHandle (Search.channelId options)); [ | apply Hin].
  apply reads_bind; [apply reads_select | ].
  intros [dbId | ]; [apply Hin | apply reads_ret].
Qed.

Lemma reads_assembleAll (query : string) (includeKeywords : bool)
    (chunkSimilarities : list (Chunk.t * Number.t)) :
  forall results,
    Reads (Search.assembleAll env query includeKeywords chunkSimilarities results).
Proof.
  induction chunkSimilarities as [ | [chunk similarity] rest IH];
    intros results; simpl.
  - apply reads_ret.
  - apply reads_bind; [ | intros r; apply IH].
    unfold Search.assemble.
    apply reads_tryCatch; [ | intros e; apply reads_ret].
    apply reads_bind; [apply reads_select | ].
    intros [video | ]; [ | apply reads_ret].
    apply reads_bind; [apply reads_select | ].
    intros [channel | ]; [ | apply reads_ret].
    apply reads_bind; [ | intros m; apply reads_ret].
    destruct includeKeywords; [ | apply reads_ret].
    unfold Search.findMatchingKeywords.
    destruct (Query.extractKeywordsFromQuery query);
      [apply reads_ret | apply reads_select].
Qed.

(** The database after [searchFrom] is the one after the logging. *)
Lemma searchFrom_db (query : string) (options : Search.SearchOptions)
    (queryEmbedding : Embedding) (channelDbId : option Id) (w : World) :
  db (snd (Search.searchFrom env query options queryEmbedding channelDbId w))
  = db (snd (Search.logSearchQuery query queryEmbedding channelDbId w)).
Proof.
  unfold Search.searchFrom. unfold bind at 1.
  pose proof (logSearchQuery_returns query queryEmbedding channelDbId w) as Hlog.
  destruct (Search.logSearchQuery query queryEmbedding channelDbId w) as [[[] | e] w1];
    [ | discriminate Hlog].
  cbn [snd].
  match goal with
  | |- db (snd (?rest w1)) = _ => assert (Hr : Reads rest)
  end.
  { apply reads_bind.
    - apply reads_tryCatch; [apply reads_select | intros e; apply reads_ret].
    - intros [ | cs rest].
      + apply reads_tryCatch; [apply reads_keywordSearch | intros e; apply reads_ret].
      + apply reads_bind; [apply reads_assembleAll | intros r; apply reads_ret]. }
  apply Hr.
Qed.

(** X4: a search never writes to the index: after [search], whatever its
    outcome, the tables of channels, videos, chunks, keywords and index
    statuses are the ones before, and the table of logged queries has at
    most one more row, which holds the query. *)
Theorem search_read_only (query : string) (options : Search.SearchOptions) (w : World) :
  let d' := db (snd (Search.search env openaiApiKey query options w)) in
  youtubeChannel d' = youtubeChannel (db w)
  /\ youtubeVideo d' = youtubeVideo (db w)
  /\ transcriptChunk d' = transcriptChunk (db w)
  /\ videoKeyword d' = videoKeyword (db w)
  /\ channelIndexStatus d' = channelIndexStatus (db w)
  /\ (searchQuery d' = searchQuery (db w)
      \/ exists row, searchQuery d' = searchQuery (db w) ++ [row]
                     /\ SearchQuery.query row = query).
Proof.
  change (LogOnly query (db w)
            (db (snd (Search.search env openaiApiKey query options w)))).
  assert (Hlog : forall queryEmbedding channelDbId v,
             LogOnly query (db v)
               (db (snd (Search.logSearchQuery query queryEmbedding channelDbId v)))).
  { intros queryEmbedding channelDbId v. unfold Search.logSearchQuery, tryCatch, statement.
    destruct channelDbId as [cid | ]; [ | unfold LogOnly; simpl; tauto].
    destruct (faults v (ticks v)); unfold LogOnly; simpl; [tauto | ].
    repeat split. right. eexists. split; reflexivity. }
  assert (Hsame : forall d, LogOnly query d d) by (intros d; unfold LogOnly; tauto).
  unfold Search.search. unfold bind at 1.
  unfold Search.generateEmbedding, external.
  destruct (embeddings env (ticks w) openaiApiKey query) as [queryEmbedding | e];
    [ | apply Hsame].
  destruct (Search.givenHandle (Search.channelId options)) as [handle | ].
  - unfold bind, Search.getChannelDbIdByHandle, select, statement.
    change (faults (tick w) (ticks (tick w))) with (faults w (S (ticks w))).
    destruct (faults w (S (ticks w))); [apply Hsame | ].
    destruct (option_map Channel.id _) as [dbId | ]; [ | apply Hsame].
    rewrite searchFrom_db. apply (Hlog queryEmbedding (Some dbId) (tick (tick w))).
  - rewrite searchFrom_db. apply (Hlog queryEmbedding None (tick w)).
Qed.

(** X5: when the channel handle of the options matches no channel, [search]
    returns the empty list right after the lookup of the channel: nothing is
    logged and no further statement is sent (the embedding request was
    answered and the lookup was not rejected). *)
Theorem search_unknown_channel (query : string) (options : Search.SearchOptions)
    (handle : string) (queryEmbedding : Embedding) (w : World) :
  Search.givenHandle (Search.channelId options) = Some handle ->
  (forall c, In c (youtubeChannel (db w)) -> Channel.channelId c <> handle) ->
  embeddings env (ticks w) openaiApiKey query = Ret queryEmbedding ->
  faults w (S (ticks w)) = false ->
  Search.search env openaiApiKey query options w = (Ret [], tick (tick w)).
Proof.
  intros Hh Hnone He Hf. unfold Search.search. rewrite Hh.
  unfold bind at 1. unfold Search.generateEmbedding, external. rewrite He.
  unfold bind, Search.getChannelDbIdByHandle, select, statement.
  change (faults (tick w) (ticks (tick w))) with (faults w (S (ticks w))).
  rewrite Hf. cbv beta iota. change (db (tick (tick w))) with (db w).
  replace (filter (fun c => String.eqb (Channel.channelId c) handle)
             (youtubeChannel (db w))) with (@nil Channel.t); [reflexivity | ].
  symmetry. apply existsb_false_filter.
  apply not_true_is_false. intros Hex.
  apply existsb_exists in Hex as (c & Hc & Heq).
  apply String.eqb_eq in Heq. exact (Hnone c Hc Heq).
Qed.

End SearchWrites.

Lemma search_unknown_channel_witness :
  Search.search Sample.env "sk-test" "Barack Obama"
    (Search.mkOptions (Some "nobody") None None None) Sample.world
  = (Ret [], tick (tick Sample.world)).
Proof.
  apply (search_unknown_channel Sample.env "sk-test" "Barack Obama"
           (Search.mkOptions (Some "nobody") None None None) "nobody" [1%Q; 0%Q]
           Sample.world).
  - reflexivity.
  - intros c [<- | []]. discriminate.
  - reflexivity.
  - reflexivity.
Defined.

(** ** Words and sentences *)

Lemma AllChars_impl (P Q : ascii -> Prop) (s : string) :
  (forall c, P c -> Q c) -> AllChars P s -> AllChars Q s.
Proof.
  intros H. induction s as [ | c s' IH]; simpl; [trivial | ].
  intros [Hc Hs]. split; auto.
Qed.

Lemma AllChars_all (P : ascii -> Prop) (s : string) :
  (forall c, P c) -> AllChars P s.
Proof. intros H. induction s as [ | c s' IH]; simpl; auto. Qed.

Lemma AllChars_append (P : ascii -> Prop) (a b : string) :
  AllChars P a -> AllChars P b -> AllChars P (a ++ b).
Proof.
  intros Ha Hb. induction a as [ | c a' IH]; simpl; [exact Hb | ].
  destruct Ha as [Hc Ha]. split; auto.
Qed.

Lemma AllChars_append_inv (P : ascii -> Prop) (a b : string) :
  AllChars P (a ++ b) -> AllChars P a /\ AllChars P b.
Proof.
  induction a as [ | c a' IH]; simpl; [tauto | ].
  intros [Hc H]. destruct (IH H). tauto.
Qed.

(** The pieces of a split hold no separator, and only characters of the
    string that is split. *)
Lemma splitRuns_chars (P : ascii -> Prop) (sep : ascii -> bool) (s : string) :
  forall cur,
    AllChars P cur -> AllChars (fun c => sep c = false -> P c) s ->
    Forall (AllChars P) (JS.splitRuns sep s cur).
Proof.
  induction s as [ | c s' IH]; intros cur Hcur Hs; simpl.
  - constructor; [exact Hcur | constructor].
  - destruct Hs as [Hc Hs]. destruct (sep c) eqn:E.
    + destruct s' as [ | c' s''].
      * constructor; [exact Hcur | ]. apply IH; [exact I | exact Hs].
      * destruct (sep c').
        -- now apply IH.
        -- constructor; [exact Hcur | ]. apply IH; [exact I | exact Hs].
    + apply IH; [ | exact Hs].
      apply AllChars_append; [exact Hcur | ]. simpl. auto.
Qed.

Lemma lowerChar_idem (c : ascii) : JS.lowerChar (JS.lowerChar c) = JS.lowerChar c.
Proof. destruct c as [[] [] [] [] [] [] [] []]; reflexivity. Qed.

Lemma toLowerCase_chars (s : string) :
  AllChars (fun c => JS.lowerChar c = c) (JS.toLowerCase s).
Proof.
  induction s as [ | c s' IH]; simpl; [exact I | ].
  split; [apply lowerChar_idem | exact IH].
Qed.

Lemma toLowerCase_fixed (s : string) :
  AllChars (fun c => JS.lowerChar c = c) s -> JS.toLowerCase s = s.
Proof.
  induction s as [ | c s' IH]; simpl; [reflexivity | ].
  intros [Hc Hs]. now rewrite Hc, IH.
Qed.

(** X6: every keyword that [extractKeywordsFromQuery] returns is longer than
    two characters, is no stop word, is in lower case and contains no white
    space. *)
Theorem query_keywords_normal (query word : string) :
  In word (Query.extractKeywordsFromQuery query) ->
  2 < String.length word
  /\ Query.isStopWord word = false
  /\ JS.toLowerCase word = word
  /\ AllChars (fun c => JS.isSpace c = false) word.
Proof.
  intros H. destruct (extractKeywordsFromQuery_kept query word H) as [Hlen Hstop].
  unfold Query.extractKeywordsFromQuery in H.
  apply filter_In_both in H as [H _]. apply filter_In_both in H as [H _].
  assert (Hall : Forall (AllChars (fun c => JS.isSpace c = false /\ JS.lowerChar c = c))
                   (JS.splitWhitespace (JS.toLowerCase query))).
  { apply splitRuns_chars; [exact I | ].
    eapply AllChars_impl; [ | apply toLowerCase_chars]. cbv beta. auto. }
  rewrite Forall_forall in Hall. specialize (Hall word H).
  repeat split; try assumption.
  - apply toLowerCase_fixed. eapply AllChars_impl; [ | exact Hall]. cbv beta. tauto.
  - eapply AllChars_impl; [ | exact Hall]. cbv beta. tauto.
Qed.

Lemma query_keywords_normal_witness :
  2 < String.length "barack"
  /\ Query.isStopWord "barack" = false
  /\ JS.toLowerCase "barack" = "barack"
  /\ AllChars (fun c => JS.isSpace c = false) "barack".
Proof.
  apply (query_keywords_normal "Tell me about Barack Obama" "barack").
  vm_compute. auto.
Defined.

Lemma AllChars_trimStart (P : ascii -> Prop) (s : string) :
  AllChars P s -> AllChars P (JS.trimStart s).
Proof.
  induction s as [ | c s' IH]; simpl; [trivial | ].
  intros [Hc Hs]. destruct (JS.isSpace c); [now apply IH | simpl; auto].
Qed.

Lemma AllChars_trimEnd (P : ascii -> Prop) (s : string) :
  AllChars P s -> AllChars P (JS.trimEnd s).
Proof.
  induction s as [ | c s' IH]; simpl; [trivial | ].
  intros [Hc Hs]. specialize (IH Hs).
  destruct (JS.trimEnd s') as [ | d t].
  - destruct (JS.isSpace c); simpl; auto.
  - simpl in *. tauto.
Qed.

Lemma trimEnd_idem (s : string) : JS.trimEnd (JS.trimEnd s) = JS.trimEnd s.
Proof.
  induction s as [ | c s' IH]; simpl; [reflexivity | ].
  destruct (JS.trimEnd s') as [ | d t] eqn:E.
  - destruct (JS.isSpace c) eqn:Ec; simpl; [reflexivity | ]. now rewrite Ec.
  - change (JS.trimEnd (String c (String d t)))
      with (match JS.trimEnd (String d t) with
            | EmptyString => if JS.isSpace c then EmptyString else String c EmptyString
            | t0 => String c t0
            end).
    now rewrite IH.
Qed.

Lemma trimStart_clean (s : string) : startsClean (JS.trimStart s).
Proof.
  induction s as [ | c s' IH]; simpl; [exact I | ].
  destruct (JS.isSpace c) eqn:E; [exact IH | exact E].
Qed.

Lemma trimStart_fixed (s : string) : startsClean s -> JS.trimStart s = s.
Proof. destruct s as [ | c s']; simpl; [reflexivity | ]. now intros ->. Qed.

Lemma trimEnd_clean (s : string) : startsClean s -> startsClean (JS.trimEnd s).
Proof.
  destruct s as [ | c s']; simpl; [trivial | ].
  intros Hc. destruct (JS.trimEnd s'); [rewrite Hc | ]; exact Hc.
Qed.

Lemma trim_idem (s : string) : JS.trim (JS.trim s) = JS.trim s.
Proof.
  unfold JS.trim.
  rewrite (trimStart_fixed (JS.trimEnd (JS.trimStart s))).
  - apply trimEnd_idem.
  - apply trimEnd_clean. apply trimStart_clean.
Qed.

(** X7: every sentence that [splitIntoSentences] returns is not empty,
    contains none of the marks [. ! ?] and has no white space at its ends
    (trimming it again changes nothing). *)
Theorem sentences_normal (text sentence : string) :
  In sentence (Indexer.splitIntoSentences text) ->
  sentence <> ""
  /\ JS.trim sentence = sentence
  /\ AllChars (fun c => Indexer.isSentenceEnd c = false) sentence.
Proof.
  unfold Indexer.splitIntoSentences. intros H.
  apply filter_In_both in H as [H Hlen].
  apply in_map_iff in H as (piece & <- & Hpiece).
  split; [ | split].
  - intros E. rewrite E in Hlen. discriminate.
  - apply trim_idem.
  - unfold JS.trim. apply AllChars_trimEnd. apply AllChars_trimStart.
    assert (Hall : Forall (AllChars (fun c => Indexer.isSentenceEnd c = false))
                     (JS.splitRuns Indexer.isSentenceEnd text "")).
    { apply splitRuns_chars; [exact I | ].
      apply AllChars_all. auto. }
    rewrite Forall_forall in Hall. now apply Hall.
Qed.

Lemma sentences_normal_witness :
  "Dogs are loyal" <> ""
  /\ JS.trim "Dogs are loyal" = "Dogs are loyal"
  /\ AllChars (fun c => Indexer.isSentenceEnd c = false) "Dogs are loyal".
Proof.
  apply (sentences_normal "Cats are great. Dogs are loyal. Birds can fly."
           "Dogs are loyal").
  vm_compute. auto.
Defined.

(** ** The overlap between two chunks *)

Lemma append_assoc_string (a b c : string) : ((a ++ b) ++ c = a ++ (b ++ c))%string.
Proof. induction a as [ | x a' IH]; simpl; [reflexivity | now rewrite IH]. Qed.

Lemma append_nil_r_string (a : string) : (a ++ "")%string = a.
Proof. induction a as [ | x a' IH]; simpl; [reflexivity | now rewrite IH]. Qed.

(** Joining the pieces of a split gives the string back. *)
Lemma join_splitOn (d : ascii) (s : string) :
  forall cur, JS.join (String d "") (JS.splitOn d s cur) = (cur ++ s)%string.
Proof.
  induction s as [ | c s' IH]; intros cur; simpl.
  - now rewrite append_nil_r_string.
  - destruct (Ascii.eqb c d) eqn:E.
    + apply Ascii.eqb_eq in E. subst c.
      specialize (IH ""). simpl in IH.
      destruct (JS.splitOn d s' "") as [ | p rest] eqn:Es.
      * destruct s'; simpl in Es; [discriminate | ].
        destruct (Ascii.eqb a d); discriminate.
      * change (JS.join (String d "") (cur :: p :: rest))
          with (cur ++ String d "" ++ JS.join (String d "") (p :: rest))%string.
        rewrite IH. reflexivity.
    + rewrite IH, append_assoc_string. reflexivity.
Qed.

Lemma splitOn_word (d : ascii) (word : string) :
  AllChars (fun c => Ascii.eqb c d = false) word ->
  forall s cur, JS.splitOn d (word ++ s) cur = JS.splitOn d s (cur ++ word).
Proof.
  induction word as [ | c word' IH]; intros Hw s cur; simpl.
  - now rewrite append_nil_r_string.
  - destruct Hw as [Hc Hw]. rewrite Hc, (IH Hw), append_assoc_string. reflexivity.
Qed.

(** Splitting the join of words without the separator gives the words
    back. *)
Lemma splitOn_join (d : ascii) (words : list string) :
  words <> [] ->
  Forall (AllChars (fun c => Ascii.eqb c d = false)) words ->
  JS.splitOn d (JS.join (String d "") words) "" = words.
Proof.
  induction words as [ | word rest IH]; intros Hne Hall; [congruence | ].
  inversion Hall as [ | ? ? Hw Hrest]; subst.
  destruct rest as [ | word' rest'].
  - simpl. rewrite <- (append_nil_r_string word) at 1.
    rewrite (splitOn_word d word Hw "" ""). reflexivity.
  - change (JS.join (String d "") (word :: word' :: rest'))
      with (word ++ String d "" ++ JS.join (String d "") (word' :: rest'))%string.
    rewrite (splitOn_word d word Hw). simpl.
    rewrite Ascii.eqb_refl. f_equal. apply IH; [discriminate | exact Hrest].
Qed.

Lemma splitOn_chars (d : ascii) (s : string) :
  forall cur,
    AllChars (fun c => Ascii.eqb c d = false) cur ->
    Forall (AllChars (fun c => Ascii.eqb c d = false)) (JS.splitOn d s cur).
Proof.
  induction s as [ | c s' IH]; intros cur Hcur; simpl.
  - constructor; [exact Hcur | constructor].
  - destruct (Ascii.eqb c d) eqn:E.
    + constructor; [exact Hcur | ]. now apply IH.
    + apply IH. apply AllChars_append; [exact Hcur | ]. simpl. auto.
Qed.

Lemma splitOn_nonempty (d : ascii) (s cur : string) : JS.splitOn d s cur <> [].
Proof.
  revert cur. induction s as [ | c s' IH]; intros cur; simpl; [discriminate | ].
  destruct (Ascii.eqb c d); [discriminate | apply IH].
Qed.

Lemma join_app (d : string) (a b : list string) :
  a <> [] -> b <> [] ->
  JS.join d (a ++ b) = (JS.join d a ++ d ++ JS.join d b)%string.
Proof.
  intros Ha Hb. induction a as [ | x a' IH]; [congruence | ].
  destruct a' as [ | y a''].
  - simpl. destruct b; [congruence | reflexivity].
  - change (JS.join d ((x :: y :: a'') ++ b))
      with (x ++ d ++ JS.join d ((y :: a'') ++ b))%string.
    rewrite IH by discriminate.
    change (JS.join d (x :: y :: a'')) with (x ++ d ++ JS.join d (y :: a''))%string.
    now rewrite !append_assoc_string.
Qed.

(** X8: the overlap text that seeds the next chunk is the end of the text
    of the chunk just closed: it is a suffix of it, and its words (the
    pieces between single spaces) are the last 12 words of the chunk, or all
    of them when there are fewer. *)
Theorem getOverlapText_suffix (text : string) :
  (exists before, text = (before ++ Indexer.getOverlapText text Indexer.CHUNK_OVERLAP)%string)
  /\ JS.splitSpace (Indexer.getOverlapText text Indexer.CHUNK_OVERLAP)
     = skipn (List.length (JS.splitSpace text) - 12) (JS.splitSpace text)
  /\ List.length (JS.splitSpace (Indexer.getOverlapText text Indexer.CHUNK_OVERLAP)) <= 12.
Proof.
  unfold Indexer.getOverlapText, JS.sliceLast.
  change (Z.to_nat (Indexer.CHUNK_OVERLAP / 4)) with 12. cbn [Nat.eqb].
  set (words := JS.splitSpace text).
  set (k := List.length words - 12).
  assert (Hpos : 1 <= List.length words).
  { unfold words, JS.splitSpace.
    destruct (JS.splitOn " " text "") eqn:E0; [ | simpl; lia].
    exfalso. exact (splitOn_nonempty _ _ _ E0). }
  assert (Hne : skipn k words <> []).
  { intros E. apply (f_equal (@List.length string)) in E.
    rewrite length_skipn in E. simpl in E. unfold k in E. lia. }
  assert (Hsplit : JS.splitSpace (JS.join " " (skipn k words)) = skipn k words).
  { unfold JS.splitSpace. apply splitOn_join; [exact Hne | ].
    apply Forall_forall. intros x Hx.
    assert (Hall := splitOn_chars " "%char text "" I).
    rewrite Forall_forall in Hall. apply Hall.
    fold (JS.splitSpace text). fold words.
    rewrite <- (firstn_skipn k words). apply in_or_app. now right. }
  split; [ | split].
  - assert (Ht : text = JS.join " " words).
    { unfold words, JS.splitSpace. now rewrite join_splitOn. }
    destruct (firstn k words) as [ | x xs] eqn:Ef.
    + exists "". rewrite <- (firstn_skipn k words) in Ht at 1. rewrite Ef in Ht.
      exact Ht.
    + exists (JS.join " " (firstn k words) ++ " ")%string.
      rewrite <- (firstn_skipn k words) in Ht at 1.
      rewrite join_app in Ht; [ | rewrite Ef; discriminate | exact Hne].
      rewrite append_assoc_string. exact Ht.
  - exact Hsplit.
  - rewrite Hsplit, length_skipn. unfold k. lia.
Qed.

(** ** The chunks of a video *)

Lemma endOf_15 (startTime currentTokens : Z) :
  Indexer.endOf startTime currentTokens = (startTime + 15 * currentTokens)%Z.
Proof.
  unfold Indexer.endOf. f_equal.
  rewrite (Qfloor_comp _ (inject_Z (15 * currentTokens))).
  - apply Qfloor_Z.
  - unfold Qeq, Qdiv, Qmult, Qinv, inject_Z. cbn -[Z.mul]. lia.
Qed.

Lemma estimateTokenCount_positive (text : string) :
  JS.truthy text = true -> (1 <= Indexer.estimateTokenCount text)%Z.
Proof.
  intros H. unfold Indexer.estimateTokenCount.
  set (x := (inject_Z (Z.of_nat (String.length text)) / 4)%Q).
  assert (Hx : (0 < x)%Q).
  { unfold x. apply Qlt_shift_div_l; [reflexivity | ].
    rewrite Qmult_0_l. change 0%Q with (inject_Z 0). rewrite <- Zlt_Qlt.
    destruct text; [discriminate | simpl; lia]. }
  assert (Hc : (0 < inject_Z (Qceiling x))%Q).
  { eapply Qlt_le_trans; [exact Hx | apply Qle_ceiling]. }
  change 0%Q with (inject_Z 0) in Hc. rewrite <- Zlt_Qlt in Hc. lia.
Qed.

Lemma Numbered_snoc (videoDbId : Id) (cs : list Chunk.t) (c : Chunk.t) :
  forall i,
    Numbered videoDbId i cs -> SegmentOf videoDbId (i + List.length cs) c ->
    Numbered videoDbId i (cs ++ [c]).
Proof.
  induction cs as [ | c0 rest IH]; intros i Hcs Hc; simpl in *.
  - rewrite Nat.add_0_r in Hc. tauto.
  - destruct Hcs as [H0 Hrest]. split; [exact H0 | ].
    apply IH; [exact Hrest | ]. now rewrite Nat.add_succ_l, <- Nat.add_succ_r.
Qed.

Lemma Numbered_nth (videoDbId : Id) (cs : list Chunk.t) :
  forall i k c,
    Numbered videoDbId i cs -> nth_error cs k = Some c -> SegmentOf videoDbId (i + k) c.
Proof.
  induction cs as [ | c0 rest IH]; intros i k c Hcs Hk.
  - destruct k; discriminate.
  - destruct Hcs as [H0 Hrest]. destruct k as [ | k]; simpl in Hk.
    + injection Hk as <-. now rewrite Nat.add_0_r.
    + rewrite Nat.add_succ_r, <- Nat.add_succ_l. now apply IH.
Qed.

(** The loop persists each chunk it closes: the table grows by the chunks
    of the state, numbered from 0, and nothing else changes. *)
Lemma segmentLoop_persists (videoDbId : Id) (d0 : Database) (sentences : list string) :
  forall (st : Indexer.Segmenter) (w : World),
    SegmenterCounts videoDbId st ->
    db w = set_transcriptChunk (transcriptChunk d0 ++ Indexer.chunks st) d0 ->
    Forall (fun s => JS.truthy s = true) sentences ->
    match Indexer.segmentLoop videoDbId sentences st w with
    | (Ret st', w') =>
        SegmenterCounts videoDbId st'
        /\ db w' = set_transcriptChunk (transcriptChunk d0 ++ Indexer.chunks st') d0
    | (Throw _, w') =>
        exists done,
          db w' = set_transcriptChunk (transcriptChunk d0 ++ done) d0
          /\ Numbered videoDbId 0 done
    end.
Proof.
  induction sentences as [ | sentence rest IH]; intros st w Hinv Hdb Hall.
  - simpl. split; assumption.
  - inversion Hall as [ | ? ? Hs Hrest]; subst.
    destruct Hinv as (Hnum & Hidx & Hnn & Htok).
    cbn [Indexer.segmentLoop].
    destruct ((Indexer.CHUNK_SIZE
               <? Indexer.currentTokens st + Indexer.estimateTokenCount sentence)%Z
              && JS.truthy (Indexer.currentChunk st)) eqn:Hflush.
    + apply andb_true_iff in Hflush as [_ Htruthy].
      unfold bind, Indexer.insertChunk, statement.
      destruct (faults w (ticks w)).
      * exists (Indexer.chunks st). split; [exact Hdb | exact Hnum].
      * cbv beta iota.
        match goal with
        | |- context [Indexer.segmentLoop videoDbId rest ?st1 ?w1] =>
            specialize (IH st1 w1)
        end.
        apply IH; [ | | exact Hrest].
        -- split; [ | split; [ | split]];
             cbn [Indexer.chunks Indexer.chunkIndex
                  Indexer.currentChunk Indexer.currentTokens].
           ++ apply Numbered_snoc; [exact Hnum | ].
              repeat split; simpl; try assumption.
              ** now apply Htok.
              ** apply endOf_15.
           ++ rewrite length_app, Hidx. simpl. lia.
           ++ apply estimateTokenCount_nonneg.
           ++ intros _. apply estimateTokenCount_positive.
              repeat apply truthy_append_r; first [exact Hs | reflexivity].
        -- simpl. rewrite Hdb. unfold set_transcriptChunk. simpl.
           rewrite app_assoc. reflexivity.
    + match goal with
      | |- context [Indexer.segmentLoop videoDbId rest ?st1 w] =>
          specialize (IH st1 w)
      end.
      apply IH; [ | exact Hdb | exact Hrest].
      pose proof (estimateTokenCount_positive sentence Hs).
      split; [exact Hnum | split; [exact Hidx | split]]; simpl; [lia | ].
      intros _. lia.
Qed.

Lemma set_transcriptChunk_same (d : Database) :
  set_transcriptChunk (transcriptChunk d ++ []) d = d.
Proof. destruct d. unfold set_transcriptChunk. simpl. now rewrite app_nil_r. Qed.

Lemma createTranscriptChunks_persists (videoDbId : Id) (transcript : string) (w : World) :
  match Indexer.createTranscriptChunks videoDbId transcript w with
  | (Ret chunks, w') =>
      Numbered videoDbId 0 chunks
      /\ db w' = set_transcriptChunk (transcriptChunk (db w) ++ chunks) (db w)
  | (Throw _, w') =>
      exists done,
        db w' = set_transcriptChunk (transcriptChunk (db w) ++ done) (db w)
        /\ Numbered videoDbId 0 done
  end.
Proof.
  unfold Indexer.createTranscriptChunks, bind.
  set (st0 := Indexer.mkSegmenter [] "" 0 0 0).
  assert (H0 : SegmenterCounts videoDbId st0).
  { repeat split; simpl; try lia; try discriminate. }
  assert (Hdb0 : db w = set_transcriptChunk (transcriptChunk (db w) ++ Indexer.chunks st0)
                          (db w))
    by (symmetry; apply set_transcriptChunk_same).
  pose proof (segmentLoop_persists videoDbId (db w)
                (Indexer.splitIntoSentences transcript) st0 w H0 Hdb0
                (splitIntoSentences_truthy transcript)) as H.
  destruct (Indexer.segmentLoop videoDbId _ st0 w) as [[st | e] w1]; [ | exact H].
  destruct H as ((Hnum & Hidx & Hnn & Htok) & Hdb).
  destruct (JS.truthy (Indexer.currentChunk st)) eqn:T; [ | now split].
  unfold Indexer.insertChunk, statement.
  destruct (faults w1 (ticks w1)).
  - exists (Indexer.chunks st). now split.
  - cbv beta iota. cbn [ret]. split.
    + apply Numbered_snoc; [exact Hnum | ].
      repeat split; simpl; try assumption.
      * now apply Htok.
      * apply endOf_15.
    + simpl. rewrite Hdb. unfold set_transcriptChunk. simpl.
      rewrite app_assoc. reflexivity.
Qed.

(** X9: in the chunks that [createTranscriptChunks] returns, the chunk at
    position [k] has [chunkIndex] [k], belongs to the video, has no embedding
    yet, counts at least one token and lasts 15 seconds per token, so that it
    ends strictly after it starts. *)
Theorem createTranscriptChunks_numbered (videoDbId : Id) (transcript : string)
    (w : World) :
  match Indexer.createTranscriptChunks videoDbId transcript w with
  | (Ret chunks, _) =>
      forall k c,
        nth_error chunks k = Some c ->
        Chunk.chunkIndex c = Z.of_nat k
        /\ Chunk.videoId c = videoDbId
        /\ Chunk.embedding c = None
        /\ (1 <= Chunk.tokenCount c)%Z
        /\ Chunk.endTime c = (Chunk.startTime c + 15 * Chunk.tokenCount c)%Z
        /\ (Chunk.startTime c < Chunk.endTime c)%Z
  | (Throw _, _) => True
  end.
Proof.
  pose proof (createTranscriptChunks_persists videoDbId transcript w) as H.
  destruct (Indexer.createTranscriptChunks videoDbId transcript w) as [[chunks | e] w'];
    [ | exact I].
  destruct H as [Hnum _]. intros k c Hk.
  destruct (Numbered_nth videoDbId chunks 0 k c Hnum Hk) as (H1 & H2 & H3 & H4 & H5).
  repeat split; try assumption. lia.
Qed.

(** X10: the chunks that [createTranscriptChunks] returns are the rows it
    appended to [TranscriptChunk], in order, and no other table changes; when
    it throws, the chunks inserted before the rejected statement stay in the
    table. *)
Theorem createTranscriptChunks_stored (videoDbId : Id) (transcript : string)
    (w : World) :
  match Indexer.createTranscriptChunks videoDbId transcript w with
  | (Ret chunks, w') =>
      db w' = set_transcriptChunk (transcriptChunk (db w) ++ chunks) (db w)
  | (Throw _, w') =>
      exists done,
        db w' = set_transcriptChunk (transcriptChunk (db w) ++ done) (db w)
  end.
Proof.
  pose proof (createTranscriptChunks_persists videoDbId transcript w) as H.
  destruct (Indexer.createTranscriptChunks videoDbId transcript w) as [[chunks | e] w'].
  - apply H.
  - destruct H as (done & H & _). now exists done.
Qed.

(** ** The deduplication of the keywords *)

Lemma mapGet_In {V} (m : list (string * V)) (key : string) (v : V) :
  Extract.mapGet m key = Some v -> In (key, v) m.
Proof.
  induction m as [ | [k v0] rest IH]; simpl; [discriminate | ].
  destruct (String.eqb k key) eqn:E.
  - intros [= ->]. apply String.eqb_eq in E. subst. now left.
  - intros H. right. now apply IH.
Qed.

Lemma mapGet_None {V} (m : list (string * V)) (key : string) :
  Extract.mapGet m key = None -> ~ In key (map fst m).
Proof.
  induction m as [ | [k v0] rest IH]; simpl; [tauto | ].
  destruct (String.eqb k key) eqn:E; [discriminate | ].
  intros H [Hk | Hin]; [ | now apply IH].
  subst. rewrite String.eqb_refl in E. discriminate.
Qed.

Lemma mapGet_mapSet_same {V} (m : list (string * V)) (key : string) (v : V) :
  Extract.mapGet (Extract.mapSet m key v) key = Some v.
Proof.
  induction m as [ | [k v0] rest IH]; simpl.
  - now rewrite String.eqb_refl.
  - destruct (String.eqb k key) eqn:E; simpl; rewrite E; [reflexivity | exact IH].
Qed.

Lemma mapGet_mapSet_other {V} (m : list (string * V)) (key key' : string) (v : V) :
  key <> key' ->
  Extract.mapGet (Extract.mapSet m key v) key' = Extract.mapGet m key'.
Proof.
  intros Hne. induction m as [ | [k v0] rest IH]; simpl.
  - destruct (String.eqb key key') eqn:E; [ | reflexivity].
    apply String.eqb_eq in E. contradiction.
  - destruct (String.eqb k key) eqn:E; simpl.
    + apply String.eqb_eq in E. subst k.
      destruct (String.eqb key key') eqn:E'; [ | reflexivity].
      apply String.eqb_eq in E'. contradiction.
    + now rewrite IH.
Qed.

Lemma mapSet_In {V} (m : list (string * V)) (key : string) (v : V) (k' : string) (v' : V) :
  In (k', v') (Extract.mapSet m key v) -> (k' = key /\ v' = v) \/ In (k', v') m.
Proof.
  induction m as [ | [k v0] rest IH]; simpl.
  - intros [[= <- <-] | []]. now left.
  - destruct (String.eqb k key) eqn:E; simpl.
    + apply String.eqb_eq in E. subst k.
      intros [[= <- <-] | H]; [now left | right; now right].
    + intros [H | H]; [right; now left | ].
      destruct (IH H) as [H' | H']; [now left | right; now right].
Qed.

Lemma mapSet_keys {V} (m : list (string * V)) (key : string) (v : V) :
  map fst (Extract.mapSet m key v)
  = match Extract.mapGet m key with
    | Some _ => map fst m
    | None => map fst m ++ [key]
    end.
Proof.
  induction m as [ | [k v0] rest IH]; simpl; [reflexivity | ].
  destruct (String.eqb k key) eqn:E; simpl; [reflexivity | ].
  rewrite IH. now destruct (Extract.mapGet rest key).
Qed.

Lemma mapSet_NoDup {V} (m : list (string * V)) (key : string) (v : V) :
  NoDup (map fst m) -> NoDup (map fst (Extract.mapSet m key v)).
Proof.
  intros H. rewrite mapSet_keys.
  destruct (Extract.mapGet m key) eqn:E; [exact H | ].
  apply NoDup_app; [exact H | repeat constructor; intros [] | ].
  intros x Hx [<- | []]. exact (mapGet_None m key E Hx).
Qed.

(** One more hit keeps the invariant of the deduplication. *)
Lemma Deduped_step (m : list (string * NerHit)) (seen : list NerHit) (h : NerHit) :
  Deduped m seen ->
  Deduped
    (match Extract.mapGet m (keyOf h) with
     | None => Extract.mapSet m (keyOf h) h
     | Some old =>
         if Qlt_bool (score old) (score h) then Extract.mapSet m (keyOf h) h else m
     end) (seen ++ [h]).
Proof.
  intros (Hnd & Hent & Hrep).
  assert (Hset : (forall old, Extract.mapGet m (keyOf h) = Some old ->
                              (score old <= score h)%Q) ->
                 Deduped (Extract.mapSet m (keyOf h) h) (seen ++ [h])).
  { intros Hold. split; [ | split].
    - now apply mapSet_NoDup.
    - intros k v Hin. apply mapSet_In in Hin as [[-> ->] | Hin].
      + split; [reflexivity | apply in_or_app; right; now left].
      + destruct (Hent k v Hin). split; [assumption | apply in_or_app; now left].
    - intros h' Hin. apply in_app_or in Hin as [Hin | [<- | []]].
      + destruct (Hrep h' Hin) as (v & Hv & Hle).
        destruct (String.eqb (keyOf h) (keyOf h')) eqn:E.
        * apply String.eqb_eq in E. rewrite <- E, mapGet_mapSet_same.
          exists h. split; [reflexivity | ].
          rewrite <- E in Hv. eapply Qle_trans; [exact Hle | now apply Hold].
        * rewrite mapGet_mapSet_other; [now exists v | ].
          intros Eq. rewrite Eq, String.eqb_refl in E. discriminate.
      + rewrite mapGet_mapSet_same. exists h. split; [reflexivity | apply Qle_refl]. }
  destruct (Extract.mapGet m (keyOf h)) as [old | ] eqn:Eg.
  - destruct (Qlt_bool (score old) (score h)) eqn:Elt.
    + apply Hset. intros old' [= <-]. apply Qlt_le_weak. now apply Qlt_bool_lt.
    + split; [exact Hnd | split].
      * intros k v Hin. destruct (Hent k v Hin).
        split; [assumption | apply in_or_app; now left].
      * intros h' Hin. apply in_app_or in Hin as [Hin | [<- | []]];
          [now apply Hrep | ].
        exists old. split; [exact Eg | ].
        unfold Qlt_bool in Elt. apply negb_false_iff in Elt.
        now apply Qle_bool_iff.
  - apply Hset. intros old [=].
Qed.

Lemma dedupe_Deduped (raw : list NerHit) : Deduped (Extract.dedupe raw) raw.
Proof.
  unfold Extract.dedupe.
  assert (G : forall rest m seen,
             Deduped m seen ->
             Deduped
               (fold_left (fun keywordMap keyword =>
                  let key := (JS.toLowerCase (word keyword) ++ "_" ++ entity keyword)%string in
                  match Extract.mapGet keywordMap key with
                  | None => Extract.mapSet keywordMap key keyword
                  | Some old =>
                      if Qlt_bool (score old) (score keyword)
                      then Extract.mapSet keywordMap key keyword
                      else keywordMap
                  end) rest m) (seen ++ rest)).
  { induction rest as [ | h rest IH]; intros m seen H; simpl.
    - now rewrite app_nil_r.
    - replace (seen ++ h :: rest) with ((seen ++ [h]) ++ rest)
        by (rewrite <- app_assoc; reflexivity).
      apply IH. apply (Deduped_step m seen h H). }
  apply (G raw [] []). split; [constructor | split]; simpl; tauto.
Qed.

Lemma rawKeywords_filter (allResults : list NerHit) :
  Extract.rawKeywords allResults
  = filter (fun item => Qlt_bool (1 # 2) (score item)) allResults.
Proof.
  unfold Extract.rawKeywords.
  induction (filter _ allResults) as [ | [w e s] rest IH]; simpl;
    [reflexivity | now rewrite IH].
Qed.

Lemma dedupe_keys (raw : list NerHit) :
  map keyOf (map snd (Extract.dedupe raw)) = map fst (Extract.dedupe raw).
Proof.
  destruct (dedupe_Deduped raw) as (_ & Hent & _).
  induction (Extract.dedupe raw) as [ | [k v] rest IH]; simpl; [reflexivity | ].
  rewrite IH.
  - destruct (Hent k v (or_introl eq_refl)) as [-> _]. reflexivity.
  - intros k' v' H. apply Hent. now right.
Qed.

(** X11: the keywords that the extractor keeps are in descending order of
    score, and no two of them have the same key (lower-cased word and entity
    tag). *)
Theorem sortedKeywords_ordered_distinct (allResults : list NerHit) :
  Sorted (fun a b => (score b <= score a)%Q) (Extract.sortedKeywords allResults)
  /\ NoDup (map keyOf (Extract.sortedKeywords allResults)).
Proof.
  unfold Extract.sortedKeywords. split.
  - apply sortBy_Sorted.
    + intros x y H. apply Qlt_le_weak. now apply Qlt_bool_lt.
    + intros x y H. unfold Qlt_bool in H. apply negb_false_iff in H.
      now apply Qle_bool_iff.
  - eapply Permutation_NoDup.
    + apply Permutation_map. symmetry. apply sortBy_Permutation.
    + rewrite dedupe_keys. apply dedupe_Deduped.
Qed.

(** X12: every keyword that the extractor keeps is one of the hits of the
    pipeline, with a score above 0.5; and every hit with a score above 0.5
    is represented, under its key, by a kept keyword that scores at least as
    much: of two hits with one key the better one is kept. *)
Theorem sortedKeywords_best_of_each (allResults : list NerHit) :
  (forall k, In k (Extract.sortedKeywords allResults) ->
             In k allResults /\ (1 # 2 < score k)%Q)
  /\ (forall h, In h allResults -> (1 # 2 < score h)%Q ->
        exists k, In k (Extract.sortedKeywords allResults)
                  /\ keyOf k = keyOf h /\ (score h <= score k)%Q).
Proof.
  destruct (dedupe_Deduped (Extract.rawKeywords allResults)) as (_ & Hent & Hrep).
  assert (Hperm := sortBy_Permutation (fun a b => Qlt_bool (score b) (score a))
                     (map snd (Extract.dedupe (Extract.rawKeywords allResults)))).
  fold (Extract.sortedKeywords allResults) in Hperm.
  split.
  - intros k Hk. apply (Permutation_in _ Hperm) in Hk.
    apply in_map_iff in Hk as ([key v] & <- & Hin).
    destruct (Hent key v Hin) as [_ Hraw]. rewrite rawKeywords_filter in Hraw.
    apply filter_In_both in Hraw as [Hall Hs]. simpl.
    split; [exact Hall | now apply Qlt_bool_lt].
  - intros h Hin Hs.
    assert (Hraw : In h (Extract.rawKeywords allResults)).
    { rewrite rawKeywords_filter. apply filter_In. split; [exact Hin | ].
      unfold Qlt_bool. apply negb_true_iff.
      destruct (Qle_bool (score h) (1 # 2)) eqn:E; [ | reflexivity].
      apply Qle_bool_iff in E. exfalso. exact (Qlt_not_le _ _ Hs E). }
    destruct (Hrep h Hraw) as (v & Hv & Hle).
    apply mapGet_In in Hv. exists v. split; [ | split; [ | exact Hle]].
    + apply (Permutation_in _ (Permutation_sym Hperm)).
      apply in_map_iff. exists (keyOf h, v). now split.
    + destruct (Hent _ _ Hv) as [E _]. now symmetry.
Qed.

(** ** What fails a chunk, a video and a run *)

Section Containment.

Variable env : Env.

(** The embedding step of [processChunk] returns, whatever the embeddings
    endpoint and the database do. *)
Lemma embedding_step_returns (chunk : Chunk.t) (w : World) :
  fst (tryCatch
         (bind (Indexer.generateEmbedding env (Chunk.content chunk))
            (fun embedding =>
               modify (fun d =>
                 set_transcriptChunk
                   (map (fun c => if Chunk.id c =? Chunk.id chunk
                                  then Chunk.set_embedding (Some embedding) c
                                  else c) (transcriptChunk d)) d)))
         (fun _ => ret tt) w) = Ret tt.
Proof.
  unfold tryCatch, bind.
  destruct (Indexer.generateEmbedding env (Chunk.content chunk) w) as [[e | e] w1];
    [ | reflexivity].
  unfold modify, statement. destruct (faults w1 (ticks w1)); reflexivity.
Qed.

(** X13: a failure of the embedding of a chunk never fails [processChunk]:
    once the keywords are extracted and their insert, if there is one, is
    accepted, [processChunk] returns, whatever the embeddings endpoint
    answers and whether the update of the chunk is accepted or not. *)
Theorem processChunk_embedding_contained (chunk : Chunk.t) (w : World)
    (keywordResult : Extract.KeywordExtractionResult) :
  fst (Extract.extractKeywordsFromTranscript env (Chunk.content chunk) w)
  = Ret keywordResult ->
  (Indexer.keywordRows chunk (Extract.keywords keywordResult) = []
   \/ (let w1 := snd (Extract.extractKeywordsFromTranscript env (Chunk.content chunk) w) in
       faults w1 (ticks w1) = false)) ->
  fst (Indexer.processChunk env chunk w) = Ret tt.
Proof.
  intros He Hins. unfold Indexer.processChunk. unfold bind at 1.
  destruct (Extract.extractKeywordsFromTranscript env (Chunk.content chunk) w)
    as [[kr | e] w1]; simpl in He, Hins; [ | discriminate].
  injection He as ->. unfold bind at 1.
  destruct (Indexer.keywordRows chunk (Extract.keywords keywordResult)) as [ | r rows].
  - cbn [ret]. apply embedding_step_returns.
  - destruct Hins as [Hnil | Hf]; [discriminate | ].
    unfold Indexer.insertKeywords, statement. rewrite Hf. cbv beta iota.
    apply embedding_step_returns.
Qed.

(** The promise of one video is never rejected. *)
Lemma batchPromise_returns (video : VideoInfo) (w : World) :
  exists b, fst (Indexer.batchPromise env video w) = Ret b.
Proof.
  unfold Indexer.batchPromise, tryCatch.
  destruct (channelDbId w) as [cid | ].
  - destruct ((Indexer.processVideoWithYtdlp env cid video ;;; ret true)%monad w)
      as [[b | e] w1]; eexists; reflexivity.
  - eexists. reflexivity.
Qed.

(** X14: a video never fails its batch: [runBatch] always returns, with one
    success flag per video of the batch, whatever the download, the pipeline,
    the embeddings endpoint and the database do. *)
Theorem runBatch_returns (batch : list VideoInfo) (w : World) :
  exists flags,
    fst (Indexer.runBatch env batch w) = Ret flags
    /\ List.length flags = List.length batch.
Proof.
  revert w. induction batch as [ | video rest IH]; intros w; simpl.
  - exists []. split; reflexivity.
  - unfold bind at 1. destruct (batchPromise_returns video w) as (b & Eb).
    destruct (Indexer.batchPromise env video w) as [[b' | e] w1];
      simpl in Eb; [ | discriminate].
    injection Eb as ->. unfold bind. destruct (IH w1) as (flags & E & Hlen).
    destruct (Indexer.runBatch env rest w1) as [[flags' | e] w2];
      simpl in E; [ | discriminate].
    injection E as ->. exists (b :: flags). split; [reflexivity | simpl; lia].
Qed.

(** X15: on a URL that matches none of the channel patterns, [indexChannel]
    rejects and stores nothing.  On an indexer that has indexed no channel
    yet, the error is the one of [updateIndexStatus] in the [catch] block,
    [Channel database ID not set], and not [Invalid YouTube channel URL]. *)
Theorem indexChannel_invalid_url (channelUrl channelName : string)
    (maxVideos : option nat) (w : World) :
  Indexer.extractChannelIdFromUrl channelUrl = None ->
  channelDbId w = None ->
  Indexer.indexChannel env channelUrl channelName maxVideos w
  = (Throw "Channel database ID not set. Call indexChannel first.", w).
Proof.
  intros Hurl Hid. unfold Indexer.indexChannel, tryCatch.
  unfold bind at 1. unfold Indexer.createChannelRecord. rewrite Hurl.
  cbn [throw]. unfold bind, Indexer.updateIndexStatus. rewrite Hid. reflexivity.
Qed.

End Containment.

Lemma processChunk_embedding_contained_witness :
  fst (Indexer.processChunk envNerOutage Sample.chunk2 Sample.world) = Ret tt
  /\ transcriptChunk (db (snd (Indexer.processChunk envNerOutage Sample.chunk2
                                  Sample.world)))
     = [Sample.chunk2].
Proof.
  split; [ | reflexivity].
  eapply (processChunk_embedding_contained envNerOutage Sample.chunk2 Sample.world).
  - vm_compute. reflexivity.
  - right. reflexivity.
Defined.

Lemma indexChannel_invalid_url_witness :
  Indexer.indexChannel Sample.env "https://example.com/veritasium" "Veritasium" None
    Sample.world0
  = (Throw "Channel database ID not set. Call indexChannel first.", Sample.world0).
Proof.
  apply (indexChannel_invalid_url Sample.env "https://example.com/veritasium"
           "Veritasium" None Sample.world0); reflexivity.
Defined.

(** ** What the processing of the videos leaves alone *)





Lemma keepsRun_statement {A} (run : M A) : KeepsRun run -> KeepsRun (statement run).
Proof.
  intros H w. unfold statement.
  destruct (faults w (ticks w)); [reflexivity | ]. now rewrite H.
Qed.

Lemma keepsRun_select {A} (read : Database -> A) : KeepsRun (select read).
Proof. apply keepsRun_statement. intros w. reflexivity. Qed.



Section RunStateOfIndexing.

Variable env : Env.












End RunStateOfIndexing.

(** ** The end of a successful run *)










Section Success.

Variable env : Env.


End Success.






Section SuccessfulRun.

Variable env : Env.



End SuccessfulRun.

(** ** A run on a database that rejects no statement *)






Section Working.

Variable env : Env.




End Working.

Section Indexed.

Variable env : Env.



End Indexed.



(** ** The estimate of the indexing time *)




(** ** The channel identifier of a URL *)

Lemma takeWhile_chars (s : string) : AllChars idChar (Indexer.takeWhile Indexer.isIdChar s).
Proof.
  induction s as [ | c s' IH]; simpl; [trivial | ].
  destruct (Indexer.isIdChar c) eqn:E; simpl; auto.
Qed.

Lemma takeWhile_id (id rest : string) :
  AllChars idChar id -> endsId rest ->
  Indexer.takeWhile Indexer.isIdChar (id ++ rest) = id.
Proof.
  intros Hid Hrest. induction id as [ | c id' IH]; simpl.
  - destruct rest as [ | c rest']; [reflexivity | ]. simpl in *. now rewrite Hrest.
  - destruct Hid as [Hc Hid]. unfold idChar in Hc. rewrite Hc. now rewrite IH.
Qed.

Lemma here_shape (b : bool) (s : string) :
  let here := if b then Indexer.takeWhile Indexer.isIdChar s else EmptyString in
  JS.truthy here = true -> here <> "" /\ AllChars idChar here.
Proof.
  intros here T. split.
  - intros E. rewrite E in T. discriminate.
  - subst here. destruct b; [apply takeWhile_chars | exact I].
Qed.

Lemma matchPattern_shape (literal url m : string) :
  Indexer.matchPattern literal url = Some m -> m <> "" /\ AllChars idChar m.
Proof.
  induction url as [ | c url' IH]; cbn [Indexer.matchPattern]; cbv zeta;
    match goal with
    | |- context [JS.truthy ?h] => destruct (JS.truthy h) eqn:T
    end; try discriminate; try exact IH;
    intros [= <-]; exact (here_shape _ _ T).
Qed.

(** X19: the identifier that [extractChannelIdFromUrl] finds is not empty
    and is made of letters, digits, [_] and [-]. *)
Theorem extractChannelIdFromUrl_shape (url channelId : string) :
  Indexer.extractChannelIdFromUrl url = Some channelId ->
  channelId <> "" /\ AllChars idChar channelId.
Proof.
  unfold Indexer.extractChannelIdFromUrl, Indexer.CHANNEL_URL_PATTERNS.
  cbn [fold_right].
  repeat (destruct (Indexer.matchPattern _ url) as [m | ] eqn:E;
          [intros [= <-]; exact (matchPattern_shape _ _ _ E) | clear E]).
  discriminate.
Qed.

Lemma prefix_chars (P : ascii -> Prop) (literal s : string) :
  String.prefix literal s = true -> AllChars P s -> AllChars P literal.
Proof.
  revert s. induction literal as [ | a literal' IH]; intros s; simpl; [trivial | ].
  destruct s as [ | b s']; simpl; [intros H; discriminate H | ].
  destruct (ascii_dec a b) as [<- | ]; [ | intros H; discriminate H].
  intros Hp [Ha Hs]. split; [exact Ha | exact (IH s' Hp Hs)].
Qed.

Lemma matchPattern_none (literal s : string) :
  ~ AllChars idChar literal -> AllChars idChar s ->
  Indexer.matchPattern literal s = None.
Proof.
  intros Hlit. induction s as [ | c s' IH]; intros Hs; cbn [Indexer.matchPattern];
    cbv zeta.
  - destruct (String.prefix literal "") eqn:Hp; [ | reflexivity].
    contradiction Hlit. exact (prefix_chars _ _ _ Hp Hs).
  - destruct (String.prefix literal (String c s')) eqn:Hp.
    + contradiction Hlit. exact (prefix_chars _ _ _ Hp Hs).
    + cbn [JS.truthy]. apply IH. apply Hs.
Qed.

Lemma pattern_not_id (pattern : string) :
  In pattern Indexer.CHANNEL_URL_PATTERNS -> ~ AllChars idChar pattern.
Proof.
  unfold Indexer.CHANNEL_URL_PATTERNS.
  intros [<- | [<- | [<- | [<- | []]]]]; intros H; unfold idChar in H;
    simpl in H;
    destruct H as (_ & _ & _ & _ & _ & _ & _ & H & _); vm_compute in H;
    discriminate H.
Qed.

Lemma prefix_nil (s : string) : String.prefix "" s = true.
Proof. destruct s; reflexivity. Qed.

Lemma truthy_id (id rest : string) : id <> "" -> JS.truthy (id ++ rest) = true.
Proof. destruct id; [congruence | reflexivity]. Qed.

(** X20: the four forms of a channel URL give their identifier back: for
    an identifier [id] of the class, [extractChannelIdFromUrl] finds [id] in
    [https://www.youtube.com/@id], whatever follows the identifier, and in
    the URLs of [/c/id], [/channel/id] and [/user/id]. *)
Theorem extractChannelIdFromUrl_round_trip (id : string) :
  id <> "" -> AllChars idChar id ->
  (forall rest, endsId rest ->
     Indexer.extractChannelIdFromUrl ("https://www.youtube.com/@" ++ id ++ rest)
     = Some id)
  /\ Indexer.extractChannelIdFromUrl ("https://www.youtube.com/c/" ++ id) = Some id
  /\ Indexer.extractChannelIdFromUrl ("https://www.youtube.com/channel/" ++ id)
     = Some id
  /\ Indexer.extractChannelIdFromUrl ("https://www.youtube.com/user/" ++ id) = Some id.
Proof.
  intros Hne Hid.
  assert (Hnone : forall pattern, In pattern Indexer.CHANNEL_URL_PATTERNS ->
                    Indexer.matchPattern pattern id = None).
  { intros pattern Hin. apply matchPattern_none; [now apply pattern_not_id | exact Hid]. }
  assert (Hown : Indexer.takeWhile Indexer.isIdChar id = id).
  { clear Hne Hnone. induction id as [ | c id' IH]; simpl; [reflexivity | ].
    destruct Hid as [Hc Hid]. unfold idChar in Hc. rewrite Hc. now rewrite IH. }
  assert (Htruthy : JS.truthy id = true) by (destruct id; [congruence | reflexivity]).
  unfold Indexer.extractChannelIdFromUrl, Indexer.CHANNEL_URL_PATTERNS.
  cbn [fold_right]. repeat split.
  - intros rest Hrest. simpl.
    rewrite prefix_nil, (takeWhile_id id rest Hid Hrest), Htruthy. reflexivity.
  - simpl. rewrite prefix_nil, Hown, Htruthy.
    rewrite (Hnone "youtube.com/@") by (simpl; tauto). reflexivity.
  - simpl. rewrite prefix_nil, Hown, Htruthy.
    rewrite (Hnone "youtube.com/@"), (Hnone "youtube.com/c/") by (simpl; tauto).
    reflexivity.
  - simpl. rewrite prefix_nil, Hown, Htruthy.
    rewrite (Hnone "youtube.com/@"), (Hnone "youtube.com/c/"),
      (Hnone "youtube.com/channel/") by (simpl; tauto).
    reflexivity.
Qed.

Lemma extractChannelIdFromUrl_shape_witness :
  "veritasium" <> "" /\ AllChars idChar "veritasium".
Proof.
  apply (extractChannelIdFromUrl_shape "https://www.youtube.com/@veritasium/videos"
           "veritasium").
  reflexivity.
Defined.

Lemma extractChannelIdFromUrl_round_trip_witness :
  Indexer.extractChannelIdFromUrl "https://www.youtube.com/@3blue1brown/videos"
  = Some "3blue1brown"
  /\ Indexer.extractChannelIdFromUrl "https://www.youtube.com/channel/UC-9_b"
     = Some "UC-9_b".
Proof.
  destruct (extractChannelIdFromUrl_round_trip "3blue1brown" ltac:(discriminate)
              ltac:(unfold idChar; simpl; tauto)) as (H1 & _).
  destruct (extractChannelIdFromUrl_round_trip "UC-9_b" ltac:(discriminate)
              ltac:(unfold idChar; simpl; tauto)) as (_ & _ & H2 & _).
  split; [exact (H1 "/videos" eq_refl) | exact H2].
Defined.

(** ** The query log of a search *)

Section Logging.

Variable env : Env.
Variable openaiApiKey : string.

(** The table of the logged queries after [search]. *)
Lemma search_logged (query : string) (options : Search.SearchOptions) (w : World) :
  searchQuery (db (snd (Search.search env openaiApiKey query options w)))
  = searchQuery (db w)
    ++ match loggedRow env openaiApiKey query options w with
       | Some row => [row]
       | None => []
       end.
Proof.
  unfold loggedRow, Search.search. unfold bind at 1.
  unfold Search.generateEmbedding, external.
  destruct (embeddings env (ticks w) openaiApiKey query) as [queryEmbedding | e].
  2: { destruct (Search.givenHandle _); simpl; now rewrite app_nil_r. }
  destruct (Search.givenHandle (Search.channelId options)) as [handle | ].
  - unfold bind, Search.getChannelDbIdByHandle, select, statement.
    change (faults (tick w) (ticks (tick w))) with (faults w (S (ticks w))).
    destruct (faults w (S (ticks w))); [simpl; now rewrite app_nil_r | ].
    change (db (tick (tick w))) with (db w).
    destruct (hd_error _) as [c | ]; [ | simpl; now rewrite app_nil_r].
    cbn [option_map]. rewrite searchFrom_db.
    unfold Search.logSearchQuery, tryCatch, statement.
    change (faults (tick (tick w)) (ticks (tick (tick w))))
      with (faults w (S (S (ticks w)))).
    destruct (faults w (S (S (ticks w)))); simpl; [now rewrite app_nil_r | reflexivity].
  - rewrite searchFrom_db. simpl. now rewrite app_nil_r.
Qed.

End Logging.

(** C8, amended: [search] logs the query, as one row appended to
    [SearchQuery], exactly when a channel handle is given, the embedding
    request is answered, the lookup of the channel is accepted and finds the
    channel, and the insert is accepted; the row holds the query, its
    embedding and the identifier of the channel.  In particular nothing is
    logged without a channel handle.  The logging never throws, and whether
    its insert is rejected or not does not change what [search] returns or
    throws. *)
Theorem search_logging (env : Env) (openaiApiKey query : string)
    (options : Search.SearchOptions) (w : World) :
  searchQuery (db (snd (Search.search env openaiApiKey query options w)))
  = searchQuery (db w)
    ++ match loggedRow env openaiApiKey query options w with
       | Some row => [row]
       | None => []
       end
  /\ (Search.givenHandle (Search.channelId options) = None ->
      searchQuery (db (snd (Search.search env openaiApiKey query options w)))
      = searchQuery (db w))
  /\ (forall queryEmbedding channelDbId v,
         fst (Search.logSearchQuery query queryEmbedding channelDbId v) = Ret tt)
  /\ (forall handle f',
         Search.givenHandle (Search.channelId options) = Some handle ->
         (forall k, k <> ticks w + 2 -> f' k = faults w k) ->
         fst (Search.search env openaiApiKey query options (set_faults f' w))
         = fst (Search.search env openaiApiKey query options w)).
Proof.
  split; [apply search_logged | split; [ | split]].
  - intros Hh. rewrite search_logged. unfold loggedRow. rewrite Hh.
    apply app_nil_r.
  - intros. apply logSearchQuery_returns.
  - intros. eapply search_log_failure; eassumption.
Qed.

(** A search in the sample channel logs one row, for the channel of
    identifier 0; when the insert, at tick 2, is rejected, nothing is logged
    and the outcome of the search is the same. *)
Lemma search_logging_witness :
  searchQuery (db (snd (Search.search Sample.env "sk-test" "Barack Obama"
                          Sample.inChannel Sample.world)))
  = [SearchQuery.mk 5 0 "Barack Obama" (Some [1%Q; 0%Q]) 0 (Some 0%Z) 1000%Z]
  /\ searchQuery (db (snd (Search.search Sample.env "sk-test" "Barack Obama"
                             Sample.inChannel
                             (set_faults (fun k => k =? 2) Sample.world)))) = []
  /\ fst (Search.search Sample.env "sk-test" "Barack Obama" Sample.inChannel
            (set_faults (fun k => k =? 2) Sample.world))
     = fst (Search.search Sample.env "sk-test" "Barack Obama" Sample.inChannel
              Sample.world).
Proof.
  split; [ | split].
  - exact (proj1 (search_logging Sample.env "sk-test" "Barack Obama" Sample.inChannel
                    Sample.world)).
  - exact (proj1 (search_logging Sample.env "sk-test" "Barack Obama" Sample.inChannel
                    (set_faults (fun k => k =? 2) Sample.world))).
  - apply (proj2 (proj2 (proj2 (search_logging Sample.env "sk-test" "Barack Obama"
                                  Sample.inChannel Sample.world)))
             "veritasium" (fun k => k =? 2)).
    + reflexivity.
    + intros k Hk. simpl in Hk. apply Nat.eqb_neq. exact Hk.
Defined.
